(** * NoLongerEvil thermostat server: the device state engine

    A shallow embedding of the server's state engine, taken from
    - [server/src/utils/fanTimer.ts]: the fan-timer helpers, the
      subscription-aware [DeviceAvailabilityWatchdog] and the
      [SQLite3Service] object store;
    - [server/src/integrations/mqtt/MqttIntegration.ts]: the MQTT command
      handlers and the earlier [DeviceAvailabilityWatchdog] variant;
    - [frontend/app/api/thermostat/status/route.ts]: the filter of the
      status route.

    Conventions of the embedding.
    - A JavaScript value is a tree [JS.value]; [JUndef] is [undefined], so
      that an object can hold a key whose value is [undefined], as the
      spread of [extractFanTimerState] produces.
    - A JavaScript object used as a dictionary is a [gmap string JS.value]:
      its own properties; none of the modelled code depends on the
      enumeration order of keys. The objects are plain ones, with
      [Object.prototype] as the engine ships it: an assignment [o[k] = v]
      at [k = "__proto__"] reaches the inherited setter when [o] has no
      own property of that name ([JS.assign]), and a read through
      [o[k] ||= ...] finds what [o] inherits ([JS.inherited]). What an
      object inherits is not part of its value: [JSON.stringify] does not
      see it.
    - Numbers are integers ([Z]): epoch seconds and milliseconds, revisions
      and flags. No arithmetic of the modelled paths leaves the integers.
    - [Date.now()] is an explicit argument [now] (milliseconds).
    - A SQL table is the list of its rows, in row order.
    - [db.run] is not awaited: a writing method returns once it has handed
      its statement over, and the statement runs later. Such a method is
      modelled as the statement it builds from what it read and, apart,
      the run of that statement; calls whose statements are still to run
      are followed on a [Connection].
    - A promise is its outcome: the value it resolves to, or [Pending] when
      the code never settles it. *)

From Stdlib Require Import ZArith Lia Ascii String.
From stdpp Require Import gmap strings list fin_maps pretty.

Local Open Scope string_scope.
Local Open Scope Z_scope.
Local Open Scope list_scope.

Set Warnings "-register-all".

(** ** JavaScript values *)

Module JS.

Inductive value : Type :=
  | JUndef
  | JNull
  | JBool (b : bool)
  | JNum (n : Z)
  | JStr (s : string)
  | JArr (l : list value)
  | JObj (m : gmap string value).

(** [o[k]] and [o.k]: the value of an own key, [undefined] when absent. *)
Definition get (o : gmap string value) (k : string) : value :=
  default JUndef (o !! k).

(** ['k' in o]. *)
Definition has (o : gmap string value) (k : string) : bool :=
  bool_decide (is_Some (o !! k)).

(** [{ ...a, ...b }]: the keys of [b] win. *)
Definition spread (a b : gmap string value) : gmap string value := b ∪ a.

(** The property names of [Object.prototype]. Each of them is truthy when
    read through an object that has no own property of that name: a
    method, or for [__proto__] the prototype itself. *)
Definition inheritedNames : list string :=
  [ "constructor"; "__defineGetter__"; "__defineSetter__"; "hasOwnProperty";
    "__lookupGetter__"; "__lookupSetter__"; "isPrototypeOf";
    "propertyIsEnumerable"; "toString"; "valueOf"; "__proto__";
    "toLocaleString" ].

Definition inherited (k : string) : bool := bool_decide (k ∈ inheritedNames).

(** [o[k] = v]. At [k = "__proto__"], when [o] has no own property of that
    name, the assignment calls the setter [o] inherits: it replaces the
    prototype of [o] (when [v] is an object or [null]) and gives [o] no own
    property. Every other inherited name is a writable data property, and
    the assignment creates the own property. *)
Definition assign {A} (o : gmap string A) (k : string) (v : A) : gmap string A :=
  if bool_decide (k = "__proto__") && negb (bool_decide (is_Some (o !! k)))
  then o
  else <[k := v]> o.

(** [val !== null && typeof val === "object" && !Array.isArray(val)]. *)
Definition isObject (v : value) : bool :=
  match v with JObj _ => true | _ => false end.

(** [v ?? d]: [d] replaces [null] and [undefined] only. *)
Definition nullish (v d : value) : value :=
  match v with JUndef | JNull => d | _ => v end.

(** [JSON.parse(JSON.stringify(v))] for a value inside an object or an
    array: a key whose value is [undefined] is dropped from an object, an
    [undefined] array element becomes [null]. *)
Fixpoint jsonRoundTrip (v : value) : value :=
  match v with
  | JObj m =>
      JObj (omap (fun x => match x with
                           | JUndef => None
                           | _ => Some (jsonRoundTrip x)
                           end) m)
  | JArr l =>
      JArr (map (fun x => match x with
                          | JUndef => JNull
                          | _ => jsonRoundTrip x
                          end) l)
  | _ => v
  end.

(** The value read back from a TEXT column that was written with
    [JSON.stringify(v)]: [JSON.stringify(undefined)] is [undefined], which
    is bound as SQL NULL and parsed back as [null]. *)
Definition storedJson (v : value) : value :=
  match v with
  | JUndef => JNull
  | _ => jsonRoundTrip v
  end.

(** JSON-shaped values: no [undefined] anywhere. *)
Fixpoint jsonShaped (v : value) : bool :=
  match v with
  | JUndef => false
  | JArr l => forallb jsonShaped l
  | JObj m => map_fold (fun _ x acc => jsonShaped x && acc) true m
  | _ => true
  end.

(** The number of nodes of a value, for induction on nested values. *)
Fixpoint size (v : value) : nat :=
  match v with
  | JArr l => S (foldr (fun x acc => size x + acc)%nat 0%nat l)
  | JObj m => S (map_fold (fun _ x acc => size x + acc)%nat 0%nat m)
  | _ => 1%nat
  end.

End JS.

Import JS.

(** ** Deep merge ([SQLite3Service.mergeValues])

    [current[key]] at a name that [current] only inherits reads a method
    (or, at [__proto__], the prototype). Merged with a defined incoming
    value that gives the incoming value, as [undefined] does, which is what
    [get] reads here; at [__proto__] the merge is handed to the setter and
    leaves no own property. Merged with [undefined] it gives the method,
    which [JSON.stringify] drops as it drops [undefined]. *)

Fixpoint mergeValues (current incoming : value) {struct incoming} : value :=
  match incoming with
  | JUndef => current
  | JObj inc =>
      match current with
      | JUndef => incoming
      | JObj cur =>
          (* const result = { ...current };
             for (const key of Object.keys(incoming))
               result[key] = mergeValues(current[key], incoming[key]); *)
          JObj (map_fold
                  (fun key v result =>
                     assign result key (mergeValues (get cur key) v))
                  cur inc)
      | _ => incoming
      end
  | _ => incoming
  end.

(** ** Fan-timer business logic ([fanTimer.ts]) *)

Module FanTimer.

Definition isExplicitlyTurningOffFan (incomingValue : gmap string value) : bool :=
  if has incomingValue "fan_timer_timeout" &&
     match get incomingValue "fan_timer_timeout" with
     | JNum 0 => true
     | _ => false
     end
  then true
  else if has incomingValue "fan_control_state" &&
          match get incomingValue "fan_control_state" with
          | JBool false => true
          | _ => false
          end
  then true
  else false.

Definition shouldPreserveFanTimer (now : Z)
    (existingValue incomingValue : gmap string value) : bool :=
  if isExplicitlyTurningOffFan incomingValue then false
  else
    match get existingValue "fan_timer_timeout" with
    | JNum fanTimerTimeout =>
        let nowSeconds := now / 1000 in
        (nowSeconds <? fanTimerTimeout) && negb (fanTimerTimeout =? 0)
    | _ => false
    end.

Definition extractFanTimerState (v : gmap string value) : gmap string value :=
  {[ "fan_timer_timeout" := get v "fan_timer_timeout";
     "fan_control_state" := get v "fan_control_state";
     "fan_timer_duration" := get v "fan_timer_duration";
     "fan_current_speed" := get v "fan_current_speed";
     "fan_mode" := get v "fan_mode" ]}.

Definition preserveFanTimer (now : Z)
    (mergedValue existingValue : gmap string value) : gmap string value :=
  if negb (shouldPreserveFanTimer now existingValue mergedValue)
  then mergedValue
  else
    let fanTimerState := extractFanTimerState existingValue in
    spread mergedValue fanTimerState.

End FanTimer.

(** ** Availability watchdog *)

(** The [Map<string, DeviceAvailabilityState>] of both watchdog variants:
    its entries in insertion order, which is the order [entries()] visits
    them. [set] on an absent key appends; the code mutates the state of a
    present key in place. *)
Module AvailabilityMap.

Record DeviceAvailabilityState : Type := {
  serial : string;
  lastSeen : Z;
  isAvailable : bool
}.

Definition t : Type := list (string * DeviceAvailabilityState).

Fixpoint get (m : t) (k : string) : option DeviceAvailabilityState :=
  match m with
  | [] => None
  | (k', st) :: m' => if decide (k' = k) then Some st else get m' k
  end.

Fixpoint mutate (f : DeviceAvailabilityState -> DeviceAvailabilityState)
    (k : string) (m : t) : t :=
  match m with
  | [] => []
  | (k', st) :: m' =>
      if decide (k' = k) then (k', f st) :: m' else (k', st) :: mutate f k m'
  end.

Definition set (k : string) (st : DeviceAvailabilityState) (m : t) : t :=
  match get m k with
  | Some _ => mutate (fun _ => st) k m
  | None => m ++ [(k, st)]
  end.

Definition setLastSeen (now : Z) (st : DeviceAvailabilityState) :=
  {| serial := serial st; lastSeen := now; isAvailable := isAvailable st |}.

Definition setIsAvailable (b : bool) (st : DeviceAvailabilityState) :=
  {| serial := serial st; lastSeen := lastSeen st; isAvailable := b |}.

End AvailabilityMap.

(** A call of the availability-change handler: [(serial, isAvailable)]. *)
Definition Notification : Type := (string * bool)%type.

(** The watchdog of [fanTimer.ts], which keeps devices with an open
    long-poll subscription alive. *)
Module DeviceAvailabilityWatchdog.
Import AvailabilityMap.

Definition TIMEOUT_MS : Z := 300000.
Definition CHECK_INTERVAL_MS : Z := 30000.

(** The fields the modelled methods use: the map and whether
    [setAvailabilityChangeHandler] installed a callback. *)
Record Watchdog : Type := {
  deviceStates : AvailabilityMap.t;
  onAvailabilityChange : bool
}.

Definition empty (handler : bool) : Watchdog :=
  {| deviceStates := []; onAvailabilityChange := handler |}.

Definition withStates (w : Watchdog) (m : AvailabilityMap.t) : Watchdog :=
  {| deviceStates := m; onAvailabilityChange := onAvailabilityChange w |}.

(** The calls the handler receives; an exception of the handler is caught
    and does not change the watchdog. *)
Definition notifyAvailabilityChange (w : Watchdog) (serial : string)
    (isAvailable : bool) : list Notification :=
  if onAvailabilityChange w then [(serial, isAvailable)] else [].

Definition markSeen (now : Z) (serial : string) (w : Watchdog)
    : Watchdog * list Notification :=
  match get (deviceStates w) serial with
  | None =>
      (withStates w
         (set serial {| AvailabilityMap.serial := serial; lastSeen := now;
                        isAvailable := true |} (deviceStates w)),
       notifyAvailabilityChange w serial true)
  | Some existingState =>
      let wasAvailable := isAvailable existingState in
      let m1 := mutate (setLastSeen now) serial (deviceStates w) in
      if negb wasAvailable
      then (withStates w (mutate (setIsAvailable true) serial m1),
            notifyAvailabilityChange w serial true)
      else (withStates w m1, [])
  end.

(** One turn of [for (const serial of activeSerials)]. *)
Definition keepAlive (now : Z) (acc : Watchdog * list Notification)
    (serial : string) : Watchdog * list Notification :=
  let '(w, out) := acc in
  match get (deviceStates w) serial with
  | Some state =>
      let m1 := mutate (setLastSeen now) serial (deviceStates w) in
      if negb (isAvailable state)
      then (withStates w (mutate (setIsAvailable true) serial m1),
            out ++ notifyAvailabilityChange w serial true)
      else (withStates w m1, out)
  | None =>
      (withStates w
         (set serial {| AvailabilityMap.serial := serial; lastSeen := now;
                        isAvailable := true |} (deviceStates w)),
       out ++ notifyAvailabilityChange w serial true)
  end.

(** [for (const [serial, state] of this.deviceStates.entries())]. *)
Fixpoint timeoutPass (w : Watchdog) (now : Z) (m : AvailabilityMap.t)
    : AvailabilityMap.t * list Notification :=
  match m with
  | [] => ([], [])
  | (serial, state) :: m' =>
      let '(r, out) := timeoutPass w now m' in
      if negb (isAvailable state) then ((serial, state) :: r, out)
      else
        let timeSinceLastSeen := now - lastSeen state in
        if TIMEOUT_MS <? timeSinceLastSeen
        then ((serial, setIsAvailable false state) :: r,
              notifyAvailabilityChange w serial false ++ out)
        else ((serial, state) :: r, out)
  end.

(** [activeSerials] is what [subscriptionManager.getActiveSerials()]
    returns; a watchdog without subscription manager skips the first loop,
    which is the empty list here. *)
Definition checkDeviceTimeouts (now : Z) (activeSerials : list string)
    (w : Watchdog) : Watchdog * list Notification :=
  let '(w1, out1) := fold_left (keepAlive now) activeSerials (w, []) in
  let '(m2, out2) := timeoutPass w1 now (deviceStates w1) in
  (withStates w1 m2, out1 ++ out2).

Definition getAvailability (w : Watchdog) (serial : string) : bool :=
  match get (deviceStates w) serial with
  | Some state => isAvailable state
  | None => false
  end.

Definition forceUnavailable (serial : string) (w : Watchdog)
    : Watchdog * list Notification :=
  match get (deviceStates w) serial with
  | Some state =>
      if isAvailable state
      then (withStates w (mutate (setIsAvailable false) serial (deviceStates w)),
            notifyAvailabilityChange w serial false)
      else (w, [])
  | None => (w, [])
  end.

(** What happens to a running watchdog: a heartbeat, or a tick of the
    [setInterval] timer. Each carries the [Date.now()] it reads. *)
Inductive Call : Type :=
  | MarkSeen (now : Z) (serial : string)
  | Sweep (now : Z) (activeSerials : list string).

Definition step (c : Call) (w : Watchdog) : Watchdog * list Notification :=
  match c with
  | MarkSeen now serial => markSeen now serial w
  | Sweep now activeSerials => checkDeviceTimeouts now activeSerials w
  end.

Fixpoint run (cs : list Call) (w : Watchdog) : Watchdog * list Notification :=
  match cs with
  | [] => (w, [])
  | c :: cs' =>
      let '(w1, out1) := step c w in
      let '(w2, out2) := run cs' w1 in
      (w2, out1 ++ out2)
  end.

(** [getAllStates]: [Array.from(this.deviceStates.values())]. *)
Definition getAllStates (w : Watchdog) : list DeviceAvailabilityState :=
  snd <$> deviceStates w.

(** Calls with the manual override among them. *)
Inductive Event : Type :=
  | Seen (now : Z) (serial : string)
  | Tick (now : Z) (activeSerials : list string)
  | Forced (serial : string).

Definition react (e : Event) (w : Watchdog) : Watchdog * list Notification :=
  match e with
  | Seen now serial => markSeen now serial w
  | Tick now activeSerials => checkDeviceTimeouts now activeSerials w
  | Forced serial => forceUnavailable serial w
  end.

Fixpoint reactAll (es : list Event) (w : Watchdog) : Watchdog * list Notification :=
  match es with
  | [] => (w, [])
  | e :: es' =>
      let '(w1, out1) := react e w in
      let '(w2, out2) := reactAll es' w1 in
      (w2, out1 ++ out2)
  end.

End DeviceAvailabilityWatchdog.

(** The earlier watchdog variant, the second part of [MqttIntegration.ts]:
    no subscription manager, and its own constants. *)
Module LegacyWatchdog.
Import AvailabilityMap.

Definition TIMEOUT_MS : Z := 125000.
Definition CHECK_INTERVAL_MS : Z := 10000.

Fixpoint checkDeviceTimeouts (handler : bool) (now : Z) (m : AvailabilityMap.t)
    : AvailabilityMap.t * list Notification :=
  match m with
  | [] => ([], [])
  | (serial, state) :: m' =>
      let '(r, out) := checkDeviceTimeouts handler now m' in
      if negb (isAvailable state) then ((serial, state) :: r, out)
      else
        let timeSinceLastSeen := now - lastSeen state in
        if TIMEOUT_MS <? timeSinceLastSeen
        then ((serial, setIsAvailable false state) :: r,
              (if handler then [(serial, false)] else []) ++ out)
        else ((serial, state) :: r, out)
  end.

End LegacyWatchdog.

(** ** The SQLite object store ([SQLite3Service]) *)

(** The outcome of awaiting a promise. *)
Inductive Promise (A : Type) : Type :=
  | Resolved (a : A)
  | Pending.
Arguments Resolved {A} a.
Arguments Pending {A}.

Module SQLite3Service.

(** *** Tables

    The methods are modelled on an open connection: [getDb()] returned the
    database. The [value] column holds JSON text; a row carries the value
    that [JSON.parse] reads from it. A method that writes hands its
    statement to [db.run] and returns; its definition gives the table once
    that statement has run. *)

Record StateRow : Type := {
  row_serial : string;
  row_object_key : string;
  row_object_revision : Z;
  row_object_timestamp : Z;
  row_value : value;
  row_updatedAt : Z
}.

Record DeviceOwner : Type := {
  owner_userId : string;
  owner_serial : string;
  owner_createdAt : Z
}.

Record DeviceShare : Type := {
  share_ownerId : string;
  share_sharedWithUserId : string;
  share_serial : string;
  share_permissions : list string;
  share_createdAt : Z
}.

Record Database : Type := {
  states : list StateRow;
  deviceOwners : list DeviceOwner;
  deviceShares : list DeviceShare
}.

Definition withStates (db : Database) (rows : list StateRow) : Database :=
  {| states := rows; deviceOwners := deviceOwners db;
     deviceShares := deviceShares db |}.

(** What [getState] builds from the columns its query selects
    ([serial] and [updatedAt] are not among them). *)
Record DeviceObject : Type := {
  object_key : string;
  object_revision : Z;
  object_timestamp : Z;
  value : JS.value
}.

(** [WHERE serial = ? AND object_key = ?]. *)
Definition matches (serial objectKey : string) (r : StateRow) : bool :=
  bool_decide (row_serial r = serial) && bool_decide (row_object_key r = objectKey).

Definition rowObject (row : StateRow) : DeviceObject :=
  {| object_key := row_object_key row;
     object_revision := row_object_revision row;
     object_timestamp := row_object_timestamp row;
     value := row_value row |}.

(** [db.get]: the first row of the result. *)
Definition getState (db : Database) (serial objectKey : string)
    : option DeviceObject :=
  match filter (fun r => matches serial objectKey r = true) (states db) with
  | row :: _ => Some (rowObject row)
  | [] => None
  end.

(** [UPDATE states SET ... WHERE serial = ? and object_key = ?]. *)
Definition sqlUpdate (serial objectKey : string) (revision timestamp : Z)
    (json : JS.value) (now : Z) (rows : list StateRow) : list StateRow :=
  map (fun r =>
         if matches serial objectKey r
         then {| row_serial := row_serial r;
                 row_object_key := row_object_key r;
                 row_object_revision := revision;
                 row_object_timestamp := timestamp;
                 row_value := json;
                 row_updatedAt := now |}
         else r) rows.

(** [INSERT INTO states (...) VALUES (...)]. *)
Definition sqlInsert (serial objectKey : string) (revision timestamp : Z)
    (json : JS.value) (now : Z) (rows : list StateRow) : list StateRow :=
  rows ++ [ {| row_serial := serial;
               row_object_key := objectKey;
               row_object_revision := revision;
               row_object_timestamp := timestamp;
               row_value := json;
               row_updatedAt := now |} ].

(** A statement handed to [db.run]. The call that hands it over does not
    wait for it: the statement runs later, and other calls may read the
    table before it has. *)
Inductive Statement : Type :=
  | Update (serial objectKey : string) (revision timestamp : Z)
      (json : JS.value) (now : Z)
  | Insert (serial objectKey : string) (revision timestamp : Z)
      (json : JS.value) (now : Z).

Definition runStatement (st : Statement) (db : Database) : Database :=
  match st with
  | Update serial objectKey revision timestamp json now =>
      withStates db
        (sqlUpdate serial objectKey revision timestamp json now (states db))
  | Insert serial objectKey revision timestamp json now =>
      withStates db
        (sqlInsert serial objectKey revision timestamp json now (states db))
  end.

(** The statement [upsertState] hands to [db.run], built from the row the
    call reads in [db]. *)
Definition upsertStatement (now : Z) (db : Database) (serial objectKey : string)
    (revision timestamp : Z) (value : JS.value) : Statement :=
  match getState db serial objectKey with
  | Some currentState =>
      let mergedValue :=
        mergeValues (nullish (SQLite3Service.value currentState) (JObj ∅))
                    (nullish value (JObj ∅)) in
      Update serial objectKey revision timestamp (storedJson mergedValue) now
  | None =>
      Insert serial objectKey revision timestamp (storedJson value) now
  end.

(** The database once the statement of one [upsertState] call has run,
    no other statement having run since the call read [db]. *)
Definition upsertState (now : Z) (db : Database) (serial objectKey : string)
    (revision timestamp : Z) (value : JS.value) : Database :=
  runStatement (upsertStatement now db serial objectKey revision timestamp value)
    db.

(** The row of [(serial, objectKey)] as the table holds it, with the
    columns [getState] does not select. *)
Definition storedRow (db : Database) (serial objectKey : string)
    : option StateRow :=
  head (filter (fun r => matches serial objectKey r = true) (states db)).

(** [getAllStateForDevice]: a store [serial -> object_key -> object],
    built from every row of the result ([bucket = deviceState[serial] ||= {}]). *)
Definition bucketEntry (row : StateRow) : JS.value :=
  JObj {[ "object_key" := JStr (row_object_key row);
          "object_revision" := JNum (row_object_revision row);
          "object_timestamp" := JNum (row_object_timestamp row);
          "value" := row_value row;
          "updatedAt" := JNum (row_updatedAt row) ]}.

(** One turn of the loop:
    [const bucket = (deviceState[serial] ||= {}); bucket[row.object_key] = {...}].
    When [deviceState] has no own bucket for the serial and the serial is
    a name it inherits, the read finds the inherited object, which is
    truthy: no bucket is made and the entry is written onto that object,
    where later reads of an inherited name would find it. The model gives
    the own properties of the result and does not follow that write: it is
    exact for tables that hold no row under such a serial. *)
Definition bucketStep (deviceState : gmap string (gmap string JS.value))
    (row : StateRow) : gmap string (gmap string JS.value) :=
  let serial := row_serial row in
  match deviceState !! serial with
  | Some bucket =>
      <[serial := assign bucket (row_object_key row) (bucketEntry row)]>
        deviceState
  | None =>
      if inherited serial then deviceState
      else
        <[serial := assign ∅ (row_object_key row) (bucketEntry row)]>
          deviceState
  end.

Definition getAllStateForDevice (db : Database) (serial object_key : string)
    : gmap string (gmap string JS.value) :=
  fold_left bucketStep
    (filter (fun r => matches serial object_key r = true) (states db))
    ∅.

(** [getDeviceState]: every object of one device, by object key. *)
Definition deviceStateEntry (serial : string) (row : StateRow) : JS.value :=
  JObj {[ "serial" := JStr serial;
          "object_key" := JStr (row_object_key row);
          "object_revision" := JNum (row_object_revision row);
          "object_timestamp" := JNum (row_object_timestamp row);
          "value" := row_value row;
          "updatedAt" := JNum (row_updatedAt row) ]}.

Definition getDeviceState (db : Database) (serial : string)
    : gmap string JS.value :=
  fold_left
    (fun (deviceState : gmap string JS.value) row =>
       assign deviceState (row_object_key row) (deviceStateEntry serial row))
    (filter (fun r => row_serial r = serial) (states db))
    ∅.

(** [getAllState]: the store of every device. *)
Definition getAllState (db : Database) : gmap string (gmap string JS.value) :=
  fold_left bucketStep (states db) ∅.

(** [userId.replace(/^user_/, "")]. *)
Definition stripUserPrefix (userId : string) : string :=
  if String.prefix "user_" userId
  then String.substring 5 (String.length userId - 5) userId
  else userId.

Definition getDeviceOwner (db : Database) (serial : string) : option DeviceOwner :=
  head (filter (fun o => owner_serial o = serial) (deviceOwners db)).

Definition getOwnerDevices (db : Database) (userId : string) : list DeviceOwner :=
  let userId := stripUserPrefix userId in
  filter (fun o => owner_userId o = userId) (deviceOwners db).

Definition listUserDevices (db : Database) (userId : string) : list string :=
  map owner_serial (filter (fun o => owner_userId o = userId) (deviceOwners db)).

(** The promise is resolved only inside [if (row)]: without a matching row
    it stays pending. *)
Definition getDeviceSharedWithMe (db : Database) (userId serial : string)
    : Promise (string * list string) :=
  match filter (fun s => share_serial s = serial /\ share_sharedWithUserId s = userId)
               (deviceShares db) with
  | row :: _ => Resolved (share_serial row, share_permissions row)
  | [] => Pending
  end.

Definition getSharedWithMe (db : Database) (userId : string)
    : list (string * list string) :=
  map (fun s => (share_serial s, share_permissions s))
      (filter (fun s => share_sharedWithUserId s = userId) (deviceShares db)).

(** *** API-key permission check *)

Record APIKeyPermissions : Type := {
  serials : list string;
  scopes : list string
}.

Definition includes (l : list string) (x : string) : bool :=
  bool_decide (x ∈ l).

Definition checkApiKeyPermission (db : Database) (userId serial : string)
    (requiredScopes : list string) (permissions : APIKeyPermissions)
    : Promise bool :=
  if (0 <? Z.of_nat (length (serials permissions)))
     && includes (serials permissions) serial
  then Resolved false
  else
    let owned :=
      match getDeviceOwner db serial with
      | Some ownership => bool_decide (owner_userId ownership = userId)
      | None => false
      end in
    if owned
    then Resolved (forallb (fun scope => includes (scopes permissions) scope)
                           requiredScopes)
    else
      match getDeviceSharedWithMe db userId serial with
      | Pending => Pending
      | Resolved (_, sharePermissions) =>
          let hasSharePermissions :=
            forallb (fun scope =>
                       if bool_decide (scope = "read") then true
                       else if bool_decide (scope = "write")
                               || bool_decide (scope = "control")
                       then includes sharePermissions "control"
                       else false) requiredScopes in
          let hasKeyScope :=
            forallb (fun scope => includes (scopes permissions) scope)
                    requiredScopes in
          Resolved (hasSharePermissions && hasKeyScope)
      end.

(** *** Cross-device away reconciler *)

Section AwayStatus.

(** Conversions of the language that the reconciler applies to values of
    type [any]. The numeric value of a string or of an array and the
    string of a value are left to the runtime; [None] is [NaN]. *)
Variable StringToNumber : string -> option Z.
Variable ArrayToNumber : list JS.value -> option Z.
Variable ToString : JS.value -> string.

(** [Boolean(v)]. *)
Definition toBoolean (v : JS.value) : bool :=
  match v with
  | JUndef | JNull => false
  | JBool b => b
  | JNum n => negb (n =? 0)
  | JStr s => negb (bool_decide (s = ""))
  | JArr _ | JObj _ => true
  end.

(** [Number(v)]. *)
Definition toNumber (v : JS.value) : option Z :=
  match v with
  | JUndef => None
  | JNull => Some 0
  | JBool b => Some (if b then 1 else 0)
  | JNum n => Some n
  | JStr s => StringToNumber s
  | JArr l => ArrayToNumber l
  | JObj _ => None
  end.

(** [Number(v) || 0]. *)
Definition numberOrZero (v : JS.value) : Z :=
  match toNumber v with
  | Some n => n
  | None => 0
  end.

(** [store.k] on what [getAllStateForDevice] returned. *)
Definition storeGet (store : gmap string (gmap string JS.value)) (k : string)
    : JS.value :=
  match store !! k with
  | Some bucket => JObj bucket
  | None => JUndef
  end.

(** The [let] variables of the first loop. *)
Record AwayScan : Type := {
  allAway : bool;
  anyDeviceReported : bool;
  mostRecentAwayTimestamp : Z;
  mostRecentAwaySetter : option string;
  hasVacationMode : bool;
  mostRecentManualAwayTimestamp : Z
}.

Definition initialScan : AwayScan :=
  {| allAway := true; anyDeviceReported := false;
     mostRecentAwayTimestamp := 0; mostRecentAwaySetter := None;
     hasVacationMode := false; mostRecentManualAwayTimestamp := 0 |}.

(** [for (const deviceOwner of ownedDevices)] with its [break]. *)
Fixpoint scanDevices (db : Database) (ownedDevices : list DeviceOwner)
    (acc : AwayScan) : AwayScan :=
  match ownedDevices with
  | [] => acc
  | deviceOwner :: rest =>
      let deviceKey := "device." +:+ owner_serial deviceOwner in
      let deviceState := getAllStateForDevice db (owner_serial deviceOwner) deviceKey in
      match deviceState !! "value" with
      | None => scanDevices db rest acc
      | Some deviceValue =>
          let away := toBoolean (get deviceValue "away") in
          let awayTimestamp := numberOrZero (get deviceValue "away_timestamp") in
          let awaySetter := ToString (get deviceValue "away_setter") in
          let vacationMode := toBoolean (get deviceValue "vacation_mode") in
          let manualAwayTimestamp :=
            numberOrZero (get deviceValue "manual_away_timestamp") in
          let manualNewer := mostRecentManualAwayTimestamp acc <? manualAwayTimestamp in
          let acc1 :=
            {| allAway := allAway acc;
               anyDeviceReported := true;
               mostRecentAwayTimestamp :=
                 if mostRecentAwayTimestamp acc <? awayTimestamp
                 then awayTimestamp else mostRecentAwayTimestamp acc;
               mostRecentAwaySetter :=
                 if manualNewer then Some awaySetter else mostRecentAwaySetter acc;
               hasVacationMode := vacationMode || hasVacationMode acc;
               mostRecentManualAwayTimestamp :=
                 if manualNewer then manualAwayTimestamp
                 else mostRecentManualAwayTimestamp acc |} in
          if negb away
          then {| allAway := false;
                  anyDeviceReported := anyDeviceReported acc1;
                  mostRecentAwayTimestamp := mostRecentAwayTimestamp acc1;
                  mostRecentAwaySetter := mostRecentAwaySetter acc1;
                  hasVacationMode := hasVacationMode acc1;
                  mostRecentManualAwayTimestamp := mostRecentManualAwayTimestamp acc1 |}
          else scanDevices db rest acc1
      end
  end.

(** The object written as [user.«userId»]. *)
Definition awayUserValue (scan : AwayScan) (userAway : bool)
    (currentValue : gmap string JS.value) : gmap string JS.value :=
  let v0 := spread currentValue
              {[ "away" := JBool userAway;
                 "vacation_mode" := JBool (hasVacationMode scan) ]} in
  let v1 := if 0 <? mostRecentAwayTimestamp scan
            then <["away_timestamp" := JNum (mostRecentAwayTimestamp scan)]> v0
            else v0 in
  let v2 := match mostRecentAwaySetter scan with
            | Some setter => <["away_setter" := JStr setter]> v1
            | None => v1
            end in
  if 0 <? mostRecentManualAwayTimestamp scan
  then <["manual_away_timestamp" := JNum (mostRecentManualAwayTimestamp scan)]> v2
  else v2.

(** The second loop: one [upsertState] per owned device. *)
Fixpoint writeUserState (nowMs : Z) (userId : string) (scan : AwayScan)
    (userAway : bool) (ownedDevices : list DeviceOwner) (db : Database)
    : Database :=
  match ownedDevices with
  | [] => db
  | deviceOwner :: rest =>
      let userStateKey := "user." +:+ userId in
      let existingUserState :=
        getAllStateForDevice db (owner_serial deviceOwner) userStateKey in
      (* [if (existingUserState)]: an object, always truthy *)
      let currentValue := default ∅ (existingUserState !! "value") in
      let updatedValue := awayUserValue scan userAway currentValue in
      let db1 :=
        upsertState nowMs db (owner_serial deviceOwner) userStateKey
          (numberOrZero (storeGet existingUserState "object_revision") + 1)
          nowMs (JObj updatedValue) in
      writeUserState nowMs userId scan userAway rest db1
  end.

Definition updateUserAwayStatus (nowMs : Z) (db : Database) (userId : string)
    : Database :=
  let userId := stripUserPrefix userId in
  let ownedDevices := getOwnerDevices db userId in
  if bool_decide (length ownedDevices = 0%nat) then db
  else
    let scan := scanDevices db ownedDevices initialScan in
    let userAway := if anyDeviceReported scan then allAway scan else false in
    writeUserState nowMs userId scan userAway ownedDevices db.

End AwayStatus.

(** *** Pairing defaults *)

(** A row of [users]; [email] is a nullable column. *)
Record UserInfo : Type := {
  user_clerkId : string;
  user_email : option string;
  user_createdAt : Z
}.

Definition getUserInfo (users : list UserInfo) (clerkId : string)
    : option UserInfo :=
  head (filter (fun u => user_clerkId u = clerkId) users).

Definition dialogValue : JS.value :=
  JObj {[ "dialog_data" := JStr ""; "dialog_id" := JStr "confirm-pairing" ]}.

Definition defaultUserState (userEmail structureId : string) : JS.value :=
  JObj {[ "acknowledged_onboarding_screens" := JArr [JStr "rcs"];
          "email" := JStr userEmail;
          "name" := JStr "";
          "obsidian_version" := JStr "5.58rc3";
          "profile_image_url" := JStr "";
          "short_name" := JStr "";
          "structures" := JArr [JStr structureId];
          "structure_memberships" :=
            JArr [JObj {[ "structure" := JStr structureId;
                          "roles" := JArr [JStr "owner"] ]}] ]}.

(** The statements [ensureDeviceAlertDialog] hands to [db.run], made on a
    database [db] with no statement waiting. Its second read comes after
    its first statement was handed over, before or after that statement
    has run; the two are about different keys, so the read finds the same
    either way. *)
Definition ensureDeviceAlertDialogStatements (nowMs : Z) (users : list UserInfo)
    (db : Database) (serial : string) : list Statement :=
  match getDeviceOwner db serial with
  | None => []
  | Some deviceOwner =>
      let userInfo := getUserInfo users (owner_userId deviceOwner) in
      let userEmail :=
        match userInfo with
        | Some info => default "" (user_email info)
        | None => ""
        end in
      let userId := stripUserPrefix (owner_userId deviceOwner) in
      let userStateKey := "user." +:+ userId in
      let structureId := "structure." +:+ userId in
      let alertDialogKey := "device_alert_dialog." +:+ serial in
      match getState db serial alertDialogKey with
      | None =>
          [ upsertStatement nowMs db serial alertDialogKey 1 nowMs dialogValue ]
      | Some _ => []
      end
      ++
      match getState db serial userStateKey with
      | None =>
          [ upsertStatement nowMs db serial userStateKey 1 nowMs
              (defaultUserState userEmail structureId) ]
      | Some _ => []
      end
  end.

(** The database once the statements of the call have run. *)
Definition ensureDeviceAlertDialog (nowMs : Z) (users : list UserInfo)
    (db : Database) (serial : string) : Database :=
  fold_left (fun d st => runStatement st d)
    (ensureDeviceAlertDialogStatements nowMs users db serial) db.

(** *** The weather cache

    The table [weather] has its own methods and takes no part in the ones
    above; it is passed on its own. [weather_data] is the value the TEXT
    column [data] denotes. *)

Record WeatherRow : Type := {
  weather_postalCode : string;
  weather_country : string;
  weather_fetchedAt : Z;
  weather_data : JS.value
}.

Record StateWeatherCache : Type := {
  cache_data : JS.value;
  cache_fetchedAt : Z
}.

(** [WHERE postalCode = ? AND country = ?]. *)
Definition weatherMatches (postalCode country : string) (r : WeatherRow) : bool :=
  bool_decide (weather_postalCode r = postalCode)
  && bool_decide (weather_country r = country).

Definition getWeather (rows : list WeatherRow) (postalCode country : string)
    : option StateWeatherCache :=
  match filter (fun r => weatherMatches postalCode country r = true) rows with
  | row :: _ =>
      Some {| cache_data := weather_data row;
              cache_fetchedAt := weather_fetchedAt row |}
  | [] => None
  end.

(** The statements of [upsertWeather], handed to [db.run] and not waited
    for. *)
Inductive WeatherStatement : Type :=
  | WeatherUpdate (postalCode country : string) (fetchedAt : Z) (json : JS.value)
  | WeatherInsert (postalCode country : string) (fetchedAt : Z) (json : JS.value).

Definition runWeatherStatement (st : WeatherStatement) (rows : list WeatherRow)
    : list WeatherRow :=
  match st with
  | WeatherUpdate postalCode country fetchedAt json =>
      (* UPDATE weather SET fetchedAt = ?, data = ?
         WHERE postalCode = ? AND country = ? *)
      map (fun r =>
             if weatherMatches postalCode country r
             then {| weather_postalCode := weather_postalCode r;
                     weather_country := weather_country r;
                     weather_fetchedAt := fetchedAt;
                     weather_data := json |}
             else r) rows
  | WeatherInsert postalCode country fetchedAt json =>
      (* INSERT INTO weather (postalCode, country, fetchedAt, data) *)
      rows ++ [ {| weather_postalCode := postalCode;
                   weather_country := country;
                   weather_fetchedAt := fetchedAt;
                   weather_data := json |} ]
  end.

(** The statement a call hands over, built from the table it reads. *)
Definition upsertWeatherStatement (rows : list WeatherRow)
    (postalCode country : string) (fetchedAt : Z) (data : JS.value)
    : WeatherStatement :=
  match getWeather rows postalCode country with
  | Some _ => WeatherUpdate postalCode country fetchedAt (storedJson data)
  | None => WeatherInsert postalCode country fetchedAt (storedJson data)
  end.

(** The table once the statement of one call has run, no other statement
    having run since the call read [rows]. *)
Definition upsertWeather (rows : list WeatherRow) (postalCode country : string)
    (fetchedAt : Z) (data : JS.value) : list WeatherRow :=
  runWeatherStatement
    (upsertWeatherStatement rows postalCode country fetchedAt data) rows.

(** *** Pairing codes

    The table [entryKeys], passed on its own. [claimedBy] and [claimedAt]
    are [None] for SQL NULL; every row has its [expiresAt]. The statements
    take effect in the order the method issues them: the [DELETE] before
    the look-ups, the [INSERT] after them. *)

Record EntryKeyRow : Type := {
  entry_code : string;
  entry_serial : string;
  entry_createdAt : Z;
  entry_expiresAt : Z;
  entry_claimedBy : option Z;
  entry_claimedAt : option Z
}.

Record StateEntryKey : Type := {
  key_code : string;
  key_expiresAt : Z
}.

(** [SELECT ... FROM entryKeys where code = ?] through [db.get]: the first
    row. *)
Definition entryKeyByCode (rows : list EntryKeyRow) (code : string)
    : option EntryKeyRow :=
  head (filter (fun r => entry_code r = code) rows).

(** [!codeDoc.claimedBy]: NULL and 0 are falsy. *)
Definition unclaimed (r : EntryKeyRow) : bool :=
  match entry_claimedBy r with
  | None => true
  | Some n => n =? 0
  end.

(** The [while (attempts < 20)] loop. [draw n] is the code built from
    [Math.random] in turn [n] of the loop; [remaining] counts the turns
    left. The result is the variable [code] after the loop: [None] for
    [undefined]. *)
Fixpoint allocateCode (draw : nat -> string) (nowMs : Z)
    (rows : list EntryKeyRow) (remaining attempts : nat) : option string :=
  match remaining with
  | O => None
  | S remaining' =>
      let code := draw attempts in
      match entryKeyByCode rows code with
      | None => Some code
      | Some codeDoc =>
          let expired := entry_expiresAt codeDoc <? nowMs in
          if expired && unclaimed codeDoc then Some code
          else allocateCode draw nowMs rows remaining' (S attempts)
      end
  end.

(** [generateEntryKey]: the table afterwards and the result, [None] for
    [null]. The [codeDoc] the loop looks at is declared inside the loop;
    the one tested after the loop is the outer variable, which is never
    assigned, so the row is always inserted. *)
Definition generateEntryKey (draw : nat -> string) (nowMs : Z)
    (rows : list EntryKeyRow) (serial : string) (ttlSeconds : option Z)
    : list EntryKeyRow * option StateEntryKey :=
  let ttl := default 3600 ttlSeconds in
  let expiresAt := nowMs + ttl * 1000 in
  (* DELETE FROM entryKeys WHERE serial = ? *)
  let rows1 := filter (fun r => entry_serial r <> serial) rows in
  match allocateCode draw nowMs rows1 20 0 with
  | None => (rows1, None)
  | Some code =>
      if bool_decide (code = "") then (rows1, None)
      else
        (rows1 ++ [ {| entry_code := code;
                       entry_serial := serial;
                       entry_createdAt := nowMs;
                       entry_expiresAt := expiresAt;
                       entry_claimedBy := None;
                       entry_claimedAt := None |} ],
         Some {| key_code := code; key_expiresAt := expiresAt |})
  end.

End SQLite3Service.

(** ** MQTT command ingestion ([MqttIntegration]) *)

(** String helpers of the language used by the handlers. *)
Module Str.

(** [s.startsWith(p)], returning what follows [p]. *)
Fixpoint stripPrefix (p s : string) : option string :=
  match p, s with
  | EmptyString, _ => Some s
  | String a p', String b s' =>
      if Ascii.eqb a b then stripPrefix p' s' else None
  | String _ _, EmptyString => None
  end.

(** [s.includes(sub)]. *)
Fixpoint includes (s sub : string) : bool :=
  match stripPrefix sub s with
  | Some _ => true
  | None =>
      match s with
      | EmptyString => false
      | String _ s' => includes s' sub
      end
  end.

(** [s.endsWith(suf)], returning what precedes [suf]. *)
Fixpoint stripSuffix (suf s : string) : option string :=
  if String.eqb s suf then Some EmptyString
  else
    match s with
    | EmptyString => None
    | String c s' =>
        match stripSuffix suf s' with
        | Some r => Some (String c r)
        | None => None
        end
    end.

Definition endsWith (s suf : string) : bool :=
  match stripSuffix suf s with
  | Some _ => true
  | None => false
  end.

(** The longest prefix without ["/"] and what follows the first ["/"]. *)
Fixpoint splitAtSlash (s : string) : option (string * string) :=
  match s with
  | EmptyString => None
  | String c s' =>
      if Ascii.eqb c "/"%char then Some (EmptyString, s')
      else match splitAtSlash s' with
           | Some (a, b) => Some (String c a, b)
           | None => None
           end
  end.

(** No ["/"] in [s]. *)
Fixpoint noSlash (s : string) : bool :=
  match s with
  | EmptyString => true
  | String c s' => negb (Ascii.eqb c "/"%char) && noSlash s'
  end.

(** A line terminator, which [.] of a regular expression does not match:
    LF, CR, and U+2028, U+2029 in their UTF-8 encoding. *)
Definition hasLineTerminator (s : string) : bool :=
  includes s (String (Ascii.ascii_of_nat 10) EmptyString)
  || includes s (String (Ascii.ascii_of_nat 13) EmptyString)
  || includes s (String (Ascii.ascii_of_nat 226)
                  (String (Ascii.ascii_of_nat 128)
                    (String (Ascii.ascii_of_nat 168) EmptyString)))
  || includes s (String (Ascii.ascii_of_nat 226)
                  (String (Ascii.ascii_of_nat 128)
                    (String (Ascii.ascii_of_nat 169) EmptyString))).

End Str.

Module MqttIntegration.
Import SQLite3Service.

(** What a handler asks of its collaborators, in call order. *)
Inductive Action : Type :=
  | Upsert (serial objectKey : string) (revision timestamp : Z) (value : JS.value)
  | Notify (serial objectKey : string)
  | PublishHomeAssistantState (serial : string).

(** [{ ...v }] of a stored object value. *)
Definition asObject (v : JS.value) : gmap string JS.value :=
  match v with
  | JObj m => m
  | _ => ∅
  end.

(** The match of
    [^«prefix»/([^/]+)/ha/(.+)/set$] (the prefix escaped, hence literal):
    the captured serial and command. *)
Definition matchHaTopic (prefix topic : string) : option (string * string) :=
  match Str.stripPrefix (prefix +:+ "/") topic with
  | None => None
  | Some rest =>
      match Str.splitAtSlash rest with
      | None => None
      | Some (serial, rest2) =>
          match Str.stripPrefix "ha/" rest2 with
          | None => None
          | Some rest3 =>
              match Str.stripSuffix "/set" rest3 with
              | None => None
              | Some command =>
                  if bool_decide (serial = "") || bool_decide (command = "")
                     || Str.hasLineTerminator command
                  then None
                  else Some (serial, command)
              end
          end
      end
  end.

Section Handlers.

(** Collaborators whose code is outside the modelled files. A handler
    reads [Date.now()] as one instant [now]; [None] of [JSON_parse] and of
    [validateTemperature] is a thrown exception, [None] of [parseFloat] is
    [NaN]. *)
Variable parseCommandTopic : string -> string -> option (string * string * string).
Variable JSON_parse : string -> option JS.value.
Variable parseFloat : string -> option JS.value.
Variable trim : string -> string.
Variable haModeToNest : string -> JS.value.
Variable validateTemperature : option JS.value -> JS.value -> option JS.value.

(** The fields of the integration the handlers read. *)
Variable topicPrefix : string.
Variable userDeviceSerials : gset string.

(** [deviceState.get(serial, objectKey)]. *)
Variable deviceStateGet : string -> string -> option DeviceObject.

Definition updateSharedValue (now : Z) (serial : string)
    (currentObj : DeviceObject) (field : string) (v : JS.value) : list Action :=
  let objectKey := "shared." +:+ serial in
  let newValue := <[field := v]> (asObject (value currentObj)) in
  let newRevision := object_revision currentObj + 1 in
  [ Upsert serial objectKey newRevision now (JObj newValue);
    Notify serial objectKey ].

Definition updateDeviceValue (now : Z) (serial : string)
    (currentObj : DeviceObject) (field : string) (v : JS.value) : list Action :=
  let objectKey := "device." +:+ serial in
  let newValue := <[field := v]> (asObject (value currentObj)) in
  let newRevision := object_revision currentObj + 1 in
  [ Upsert serial objectKey newRevision now (JObj newValue);
    Notify serial objectKey ].

Definition updateDeviceFields (now : Z) (serial : string)
    (currentObj : DeviceObject) (fields : gmap string JS.value) : list Action :=
  let objectKey := "device." +:+ serial in
  let newValue := spread (asObject (value currentObj)) fields in
  let newRevision := object_revision currentObj + 1 in
  [ Upsert serial objectKey newRevision now (JObj newValue);
    Notify serial objectKey ].

(** The [switch (command)]: the calls it makes, and whether it ran to its
    end ([false]: an exception left the [try] block). *)
Definition haCommandActions (now : Z) (serial command valueStr : string)
    (deviceObj sharedObj : DeviceObject) : list Action * bool :=
  let temperature field :=
    match validateTemperature (parseFloat valueStr) (value sharedObj) with
    | Some tempC => (updateSharedValue now serial sharedObj field tempC, true)
    | None => ([], false)
    end in
  if bool_decide (command = "mode") then
    (updateSharedValue now serial sharedObj "target_temperature_type"
       (haModeToNest valueStr), true)
  else if bool_decide (command = "target_temperature") then
    temperature "target_temperature"
  else if bool_decide (command = "target_temperature_low") then
    temperature "target_temperature_low"
  else if bool_decide (command = "target_temperature_high") then
    temperature "target_temperature_high"
  else if bool_decide (command = "fan_mode") then
    if bool_decide (valueStr = "on") then
      let timeoutTimestamp := now / 1000 + 3600 in
      (updateDeviceFields now serial deviceObj
         {[ "fan_control_state" := JBool true;
            "fan_timer_active" := JBool true;
            "fan_timer_timeout" := JNum timeoutTimestamp ]}, true)
    else
      (updateDeviceFields now serial deviceObj
         {[ "fan_control_state" := JBool false;
            "fan_timer_active" := JBool false;
            "fan_timer_timeout" := JNum 0 ]}, true)
  else if bool_decide (command = "preset") then
    if bool_decide (valueStr = "away") then
      (updateDeviceValue now serial deviceObj "auto_away" (JNum 2)
       ++ updateDeviceValue now serial deviceObj "away" (JBool true), true)
    else if bool_decide (valueStr = "home") then
      (updateDeviceValue now serial deviceObj "auto_away" (JNum 0)
       ++ updateDeviceValue now serial deviceObj "away" (JBool false), true)
    else if bool_decide (valueStr = "eco") then
      (updateDeviceValue now serial deviceObj "eco"
         (JObj {[ "mode" := JStr "manual-eco"; "leaf" := JBool true ]}), true)
    else ([], true)
  else ([], true).

Definition handleHomeAssistantCommand (now : Z) (topic message : string)
    : list Action :=
  let valueStr := trim message in
  match matchHaTopic topicPrefix topic with
  | None => []
  | Some (serial, command) =>
      if negb (bool_decide (serial ∈ userDeviceSerials)) then []
      else
        match deviceStateGet serial ("device." +:+ serial),
              deviceStateGet serial ("shared." +:+ serial) with
        | Some deviceObj, Some sharedObj =>
            let '(actions, completed) :=
              haCommandActions now serial command valueStr deviceObj sharedObj in
            if completed then actions ++ [PublishHomeAssistantState serial]
            else actions
        | _, _ => []
        end
  end.

Definition handleCommand (now : Z) (topic message : string) : list Action :=
  if Str.includes topic "/ha/" && Str.endsWith topic "/set"
  then handleHomeAssistantCommand now topic message
  else
    match parseCommandTopic topic topicPrefix with
    | None => []
    | Some (serial, objectType, field) =>
        if negb (bool_decide (serial ∈ userDeviceSerials)) then []
        else
          let valueStr := message in
          let v :=
            match JSON_parse valueStr with
            | Some parsed => parsed
            | None =>
                match parseFloat valueStr with
                | Some num => num
                | None => JStr valueStr
                end
            end in
          let objectKey := objectType +:+ "." +:+ serial in
          match deviceStateGet serial objectKey with
          | None => []
          | Some currentObj =>
              let newValue := <[field := v]> (asObject (value currentObj)) in
              let newRevision := object_revision currentObj + 1 in
              [ Upsert serial objectKey newRevision now (JObj newValue) ]
          end
    end.

End Handlers.

(** [loadUserDevices]: owned and shared serials. *)
Definition loadUserDevices (db : Database) (userId : string) : gset string :=
  list_to_set (listUserDevices db userId ++ map fst (getSharedWithMe db userId)).

(** The store after the upserts of a handler went through
    [SQLite3Service.upsertState]. *)
Fixpoint applyActions (now : Z) (actions : list Action) (db : Database)
    : Database :=
  match actions with
  | [] => db
  | Upsert serial objectKey revision timestamp v :: rest =>
      applyActions now rest
        (upsertState now db serial objectKey revision timestamp v)
  | _ :: rest => applyActions now rest db
  end.

(** The device an action concerns. *)
Definition actionSerial (a : Action) : string :=
  match a with
  | Upsert serial _ _ _ _ => serial
  | Notify serial _ => serial
  | PublishHomeAssistantState serial => serial
  end.

(** *** Device-set reconciliation

    [userDeviceSerials] is kept here with its insertion order, which is the
    order the loops visit it in. A publication is taken to reach the
    broker: a rejected one would end the method at that point, in its
    [catch]. *)

(** A JavaScript [Set] of strings: its elements in insertion order. *)
Definition setHas (l : list string) (x : string) : bool := bool_decide (x ∈ l).

Definition setAdd (l : list string) (x : string) : list string :=
  if setHas l x then l else l ++ [x].

Definition setDelete (l : list string) (x : string) : list string :=
  filter (fun y => y <> x) l.

(** What the reconciliation publishes, in order. *)
Inductive Publication : Type :=
  | PublishAvailability (serial : string) (online : bool)
  | RemoveDeviceDiscovery (serial : string)
  | PublishThermostatDiscovery (serial : string)
  | PublishHAState (serial : string).

(** The fields of the integration the reconciliation reads and writes;
    [hasClient] is [this.client !== null]. *)
Record Integration : Type := {
  deviceSerials : list string;
  isReady : bool;
  hasClient : bool;
  homeAssistantDiscovery : bool
}.

Definition withSerials (i : Integration) (l : list string) : Integration :=
  {| deviceSerials := l; isReady := isReady i; hasClient := hasClient i;
     homeAssistantDiscovery := homeAssistantDiscovery i |}.

Definition publishAvailability (i : Integration) (serial : string)
    (online : bool) : list Publication :=
  if hasClient i then [PublishAvailability serial online] else [].

Definition handleDeviceRemoved (i : Integration) (serial : string)
    : Integration * list Publication :=
  (withSerials i (setDelete (deviceSerials i) serial),
   publishAvailability i serial false
   ++ (if homeAssistantDiscovery i && hasClient i
       then [RemoveDeviceDiscovery serial] else [])).

(** The serials of owned devices, then of shared ones, added to a fresh
    [Set]. *)
Definition currentSerials (db : Database) (userId : string) : list string :=
  fold_left setAdd (listUserDevices db userId ++ map fst (getSharedWithMe db userId)) [].

(** One turn of "detect removed devices". *)
Definition dropIfRemoved (current : list string)
    (acc : Integration * list Publication) (serial : string)
    : Integration * list Publication :=
  let '(i, out) := acc in
  if negb (setHas current serial)
  then let '(i1, out1) := handleDeviceRemoved i serial in (i1, out ++ out1)
  else (i, out).

(** One turn of "detect added devices". *)
Definition addIfNew (acc : Integration * list Publication) (serial : string)
    : Integration * list Publication :=
  let '(i, out) := acc in
  if negb (setHas (deviceSerials i) serial)
  then
    let i1 := withSerials i (setAdd (deviceSerials i) serial) in
    if homeAssistantDiscovery i && hasClient i
    then (i1, out ++ [ PublishThermostatDiscovery serial;
                       PublishHAState serial ]
                  ++ publishAvailability i serial true)
    else (i1, out)
  else (i, out).

Definition checkForDeviceChanges (db : Database) (userId : string)
    (i : Integration) : Integration * list Publication :=
  if negb (isReady i) then (i, [])
  else
    let current := currentSerials db userId in
    let afterRemoval :=
      fold_left (dropIfRemoved current) (deviceSerials i) (i, []) in
    fold_left addIfNew current afterRemoval.

(** The device a publication is about. *)
Definition publicationSerial (p : Publication) : string :=
  match p with
  | PublishAvailability serial _ => serial
  | RemoveDeviceDiscovery serial => serial
  | PublishThermostatDiscovery serial => serial
  | PublishHAState serial => serial
  end.

(** Publications that take a device away, and publications that announce
    one. *)
Definition isFarewell (p : Publication) : bool :=
  match p with
  | PublishAvailability _ false | RemoveDeviceDiscovery _ => true
  | _ => false
  end.

(** [onDeviceConnected] and [onDeviceDisconnected]. *)
Definition onDeviceConnected (i : Integration) (serial : string)
    : list Publication :=
  if negb (setHas (deviceSerials i) serial) then []
  else publishAvailability i serial true.

Definition onDeviceDisconnected (i : Integration) (serial : string)
    : list Publication :=
  if negb (setHas (deviceSerials i) serial) then []
  else publishAvailability i serial false.

(** [shutdown]: with a client, every served device is published offline
    and the client is dropped; the integration is no longer ready. The
    device set is kept. *)
Definition shutdown (i : Integration) : Integration * list Publication :=
  let out :=
    if hasClient i
    then flat_map (fun serial => publishAvailability i serial false)
           (deviceSerials i)
    else [] in
  ({| deviceSerials := deviceSerials i; isReady := false; hasClient := false;
      homeAssistantDiscovery := homeAssistantDiscovery i |}, out).

(** What reaches an integration after its start: the ten-second poll,
    which reads the database as it is then, the connection events of the
    base class, and the shutdown. *)
Inductive Event : Type :=
  | Polled (db : Database)
  | Connected (serial : string)
  | Disconnected (serial : string)
  | ShutDown.

Definition handle (userId : string) (e : Event) (i : Integration)
    : Integration * list Publication :=
  match e with
  | Polled db => checkForDeviceChanges db userId i
  | Connected serial => (i, onDeviceConnected i serial)
  | Disconnected serial => (i, onDeviceDisconnected i serial)
  | ShutDown => shutdown i
  end.

Fixpoint handleAll (userId : string) (es : list Event) (i : Integration)
    : Integration * list Publication :=
  match es with
  | [] => (i, [])
  | e :: es' =>
      let '(i1, out1) := handle userId e i in
      let '(i2, out2) := handleAll userId es' i1 in
      (i2, out1 ++ out2)
  end.

(** The databases the polls of a run read. *)
Fixpoint polledDatabases (es : list Event) : list Database :=
  match es with
  | [] => []
  | Polled db :: es' => db :: polledDatabases es'
  | _ :: es' => polledDatabases es'
  end.

End MqttIntegration.

(** ** The status route of the frontend ([route.ts]) *)

Module StatusRoute.

Record StateResponse : Type := {
  devices : list string;
  deviceState : gmap string (gmap string JS.value)
}.

Definition emptyState : StateResponse :=
  {| devices := []; deviceState := ∅ |}.

(** [Boolean(v)], the test of [!v] and [a && b]. *)
Definition truthy (v : JS.value) : bool :=
  match v with
  | JUndef | JNull => false
  | JBool b => b
  | JNum n => negb (n =? 0)
  | JStr s => negb (bool_decide (s = ""))
  | JArr _ | JObj _ => true
  end.

(** [Object.entries(v)]: the own enumerable properties. An array and a
    string have their indices, written in decimal; a string is read as
    the sequence of its code units. *)
Definition entries (v : JS.value) : list (string * JS.value) :=
  match v with
  | JObj m => map_to_list m
  | JArr l => imap (fun (i : nat) x => (pretty i, x)) l
  | JStr s =>
      imap (fun (i : nat) c => (pretty i, JStr (String c EmptyString)))
        (list_ascii_of_string s)
  | _ => []
  end.

(** [v[k]] on a value that is neither [null] nor [undefined]: an own
    property, or [undefined]. What a value inherits are methods and
    prototype objects, which have no entries: read as [undefined] they
    add to no result below. *)
Definition member (v : JS.value) (k : string) : JS.value :=
  let indexed :=
    default JUndef (snd <$> head (filter (fun kv => kv.1 = k) (entries v))) in
  match v with
  | JObj m => get m k
  | JArr l =>
      if bool_decide (k = "length") then JNum (Z.of_nat (length l)) else indexed
  | JStr s =>
      if bool_decide (k = "length") then JNum (Z.of_nat (String.length s))
      else indexed
  | _ => JUndef
  end.

Definition allowedPrefixes : list string :=
  ["user."; "device."; "shared."; "schedule."; "structure."].

(** [allowedPrefixes.some(prefix => key.startsWith(prefix))]. *)
Definition allowedKey (key : string) : bool :=
  existsb (fun prefix => String.prefix prefix key) allowedPrefixes.

(** The inner loop: [serialState] after the entries of one device. *)
Definition serialStateOf (v : JS.value) : gmap string JS.value :=
  fold_left
    (fun (serialState : gmap string JS.value) '(key, value) =>
       if allowedKey key then <[key := value]> serialState else serialState)
    (entries v) ∅.

(** One turn of the outer loop. [filteredState[serial] = serialState] is
    an assignment: at the serial [__proto__] it gives [filteredState] no
    own property, while [filteredDevices.push(serial)] still lists the
    serial. The maps hold the own properties, which are what the response
    sent as JSON holds. *)
Definition filterStep (data : JS.value) (acc : StateResponse)
    (serial : string) : StateResponse :=
  let deviceStates := member data "deviceState" in
  if truthy deviceStates && truthy (member deviceStates serial) then
    let serialState := serialStateOf (member deviceStates serial) in
    (* Object.keys(serialState).length > 0 *)
    if (0 <? length (map_to_list serialState))%nat then
      {| devices := devices acc ++ [serial];
         deviceState := assign (deviceState acc) serial serialState |}
    else acc
  else acc.

Definition filterStateBySerials (data : JS.value) (serials : list string)
    : StateResponse :=
  if negb (truthy data) then emptyState
  else if (length serials =? 0)%nat then emptyState
  else fold_left (filterStep data) serials emptyState.

(** The response as the JSON value the route sends. *)
Definition responseValue (r : StateResponse) : JS.value :=
  JObj {[ "devices" := JArr (JStr <$> devices r);
          "deviceState" := JObj (JObj <$> deviceState r) ]}.

End StatusRoute.

(** * Vocabulary of the specification

    The predicates below follow the words of the specification; the
    properties compare them with the definitions taken from the code. *)

(** "Existing state has an active fan timer iff [fan_timer_timeout] is a
    number, is non-zero, and is strictly greater than [floor(now_ms/1000)]." *)
Definition activeFanTimer (now : Z) (existing : gmap string value) : Prop :=
  exists t : Z,
    existing !! "fan_timer_timeout" = Some (JNum t) /\ t <> 0 /\ now / 1000 < t.

(** "Incoming is an explicit fan-off iff it sets [fan_timer_timeout]
    literally to 0 or sets [fan_control_state] literally to false." *)
Definition explicitFanOff (incoming : gmap string value) : Prop :=
  incoming !! "fan_timer_timeout" = Some (JNum 0)
  \/ incoming !! "fan_control_state" = Some (JBool false).

(** The five fan-timer fields. *)
Definition fanTimerKeys : list string :=
  [ "fan_timer_timeout"; "fan_control_state"; "fan_timer_duration";
    "fan_current_speed"; "fan_mode" ].

(** ** Stores *)

(** The key of a row of [states]. *)
Definition rowKey (r : SQLite3Service.StateRow) : string * string :=
  (SQLite3Service.row_serial r, SQLite3Service.row_object_key r).

(** The table holds one row per [(serial, object_key)]. *)
Definition oneRowPerKey (db : SQLite3Service.Database) : Prop :=
  NoDup (rowKey <$> SQLite3Service.states db).

(** Every stored value is JSON-shaped. *)
Definition jsonStore (db : SQLite3Service.Database) : Prop :=
  Forall (fun r => jsonShaped (SQLite3Service.row_value r) = true)
         (SQLite3Service.states db).

(** A call of [upsertState], with the server time it reads. *)
Record Write : Type := {
  write_now : Z;
  write_serial : string;
  write_objectKey : string;
  write_revision : Z;
  write_timestamp : Z;
  write_value : JS.value
}.

(** The database once the statement of the call has run. *)
Definition applyWrite (db : SQLite3Service.Database) (w : Write)
    : SQLite3Service.Database :=
  SQLite3Service.upsertState (write_now w) db (write_serial w)
    (write_objectKey w) (write_revision w) (write_timestamp w) (write_value w).

(** The database after writes of which each has run before the next is
    made. *)
Definition applyWrites (ws : list Write) (db : SQLite3Service.Database)
    : SQLite3Service.Database :=
  fold_left applyWrite ws db.

(** A connection: the database, and the statements handed to [db.run] that
    have not run yet, oldest first. *)
Record Connection : Type := {
  database : SQLite3Service.Database;
  pending : list SQLite3Service.Statement
}.

Definition settled (db : SQLite3Service.Database) : Connection :=
  {| database := db; pending := [] |}.

(** What happens on a connection: a call of [upsertState], which reads the
    database as it is then and queues its statement, or the engine running
    one of the queued statements, whichever it picks. (The call queues its
    statement some time after its read; statements that run in between
    could as well run after the queueing, so read and queueing are one
    step.) *)
Inductive Step : Type :=
  | Call (w : Write)
  | Run (n : nat).

Definition step (c : Connection) (s : Step) : Connection :=
  match s with
  | Call w =>
      {| database := database c;
         pending :=
           pending c
           ++ [ SQLite3Service.upsertStatement (write_now w) (database c)
                  (write_serial w) (write_objectKey w) (write_revision w)
                  (write_timestamp w) (write_value w) ] |}
  | Run n =>
      match pending c !! n with
      | Some st =>
          {| database := SQLite3Service.runStatement st (database c);
             pending := delete n (pending c) |}
      | None => c
      end
  end.

Definition exec (steps : list Step) (c : Connection) : Connection :=
  fold_left step steps c.

(** Writes made one at a time: the statement of each call runs before the
    next call is made. *)
Definition oneAtATime (ws : list Write) : list Step :=
  flat_map (fun w => [Call w; Run 0%nat]) ws.

(** The value a statement stores. *)
Definition statementJson (st : SQLite3Service.Statement) : JS.value :=
  match st with
  | SQLite3Service.Update _ _ _ _ json _ => json
  | SQLite3Service.Insert _ _ _ _ json _ => json
  end.

(** The writes of a sequence that go to one key. *)
Definition writesTo (serial objectKey : string) (ws : list Write) : list Write :=
  filter (fun w => (write_serial w, write_objectKey w) = (serial, objectKey)) ws.

(** ** Away scans *)

(** Scans that found no away time, no vacation mode, and no device to be
    away. *)
Definition nothingAway (scan : SQLite3Service.AwayScan) : Prop :=
  SQLite3Service.hasVacationMode scan = false
  /\ SQLite3Service.mostRecentAwayTimestamp scan = 0
  /\ SQLite3Service.mostRecentManualAwayTimestamp scan = 0
  /\ SQLite3Service.mostRecentAwaySetter scan = None
  /\ (SQLite3Service.anyDeviceReported scan = true ->
      SQLite3Service.allAway scan = false).

(** * Scenarios

    Concrete stores and writes, after the scenarios of the specification. *)

Module Scenario.
Import SQLite3Service.

Definition emptyDb : Database :=
  {| states := []; deviceOwners := []; deviceShares := [] |}.

(** A server clock of 1 800 000 000 000 ms: the timer of S1, which ends at
    second 9 999 999 999, is running. *)
Definition now : Z := 1800000000000.

(** S1: the first write of [device.A]. *)
Definition fanRunning : gmap string JS.value :=
  {[ "fan_timer_timeout" := JNum 9999999999;
     "fan_control_state" := JBool true;
     "temperature" := JNum 20 ]}.

Definition afterFirstWrite : Database :=
  upsertState now emptyDb "A" "device.A" 1 1000 (JObj fanRunning).

(** S1: the second write, a partial update. *)
Definition afterPartialUpdate : Database :=
  upsertState now afterFirstWrite "A" "device.A" 2 1100
    (JObj {[ "temperature" := JNum 21 ]}).

(** A stale update: the device repeats a timeout that is already in the
    past, along with a new temperature. *)
Definition staleUpdate : gmap string JS.value :=
  {[ "fan_timer_timeout" := JNum 1700000000; "temperature" := JNum 21 ]}.

Definition afterStaleUpdate : Database :=
  upsertState now afterFirstWrite "A" "device.A" 2 1100 (JObj staleUpdate).

(** A write at revision 5 followed by the same value at revision 2. *)
Definition atRevision5 : Database :=
  upsertState now emptyDb "A" "device.A" 5 1000
    (JObj {[ "temperature" := JNum 20 ]}).

Definition rewrittenAtRevision2 : Database :=
  upsertState now atRevision5 "A" "device.A" 2 1100
    (JObj {[ "temperature" := JNum 20 ]}).

(** User [u] owns device [A]; an API key that lists [A]. *)
Definition ownedDb : Database :=
  {| states := [];
     deviceOwners := [ {| owner_userId := "u"; owner_serial := "A";
                          owner_createdAt := 0 |} ];
     deviceShares := [] |}.

Definition keyListingA : APIKeyPermissions :=
  {| serials := ["A"]; scopes := ["read"] |}.

Definition keyListingNothing : APIKeyPermissions :=
  {| serials := []; scopes := ["read"] |}.

(** S4: device [B] is marked at time 0. *)
Definition markedAtZero : DeviceAvailabilityWatchdog.Watchdog :=
  (DeviceAvailabilityWatchdog.run
     [DeviceAvailabilityWatchdog.MarkSeen 0 "B"]
     (DeviceAvailabilityWatchdog.empty true)).1.

(** [B] keeps reporting: marked at 0 and at 200 s, swept at 30 s and 480 s. *)
Definition heartbeats : list DeviceAvailabilityWatchdog.Call :=
  [ DeviceAvailabilityWatchdog.Sweep 30000 [];
    DeviceAvailabilityWatchdog.MarkSeen 200000 "B";
    DeviceAvailabilityWatchdog.Sweep 480000 [] ].

(** A raw command for a device the integration does not serve, and a parser
    that reads its topic as the raw pattern
    [«prefix»/«serial»/«type»/«field»/set] does. *)
Definition foreignTopic : string := "nest/X/device/temperature/set".

Definition parseForeignTopic (topic prefix : string)
    : option (string * string * string) :=
  if bool_decide (topic = foreignTopic) && bool_decide (prefix = "nest")
  then Some ("X", "device", "temperature")
  else None.

Definition objectRevisionFive (serial objectKey : string)
    : option SQLite3Service.DeviceObject :=
  Some {| SQLite3Service.object_key := objectKey;
          SQLite3Service.object_revision := 5;
          SQLite3Service.object_timestamp := 0;
          SQLite3Service.value := JObj ∅ |}.

(** S6: user [U] owns [A] and [B]; both report away, [B] more recently and
    in vacation mode; each holds a [user.U] object at revision 7. *)
Definition stateRow (serial objectKey : string) (revision : Z)
    (v : gmap string JS.value) : StateRow :=
  {| row_serial := serial; row_object_key := objectKey;
     row_object_revision := revision; row_object_timestamp := 0;
     row_value := JObj v; row_updatedAt := 0 |}.

Definition twoDevicesAway : Database :=
  {| states :=
       [ stateRow "A" "device.A" 3
           {[ "away" := JBool true; "away_timestamp" := JNum 100 ]};
         stateRow "B" "device.B" 4
           {[ "away" := JBool true; "away_timestamp" := JNum 200;
              "vacation_mode" := JBool true ]};
         stateRow "A" "user.U" 7 {[ "name" := JStr "" ]};
         stateRow "B" "user.U" 7 {[ "name" := JStr "" ]} ];
     deviceOwners :=
       [ {| owner_userId := "U"; owner_serial := "A"; owner_createdAt := 0 |};
         {| owner_userId := "U"; owner_serial := "B"; owner_createdAt := 0 |} ];
     deviceShares := [] |}.

(** Writes to [device.A] of S1 that arrive twice. *)
Definition partialUpdate : Write :=
  {| write_now := now; write_serial := "A"; write_objectKey := "device.A";
     write_revision := 2; write_timestamp := 1100;
     write_value := JObj {[ "temperature" := JNum 21 ]} |}.

Definition sharedWrite : Write :=
  {| write_now := now; write_serial := "A"; write_objectKey := "shared.A";
     write_revision := 1; write_timestamp := 1200;
     write_value := JObj {[ "target_temperature" := JNum 22 ]} |}.

(** A day in the life of [B]: seen, timed out, forced while offline, kept
    by a subscription, forced again. *)
Definition eventful : list DeviceAvailabilityWatchdog.Event :=
  [ DeviceAvailabilityWatchdog.Seen 0 "B";
    DeviceAvailabilityWatchdog.Tick 330000 [];
    DeviceAvailabilityWatchdog.Forced "B";
    DeviceAvailabilityWatchdog.Tick 360000 ["B"];
    DeviceAvailabilityWatchdog.Seen 370000 "C";
    DeviceAvailabilityWatchdog.Forced "B" ].

(** User [v] holds a read-only share of [A]; user [w] holds nothing. *)
Definition sharedDb : Database :=
  {| states := [];
     deviceOwners := [ {| owner_userId := "u"; owner_serial := "A";
                          owner_createdAt := 0 |} ];
     deviceShares := [ {| share_ownerId := "u"; share_sharedWithUserId := "v";
                          share_serial := "A"; share_permissions := ["read"];
                          share_createdAt := 0 |} ] |}.

Definition registeredUsers : list UserInfo :=
  [ {| user_clerkId := "u"; user_email := Some "u@example.org";
       user_createdAt := 0 |} ].

(** An integration that serves [A] and [Z]; the database gives its user
    [A] only. *)
Definition servingAZ : MqttIntegration.Integration :=
  {| MqttIntegration.deviceSerials := ["A"; "Z"];
     MqttIntegration.isReady := true;
     MqttIntegration.hasClient := true;
     MqttIntegration.homeAssistantDiscovery := true |}.

(** What the status route gets from the backend: two objects of [A], one
    of them a session log, and one object of [B]. *)
Definition statusData : JS.value :=
  JObj {[ "devices" := JArr [JStr "A"; JStr "B"];
          "deviceState" :=
            JObj {[ "A" := JObj {[ "device.A" := JObj {[ "away" := JBool false ]};
                                   "session.A" := JStr "log" ]};
                    "B" := JObj {[ "shared.B" := JObj ∅ ]} ]} ]}.

(** Pairing codes at time 5000: device [B] holds [123ABCD], expired and
    unclaimed; device [C] holds [456WXYZ], not expired. *)
Definition pairingKeys : list EntryKeyRow :=
  [ {| entry_code := "123ABCD"; entry_serial := "B"; entry_createdAt := 0;
       entry_expiresAt := 1000; entry_claimedBy := None;
       entry_claimedAt := None |};
    {| entry_code := "456WXYZ"; entry_serial := "C"; entry_createdAt := 0;
       entry_expiresAt := 9000000; entry_claimedBy := None;
       entry_claimedAt := None |} ].

(** Every draw gives the code of [C]. *)
Definition drawTaken (n : nat) : string := "456WXYZ".

(** The first draw gives the code of [C], the later ones the code of [B]. *)
Definition drawTakenThenExpired (n : nat) : string :=
  match n with
  | O => "456WXYZ"
  | S _ => "123ABCD"
  end.

End Scenario.

(** ** Watchdog traces *)

Module WatchdogSpec.
Import AvailabilityMap DeviceAvailabilityWatchdog.

(** What the watchdog knows of a device: [(lastSeen, isAvailable)]. *)
Definition status (w : Watchdog) (s : string) : option (Z * bool) :=
  (fun st => (lastSeen st, isAvailable st)) <$> get (deviceStates w) s.

(** A [Map] holds a key once. *)
Definition distinctKeys (w : Watchdog) : Prop :=
  NoDup (deviceStates w).*1.

(** How many times the handler received [(s, false)]. *)
Definition receivedOffline (s : string) (out : list Notification) : nat :=
  length (filter (fun n => n = (s, false)) out).

(** The calls come in time order and every sweep comes at most
    [TIMEOUT_MS] after the latest [markSeen(s)], which was at [lastMark];
    [clock] is the time of the previous call. *)
Fixpoint keptAlive (s : string) (lastMark clock : Z) (cs : list Call) : Prop :=
  match cs with
  | [] => True
  | MarkSeen now s' :: cs' =>
      clock <= now
      /\ keptAlive s (if decide (s' = s) then now else lastMark) now cs'
  | Sweep now _ :: cs' =>
      clock <= now /\ now - lastMark <= TIMEOUT_MS /\ keptAlive s lastMark now cs'
  end.

(** Nothing is heard of [s]: no [markSeen(s)], and no sweep finds it among
    the devices with an open subscription. *)
Fixpoint silent (s : string) (cs : list Call) : Prop :=
  match cs with
  | [] => True
  | MarkSeen _ s' :: cs' => s' <> s /\ silent s cs'
  | Sweep _ activeSerials :: cs' => (s ∉ activeSerials) /\ silent s cs'
  end.

(** The sweep's verdict on a device that is [(lastSeen, isAvailable)]:
    it stays available unless more than [TIMEOUT_MS] passed. *)
Definition afterSweep (now : Z) (p : Z * bool) : Z * bool :=
  (p.1, p.2 && negb (DeviceAvailabilityWatchdog.TIMEOUT_MS <? now - p.1)).

(** The sweep reports a device offline when it was available and more
    than [TIMEOUT_MS] passed. *)
Definition timesOut (now : Z) (p : option (Z * bool)) : bool :=
  match p with
  | Some (ls, av) => av && (DeviceAvailabilityWatchdog.TIMEOUT_MS <? now - ls)
  | None => false
  end.

(** Every state of the map sits under its own serial. *)
Definition keyedBySerial (w : DeviceAvailabilityWatchdog.Watchdog) : Prop :=
  Forall (fun e : string * AvailabilityMap.DeviceAvailabilityState =>
            AvailabilityMap.serial e.2 = e.1)
         (DeviceAvailabilityWatchdog.deviceStates w).

(** What the handler was told about [s], in order. *)
Definition about (s : string) (out : list Notification) : list bool :=
  snd <$> filter (fun n => n.1 = s) out.

(** Each entry is the opposite of the one before it; [prev] stands before
    the first. *)
Fixpoint alternates (prev : bool) (l : list bool) : Prop :=
  match l with
  | [] => True
  | b :: l' => b = negb prev /\ alternates b l'
  end.

(** [s] does not occur in the events: it is not marked, not forced, and
    has no open subscription at any sweep. *)
Fixpoint unheardOf (s : string) (es : list DeviceAvailabilityWatchdog.Event)
    : Prop :=
  match es with
  | [] => True
  | DeviceAvailabilityWatchdog.Seen _ s' :: es' => s' <> s /\ unheardOf s es'
  | DeviceAvailabilityWatchdog.Tick _ activeSerials :: es' =>
      (s ∉ activeSerials) /\ unheardOf s es'
  | DeviceAvailabilityWatchdog.Forced _ :: es' => unheardOf s es'
  end.

End WatchdogSpec.

(** ** Pairing codes *)

(** A code is free when no key holds it, or when the key the look-up finds
    has expired without being claimed. *)
Definition codeFree (nowMs : Z) (rows : list SQLite3Service.EntryKeyRow)
    (code : string) : bool :=
  match SQLite3Service.entryKeyByCode rows code with
  | None => true
  | Some codeDoc =>
      (SQLite3Service.entry_expiresAt codeDoc <? nowMs)
      && SQLite3Service.unclaimed codeDoc
  end.

(** The row [generateEntryKey] writes. *)
Definition freshEntryKey (nowMs : Z) (serial : string) (ttlSeconds : option Z)
    (code : string) : SQLite3Service.EntryKeyRow :=
  {| SQLite3Service.entry_code := code;
     SQLite3Service.entry_serial := serial;
     SQLite3Service.entry_createdAt := nowMs;
     SQLite3Service.entry_expiresAt := nowMs + default 3600 ttlSeconds * 1000;
     SQLite3Service.entry_claimedBy := None;
     SQLite3Service.entry_claimedAt := None |}.

(** ** The status filter *)

(** Index keys start with a digit. *)
Definition isDigit (c : ascii) : bool :=
  (48 <=? nat_of_ascii c)%nat && (nat_of_ascii c <=? 57)%nat.

Definition startsWithDigit (s : string) : bool :=
  match s with
  | String c _ => isDigit c
  | EmptyString => false
  end.

(** [data.deviceState[serial]]. *)
Definition deviceObjects (data : value) (serial : string) : value :=
  StatusRoute.member (StatusRoute.member data "deviceState") serial.

(** The test that lets a device into the response. *)
Definition shown (data : value) (serial : string) : bool :=
  StatusRoute.truthy (StatusRoute.member data "deviceState")
  && StatusRoute.truthy (deviceObjects data serial)
  && (0 <? length (map_to_list
                     (StatusRoute.serialStateOf (deviceObjects data serial))))%nat.

(** * Properties *)

(** ** One write *)

Lemma upsertState_unfold now db serial objectKey revision timestamp v :
  SQLite3Service.upsertState now db serial objectKey revision timestamp v
  = match SQLite3Service.getState db serial objectKey with
    | Some currentState =>
        SQLite3Service.withStates db
          (SQLite3Service.sqlUpdate serial objectKey revision timestamp
             (storedJson
                (mergeValues
                   (nullish (SQLite3Service.value currentState) (JObj ∅))
                   (nullish v (JObj ∅))))
             now (SQLite3Service.states db))
    | None =>
        SQLite3Service.withStates db
          (SQLite3Service.sqlInsert serial objectKey revision timestamp
             (storedJson v) now (SQLite3Service.states db))
    end.
Proof.
  unfold SQLite3Service.upsertState, SQLite3Service.upsertStatement.
  by destruct (SQLite3Service.getState db serial objectKey).
Qed.

(** ** Deep merge *)

Section MergeFacts.

Implicit Types cur inc m : gmap string value.
Implicit Types k : string.

(** The loop [for key of Object.keys(inc): result[key] = f(key, inc[key])],
    started from a copy of [cur], read key by key. *)
Lemma lookup_assign k' {A} (o : gmap string A) k v :
  assign o k v !! k'
  = if decide (k' = k)
    then (if decide (k = "__proto__")
          then (match o !! k with Some _ => Some v | None => None end)
          else Some v)
    else o !! k'.
Proof.
  unfold assign. destruct (decide (k' = k)) as [->|Hne].
  - destruct (decide (k = "__proto__")) as [->|Hk].
    + rewrite bool_decide_eq_true_2 by done. cbn [andb].
      destruct (o !! "__proto__") as [c|] eqn:Hc.
      * rewrite bool_decide_eq_true_2 by (by eexists). cbn [negb].
        by rewrite lookup_insert_eq.
      * rewrite bool_decide_eq_false_2 by (by intros [? ?]). done.
    + rewrite bool_decide_eq_false_2 by done. cbn [andb].
      by rewrite lookup_insert_eq.
  - destruct (_ && _); [done|]. by rewrite lookup_insert_ne.
Qed.

Lemma lookup_assign_loop (f : string -> value -> value) cur inc k :
  map_fold (fun key v result => assign result key (f key v)) cur inc !! k
  = match inc !! k with
    | Some v =>
        if decide (k = "__proto__")
        then (match cur !! k with Some _ => Some (f k v) | None => None end)
        else Some (f k v)
    | None => cur !! k
    end.
Proof.
  induction inc as [|i x inc' Hi Hfold IH] using map_first_key_ind.
  - by rewrite map_fold_empty, lookup_empty.
  - rewrite map_fold_insert_first_key by done.
    rewrite lookup_assign.
    destruct (decide (k = i)) as [->|Hne].
    + rewrite lookup_insert_eq, IH, Hi.
      destruct (decide (i = "__proto__")); [|done]. by destruct (cur !! i).
    + by rewrite lookup_insert_ne, IH by done.
Qed.

Lemma mergeValues_undefined_incoming current :
  mergeValues current JUndef = current.
Proof. reflexivity. Qed.

Lemma mergeValues_undefined_current incoming :
  mergeValues JUndef incoming = incoming.
Proof. by destruct incoming. Qed.

Lemma mergeValues_objects cur inc :
  mergeValues (JObj cur) (JObj inc)
  = JObj (map_fold
            (fun key v result => assign result key (mergeValues (get cur key) v))
            cur inc).
Proof. reflexivity. Qed.

Lemma mergeValues_lookup cur inc m k :
  mergeValues (JObj cur) (JObj inc) = JObj m ->
  m !! k = match inc !! k with
           | Some v =>
               if decide (k = "__proto__")
               then (match cur !! k with
                     | Some _ => Some (mergeValues (get cur k) v)
                     | None => None
                     end)
               else Some (mergeValues (get cur k) v)
           | None => cur !! k
           end.
Proof.
  rewrite mergeValues_objects. intros [= <-]. apply lookup_assign_loop.
Qed.

End MergeFacts.

(** X30. [mergeValues] follows the deep-merge rule on own keys: an absent
    ([undefined]) incoming value gives the current one and an absent
    current value gives the incoming one; when both are present and one of
    them is not a mapping the result is the incoming value as it is; two
    mappings give a mapping whose keys are those of the current one and
    those of the incoming one other than [__proto__], and whose value at
    each of its keys is the merge of the two sides' values at that key. *)
Theorem mergeValues_rule :
  (forall current, mergeValues current JUndef = current) /\
  (forall incoming, mergeValues JUndef incoming = incoming) /\
  (forall current incoming,
      current <> JUndef -> incoming <> JUndef ->
      isObject current = false \/ isObject incoming = false ->
      mergeValues current incoming = incoming) /\
  (forall cur inc : gmap string value,
      exists m : gmap string value,
        mergeValues (JObj cur) (JObj inc) = JObj m /\
        (forall k, k ∈ dom m
                   <-> k ∈ dom cur \/ (k ∈ dom inc /\ k <> "__proto__")) /\
        forall k, k ∈ dom m ->
                  m !! k = Some (mergeValues (get cur k) (get inc k))).
Proof.
  split; [exact mergeValues_undefined_incoming|].
  split; [exact mergeValues_undefined_current|].
  split.
  - intros current incoming Hc Hi [H|H].
    + destruct incoming, current; simpl in *; congruence.
    + destruct incoming, current; simpl in *; congruence.
  - intros cur inc. eexists. split; [apply mergeValues_objects|].
    assert (Hdom : forall k,
      k ∈ dom (map_fold
                 (fun key v result =>
                    assign result key (mergeValues (get cur key) v)) cur inc)
      <-> k ∈ dom cur \/ (k ∈ dom inc /\ k <> "__proto__")).
    { intros k. rewrite !elem_of_dom, lookup_assign_loop.
      destruct (inc !! k) as [v|] eqn:Hk.
      - destruct (decide (k = "__proto__")) as [Hp|Hp].
        + destruct (cur !! k) as [c|] eqn:Hc.
          * split; [intros _; left|intros _]; eauto.
          * split; [by intros [? ?]|]. intros [[? ?]|[_ ?]]; done.
        + split; [intros _; right|intros _]; eauto.
      - split; [intros H; by left|intros [H|[[? ?] _]]; done]. }
    split; [exact Hdom|].
    intros k Hk. pose proof Hk as Hk'. apply Hdom in Hk'.
    apply elem_of_dom in Hk as [x Hx]. rewrite Hx.
    rewrite lookup_assign_loop in Hx. unfold get in *.
    destruct (inc !! k) as [v|] eqn:Hinc; cbn [default from_option id].
    + destruct (decide (k = "__proto__")); [|by rewrite <- Hx].
      destruct (cur !! k); [by rewrite <- Hx|done].
    + by rewrite Hx.
Qed.

(** C4. The deep merge loses an incoming key: a device object holds
    [{b: 2}] and the device sends [{"__proto__": {a: 1}, c: 3}]. The rule
    gives the three keys [b], [c] and [__proto__]; the assignment
    [result[key] = ...] at [__proto__] reaches the inherited setter, and
    the merged value has the keys [b] and [c] only. *)
Theorem mergeValues_loses_proto_key :
  let current := JObj {[ "b" := JNum 2 ]} in
  let incoming :=
    JObj {[ "__proto__" := JObj {[ "a" := JNum 1 ]}; "c" := JNum 3 ]} in
  jsonShaped current = true
  /\ jsonShaped incoming = true
  /\ mergeValues current incoming = JObj {[ "b" := JNum 2; "c" := JNum 3 ]}.
Proof. vm_compute. done. Qed.

Lemma mergeValues_nested_example :
  mergeValues
    (JObj {[ "a" := JNum 1; "b" := JObj {[ "x" := JNum 2 ]}; "l" := JArr [JNum 1] ]})
    (JObj {[ "c" := JNum 3; "b" := JObj {[ "y" := JNum 4 ]}; "l" := JArr [JNum 2] ]})
  = JObj {[ "a" := JNum 1; "c" := JNum 3;
            "b" := JObj {[ "x" := JNum 2; "y" := JNum 4 ]};
            "l" := JArr [JNum 2] ]}.
Proof. vm_compute. reflexivity. Qed.

(** ** Fan-timer preservation *)

Section FanTimerFacts.
Import FanTimer.

Implicit Types merged existing incoming : gmap string value.

Lemma isExplicitlyTurningOffFan_iff incoming :
  isExplicitlyTurningOffFan incoming = true <-> explicitFanOff incoming.
Proof.
  unfold isExplicitlyTurningOffFan, explicitFanOff, has, get.
  destruct (incoming !! "fan_timer_timeout") as [[| | |[| |]| | |]|];
    destruct (incoming !! "fan_control_state") as [[| |[|]| | | |]|];
    simpl; split; intros H; try done; try (by left); try (by right);
    by destruct H as [H|H].
Qed.

Lemma shouldPreserveFanTimer_iff now existing merged :
  shouldPreserveFanTimer now existing merged = true
  <-> activeFanTimer now existing /\ ~ explicitFanOff merged.
Proof.
  unfold shouldPreserveFanTimer, activeFanTimer.
  rewrite <- isExplicitlyTurningOffFan_iff.
  destruct (isExplicitlyTurningOffFan merged).
  { split; [done|]. intros [_ H]. by destruct H. }
  unfold get.
  destruct (existing !! "fan_timer_timeout") as [v|] eqn:Hv; simpl.
  2: { split; [done|]. by intros [(t & ? & _) _]. }
  destruct v; try (split; [done|]; by intros [(t & ? & _) _]).
  rewrite andb_true_iff, Z.ltb_lt, negb_true_iff, Z.eqb_neq.
  split.
  - intros [Hlt Hne]. split; [|done]. exists n. done.
  - intros [(t & [= <-] & Hne & Hlt) _]. done.
Qed.

Lemma extractFanTimerState_lookup existing k :
  extractFanTimerState existing !! k
  = if bool_decide (k ∈ fanTimerKeys) then Some (get existing k) else None.
Proof.
  unfold extractFanTimerState, fanTimerKeys.
  destruct (decide (k = "fan_timer_timeout")) as [->|?]; [by vm_compute|].
  destruct (decide (k = "fan_control_state")) as [->|?]; [by vm_compute|].
  destruct (decide (k = "fan_timer_duration")) as [->|?]; [by vm_compute|].
  destruct (decide (k = "fan_current_speed")) as [->|?]; [by vm_compute|].
  destruct (decide (k = "fan_mode")) as [->|?]; [by vm_compute|].
  rewrite !lookup_insert_ne by done.
  rewrite lookup_singleton_ne by done.
  rewrite bool_decide_eq_false_2; [done|].
  rewrite !elem_of_cons, elem_of_nil.
  intros H; repeat destruct H as [H|H]; done.
Qed.

End FanTimerFacts.

(** C3. [preserveFanTimer(merged, existing)] copies fields from [existing]
    exactly when [existing] has an active fan timer and [merged] is not an
    explicit fan-off. When it applies, each of the five fan-timer keys
    reads as it does in [existing] (a key that [existing] lacks reads
    [undefined]) and every other key reads as in [merged]; when it does not
    apply, the result is [merged]. *)
Theorem preserveFanTimer_rule (now : Z) (merged existing : gmap string value) :
  (activeFanTimer now existing /\ ~ explicitFanOff merged ->
     (forall k, k ∈ fanTimerKeys ->
        FanTimer.preserveFanTimer now merged existing !! k = Some (get existing k))
     /\ (forall k, k ∉ fanTimerKeys ->
        FanTimer.preserveFanTimer now merged existing !! k = merged !! k))
  /\ (~ (activeFanTimer now existing /\ ~ explicitFanOff merged) ->
        FanTimer.preserveFanTimer now merged existing = merged).
Proof.
  unfold FanTimer.preserveFanTimer. split.
  - intros H. apply shouldPreserveFanTimer_iff in H. rewrite H. simpl.
    unfold spread. split; intros k Hk.
    + apply lookup_union_Some_l. rewrite extractFanTimerState_lookup.
      by rewrite bool_decide_eq_true_2.
    + apply lookup_union_r. rewrite extractFanTimerState_lookup.
      by rewrite bool_decide_eq_false_2.
  - intros H. rewrite <- shouldPreserveFanTimer_iff in H.
    by destruct (FanTimer.shouldPreserveFanTimer now existing merged).
Qed.

(** A running timer is kept over a merged value that carries another
    timeout, and dropped when the merged value turns the fan off. *)
Lemma preserveFanTimer_rule_witness :
  FanTimer.preserveFanTimer 1800000000000
    {[ "fan_timer_timeout" := JNum 1700000000; "temperature" := JNum 21 ]}
    {[ "fan_timer_timeout" := JNum 9999999999; "fan_control_state" := JBool true ]}
    !! "fan_timer_timeout" = Some (JNum 9999999999)
  /\ FanTimer.preserveFanTimer 1800000000000
       {[ "fan_timer_timeout" := JNum 0 ]}
       {[ "fan_timer_timeout" := JNum 9999999999 ]}
     = {[ "fan_timer_timeout" := JNum 0 ]}.
Proof.
  split.
  - destruct (preserveFanTimer_rule 1800000000000
                {[ "fan_timer_timeout" := JNum 1700000000; "temperature" := JNum 21 ]}
                {[ "fan_timer_timeout" := JNum 9999999999;
                   "fan_control_state" := JBool true ]}) as [Happlies _].
    destruct Happlies as [Hfive _].
    + split.
      * exists 9999999999. split; [by vm_compute|]. split; [lia|by vm_compute].
      * intros [H|H]; vm_compute in H; discriminate.
    + apply (Hfive "fan_timer_timeout"). unfold fanTimerKeys. constructor.
  - destruct (preserveFanTimer_rule 1800000000000
                {[ "fan_timer_timeout" := JNum 0 ]}
                {[ "fan_timer_timeout" := JNum 9999999999 ]}) as [_ Hnot].
    apply Hnot. intros [_ H]. apply H. left. by vm_compute.
Defined.

(** ** JSON serialisation *)

Section JsonFacts.

Lemma map_fold_andb_true {A} (f : A -> bool) (m : gmap string A) :
  map_fold (fun _ x acc => f x && acc) true m = true
  <-> forall k x, m !! k = Some x -> f x = true.
Proof.
  induction m as [|i x m Hi Hfold IH] using map_first_key_ind.
  - rewrite map_fold_empty. split; [|done]. intros _ k x. by rewrite lookup_empty.
  - rewrite map_fold_insert_first_key by done.
    rewrite andb_true_iff, IH. split.
    + intros [Hx Hm] k y. destruct (decide (i = k)) as [->|Hne].
      * rewrite lookup_insert_eq. by intros [= <-].
      * rewrite lookup_insert_ne by done. apply Hm.
    + intros H. split.
      * apply (H i). by rewrite lookup_insert_eq.
      * intros k y Hk. apply (H k). rewrite lookup_insert_ne; [done|].
        intros ->. congruence.
Qed.

Lemma map_fold_sum_ge {A} (f : A -> nat) (m : gmap string A) k x :
  m !! k = Some x ->
  (f x <= map_fold (fun _ y acc => f y + acc) 0 m)%nat.
Proof.
  induction m as [|i y m Hi Hfold IH] using map_first_key_ind.
  - by rewrite lookup_empty.
  - rewrite map_fold_insert_first_key by done.
    destruct (decide (i = k)) as [->|Hne].
    + rewrite lookup_insert_eq. intros [= <-]. lia.
    + rewrite lookup_insert_ne by done. intros Hk. specialize (IH Hk). lia.
Qed.

Lemma size_lookup (m : gmap string value) k x :
  m !! k = Some x -> (size x < size (JObj m))%nat.
Proof.
  intros Hk. apply (map_fold_sum_ge size) in Hk.
  change (size (JObj m))
    with (S (map_fold (fun _ y acc => size y + acc)%nat 0%nat m)).
  lia.
Qed.

Lemma size_elem (l : list value) x :
  x ∈ l -> (size x < size (JArr l))%nat.
Proof.
  change (size (JArr l))
    with (S (foldr (fun y acc => size y + acc)%nat 0%nat l)).
  induction 1 as [x l|x y l _ IH]; simpl; lia.
Qed.

(** Serialising a JSON-shaped value and parsing it back gives the value. *)
Lemma jsonRoundTrip_shaped (v : value) :
  jsonShaped v = true -> jsonRoundTrip v = v.
Proof.
  remember (size v) as n eqn:Hn.
  revert v Hn. induction (lt_wf n) as [n _ IH]. intros v -> Hshaped.
  destruct v as [| | | | |l|m]; try reflexivity.
  - change (jsonRoundTrip (JArr l))
      with (JArr (map (fun x => match x with
                                | JUndef => JNull
                                | _ => jsonRoundTrip x
                                end) l)).
    change (jsonShaped (JArr l)) with (forallb jsonShaped l) in Hshaped.
    f_equal.
    assert (Hall : forall x, x ∈ l -> jsonShaped x = true /\ jsonRoundTrip x = x).
    { intros x Hx. assert (Hs : jsonShaped x = true).
      { rewrite forallb_forall in Hshaped. apply Hshaped.
        by apply list_elem_of_In. }
      split; [done|].
      apply (IH (size x)); [by apply size_elem|done|done]. }
    clear IH Hshaped. induction l as [|x l IHl]; [done|]. simpl.
    destruct (Hall x) as [Hs Hr]; [by left|].
    rewrite IHl by (intros y Hy; apply Hall; by right).
    destruct x; try done; by rewrite Hr.
  - change (jsonRoundTrip (JObj m))
      with (JObj (omap (fun x => match x with
                                 | JUndef => None
                                 | _ => Some (jsonRoundTrip x)
                                 end) m)).
    change (jsonShaped (JObj m))
      with (map_fold (fun _ x acc => jsonShaped x && acc) true m) in Hshaped.
    rewrite map_fold_andb_true in Hshaped.
    f_equal. apply map_eq. intros k. rewrite lookup_omap.
    destruct (m !! k) as [x|] eqn:Hk; [|done]. simpl.
    assert (Hr : jsonRoundTrip x = x).
    { apply (IH (size x)); [by apply (size_lookup m k)|done|by apply (Hshaped k)]. }
    specialize (Hshaped k x Hk).
    destruct x; try done; by rewrite Hr.
Qed.

Lemma storedJson_shaped (v : value) :
  jsonShaped v = true -> storedJson v = v.
Proof.
  intros H. destruct v; try done; by apply jsonRoundTrip_shaped.
Qed.

End JsonFacts.

(** ** The object store *)

Section StoreFacts.
Import SQLite3Service.

Implicit Types db : Database.
Implicit Types rows : list StateRow.

Lemma getState_storedRow db serial objectKey :
  getState db serial objectKey = rowObject <$> storedRow db serial objectKey.
Proof.
  unfold getState, storedRow.
  by destruct (filter _ (states db)).
Qed.

Lemma matches_sqlUpdate serial objectKey revision timestamp json now r :
  matches serial objectKey r = true ->
  matches serial objectKey
    {| row_serial := row_serial r; row_object_key := row_object_key r;
       row_object_revision := revision; row_object_timestamp := timestamp;
       row_value := json; row_updatedAt := now |} = true.
Proof. done. Qed.

(** After the UPDATE, the first row of the key carries the new columns. *)
Lemma head_filter_sqlUpdate serial objectKey revision timestamp json now rows r :
  head (filter (fun r => matches serial objectKey r = true) rows) = Some r ->
  head (filter (fun r => matches serial objectKey r = true)
          (sqlUpdate serial objectKey revision timestamp json now rows))
  = Some {| row_serial := row_serial r; row_object_key := row_object_key r;
            row_object_revision := revision; row_object_timestamp := timestamp;
            row_value := json; row_updatedAt := now |}.
Proof.
  induction rows as [|x rows IH]; [done|].
  unfold sqlUpdate. simpl. rewrite !filter_cons.
  destruct (matches serial objectKey x) eqn:Hx.
  - rewrite decide_True by done.
    rewrite decide_True by (by apply matches_sqlUpdate).
    simpl. by intros [= <-].
  - rewrite decide_False by congruence.
    rewrite decide_False by congruence. apply IH.
Qed.

(** After the INSERT into a table without a row of the key, the new row
    is the row of the key. *)
Lemma head_filter_sqlInsert serial objectKey revision timestamp json now rows :
  head (filter (fun r => matches serial objectKey r = true) rows) = None ->
  head (filter (fun r => matches serial objectKey r = true)
          (sqlInsert serial objectKey revision timestamp json now rows))
  = Some {| row_serial := serial; row_object_key := objectKey;
            row_object_revision := revision; row_object_timestamp := timestamp;
            row_value := json; row_updatedAt := now |}.
Proof.
  intros Hnone. unfold sqlInsert. rewrite filter_app.
  destruct (filter _ rows) as [|y ys] eqn:Hf; [|done].
  simpl. rewrite filter_cons, decide_True; [done|].
  unfold matches. simpl. by rewrite !bool_decide_eq_true_2.
Qed.

Lemma upsertState_existing now db serial objectKey revision timestamp v row :
  storedRow db serial objectKey = Some row ->
  storedRow (upsertState now db serial objectKey revision timestamp v)
            serial objectKey
  = Some {| row_serial := row_serial row; row_object_key := row_object_key row;
            row_object_revision := revision; row_object_timestamp := timestamp;
            row_value :=
              storedJson (mergeValues (nullish (row_value row) (JObj ∅))
                                      (nullish v (JObj ∅)));
            row_updatedAt := now |}.
Proof.
  intros Hrow. rewrite upsertState_unfold, getState_storedRow, Hrow. simpl.
  unfold storedRow in *. simpl. by apply head_filter_sqlUpdate.
Qed.

Lemma upsertState_fresh now db serial objectKey revision timestamp v :
  storedRow db serial objectKey = None ->
  storedRow (upsertState now db serial objectKey revision timestamp v)
            serial objectKey
  = Some {| row_serial := serial; row_object_key := objectKey;
            row_object_revision := revision; row_object_timestamp := timestamp;
            row_value := storedJson v; row_updatedAt := now |}.
Proof.
  intros Hrow. rewrite upsertState_unfold, getState_storedRow, Hrow. simpl.
  unfold storedRow in *. simpl. by apply head_filter_sqlInsert.
Qed.

End StoreFacts.

(** C10. An upsert of a key with no stored object inserts a row with the
    caller's revision and timestamp, [updatedAt] set to the server time,
    and the incoming value itself: a JSON-shaped value is stored as it is,
    neither merged with anything nor passed through fan-timer
    preservation. *)
Theorem upsertState_insert_verbatim (now : Z) (db : SQLite3Service.Database)
    (serial objectKey : string) (revision timestamp : Z) (v : value) :
  SQLite3Service.getState db serial objectKey = None ->
  jsonShaped v = true ->
  SQLite3Service.storedRow
    (SQLite3Service.upsertState now db serial objectKey revision timestamp v)
    serial objectKey
  = Some {| SQLite3Service.row_serial := serial;
            SQLite3Service.row_object_key := objectKey;
            SQLite3Service.row_object_revision := revision;
            SQLite3Service.row_object_timestamp := timestamp;
            SQLite3Service.row_value := v;
            SQLite3Service.row_updatedAt := now |}.
Proof.
  intros Hnone Hshaped. rewrite getState_storedRow in Hnone.
  rewrite upsertState_fresh.
  - by rewrite storedJson_shaped.
  - by destruct (SQLite3Service.storedRow db serial objectKey).
Qed.

(** C2, as the code has it. An upsert over a stored object records exactly
    the caller's revision, whatever the merge does to the value; the stored
    revision therefore does not decrease when the caller's revision is at
    least the stored one. *)
Theorem upsertState_records_incoming_revision (now : Z)
    (db : SQLite3Service.Database) (serial objectKey : string)
    (revision timestamp : Z) (v : value) (current : SQLite3Service.DeviceObject) :
  SQLite3Service.getState db serial objectKey = Some current ->
  exists updated : SQLite3Service.DeviceObject,
    SQLite3Service.getState
      (SQLite3Service.upsertState now db serial objectKey revision timestamp v)
      serial objectKey = Some updated
    /\ SQLite3Service.object_revision updated = revision
    /\ (SQLite3Service.object_revision current <= revision ->
        SQLite3Service.object_revision current
        <= SQLite3Service.object_revision updated).
Proof.
  intros Hcur. rewrite getState_storedRow in Hcur.
  destruct (SQLite3Service.storedRow db serial objectKey) as [row|] eqn:Hrow;
    [|done].
  eexists. rewrite getState_storedRow, (upsertState_existing _ _ _ _ _ _ _ row Hrow).
  simpl. split; [reflexivity|]. split; [reflexivity|]. done.
Qed.

Lemma upsertState_insert_verbatim_witness :
  SQLite3Service.storedRow Scenario.afterFirstWrite "A" "device.A"
  = Some {| SQLite3Service.row_serial := "A";
            SQLite3Service.row_object_key := "device.A";
            SQLite3Service.row_object_revision := 1;
            SQLite3Service.row_object_timestamp := 1000;
            SQLite3Service.row_value := JObj Scenario.fanRunning;
            SQLite3Service.row_updatedAt := Scenario.now |}.
Proof.
  apply (upsertState_insert_verbatim Scenario.now Scenario.emptyDb
           "A" "device.A" 1 1000 (JObj Scenario.fanRunning)).
  - reflexivity.
  - vm_compute. reflexivity.
Defined.

Lemma upsertState_records_incoming_revision_witness :
  exists updated : SQLite3Service.DeviceObject,
    SQLite3Service.getState Scenario.afterPartialUpdate "A" "device.A"
    = Some updated
    /\ SQLite3Service.object_revision updated = 2
    /\ (1 <= 2 -> 1 <= SQLite3Service.object_revision updated).
Proof.
  apply (upsertState_records_incoming_revision Scenario.now
           Scenario.afterFirstWrite "A" "device.A" 2 1100
           (JObj {[ "temperature" := JNum 21 ]})
           {| SQLite3Service.object_key := "device.A";
              SQLite3Service.object_revision := 1;
              SQLite3Service.object_timestamp := 1000;
              SQLite3Service.value := JObj Scenario.fanRunning |}).
  vm_compute. reflexivity.
Defined.

(** C2, as stated, fails: rewriting the same value at revision 2 over a
    stored revision 5 leaves the value as it was and records revision 2,
    not [max 5 2]. *)
Lemma upsertState_revision_regresses :
  SQLite3Service.object_revision
    <$> SQLite3Service.getState Scenario.atRevision5 "A" "device.A" = Some 5
  /\ SQLite3Service.value
       <$> SQLite3Service.getState Scenario.rewrittenAtRevision2 "A" "device.A"
     = SQLite3Service.value
         <$> SQLite3Service.getState Scenario.atRevision5 "A" "device.A"
  /\ SQLite3Service.object_revision
       <$> SQLite3Service.getState Scenario.rewrittenAtRevision2 "A" "device.A"
     = Some 2
  /\ 2 < Z.max 5 2.
Proof. vm_compute. repeat split; reflexivity. Qed.

(** S1 on the code: the partial update leaves the fan-timer fields in
    place, by deep merge alone. *)
Lemma scenario_S1_deep_merge :
  SQLite3Service.getState Scenario.afterPartialUpdate "A" "device.A"
  = Some {| SQLite3Service.object_key := "device.A";
            SQLite3Service.object_revision := 2;
            SQLite3Service.object_timestamp := 1100;
            SQLite3Service.value :=
              JObj {[ "fan_timer_timeout" := JNum 9999999999;
                      "fan_control_state" := JBool true;
                      "temperature" := JNum 21 ]} |}.
Proof. vm_compute. reflexivity. Qed.

(** C1 on the code. The stored timer is active and the stale update is not
    an explicit fan-off, yet [upsertState] stores the stale timeout: it
    merges and never calls [preserveFanTimer], which on the same values
    keeps the running timer. *)
Theorem upsertState_overwrites_active_fan_timer :
  activeFanTimer Scenario.now Scenario.fanRunning
  /\ ~ explicitFanOff Scenario.staleUpdate
  /\ SQLite3Service.value
       <$> SQLite3Service.getState Scenario.afterStaleUpdate "A" "device.A"
     = Some (JObj {[ "fan_timer_timeout" := JNum 1700000000;
                     "fan_control_state" := JBool true;
                     "temperature" := JNum 21 ]})
  /\ get (FanTimer.preserveFanTimer Scenario.now
            {[ "fan_timer_timeout" := JNum 1700000000;
               "fan_control_state" := JBool true;
               "temperature" := JNum 21 ]}
            Scenario.fanRunning) "fan_timer_timeout"
     = JNum 9999999999.
Proof.
  split; [|split; [|split]].
  - exists 9999999999. split; [by vm_compute|]. split; [lia|by vm_compute].
  - intros [H|H]; vm_compute in H; discriminate.
  - vm_compute. reflexivity.
  - vm_compute. reflexivity.
Qed.

(** ** API-key permissions *)

(** C9. A non-empty serial list that contains the requested serial makes
    [checkApiKeyPermission] answer [false], before ownership and shares
    are looked at. *)
Theorem checkApiKeyPermission_denies_listed_serial
    (db : SQLite3Service.Database) (userId serial : string)
    (requiredScopes : list string)
    (permissions : SQLite3Service.APIKeyPermissions) :
  SQLite3Service.serials permissions <> [] ->
  serial ∈ SQLite3Service.serials permissions ->
  SQLite3Service.checkApiKeyPermission db userId serial requiredScopes permissions
  = Resolved false.
Proof.
  intros Hne Hin. unfold SQLite3Service.checkApiKeyPermission.
  replace (0 <? Z.of_nat (length (SQLite3Service.serials permissions)))
    with true.
  - unfold SQLite3Service.includes. by rewrite bool_decide_eq_true_2.
  - symmetry. apply Z.ltb_lt.
    destruct (SQLite3Service.serials permissions); [done|simpl; lia].
Qed.

(** The owner's key that lists the device is refused ... *)
Lemma checkApiKeyPermission_denies_listed_serial_witness :
  SQLite3Service.checkApiKeyPermission Scenario.ownedDb "u" "A" ["read"]
    Scenario.keyListingA = Resolved false.
Proof.
  apply checkApiKeyPermission_denies_listed_serial.
  - discriminate.
  - vm_compute. constructor.
Defined.

(** ... while the same key with an empty serial list is accepted. *)
Lemma checkApiKeyPermission_empty_list_grants :
  SQLite3Service.checkApiKeyPermission Scenario.ownedDb "u" "A" ["read"]
    Scenario.keyListingNothing = Resolved true.
Proof. vm_compute. reflexivity. Qed.

(** ** Watchdog constants *)

(** C8, as stated, fails: the earlier watchdog does not use 300000 and
    30000. *)
Lemma watchdog_constants_differ :
  ~ (DeviceAvailabilityWatchdog.TIMEOUT_MS = 300000
     /\ DeviceAvailabilityWatchdog.CHECK_INTERVAL_MS = 30000
     /\ LegacyWatchdog.TIMEOUT_MS = 300000
     /\ LegacyWatchdog.CHECK_INTERVAL_MS = 30000).
Proof. intros (_ & _ & H & _). discriminate H. Qed.

(** C8, as the code has it: 300000 and 30000 in the subscription-aware
    watchdog, 125000 and 10000 in the earlier one. *)
Theorem watchdog_constants :
  DeviceAvailabilityWatchdog.TIMEOUT_MS = 300000
  /\ DeviceAvailabilityWatchdog.CHECK_INTERVAL_MS = 30000
  /\ LegacyWatchdog.TIMEOUT_MS = 125000
  /\ LegacyWatchdog.CHECK_INTERVAL_MS = 10000.
Proof. repeat split; reflexivity. Qed.

(** The two variants disagree on a device last seen 130 s ago: the earlier
    one reports it offline, the subscription-aware one does not. *)
Lemma watchdog_variants_disagree :
  (LegacyWatchdog.checkDeviceTimeouts true 130000
     (DeviceAvailabilityWatchdog.deviceStates Scenario.markedAtZero)).2
  = [("B", false)]
  /\ (DeviceAvailabilityWatchdog.checkDeviceTimeouts 130000 []
        Scenario.markedAtZero).2 = [].
Proof. vm_compute. split; reflexivity. Qed.

(** ** Availability watchdog *)

Section WatchdogFacts.
Import AvailabilityMap DeviceAvailabilityWatchdog WatchdogSpec.

Implicit Types m : AvailabilityMap.t.
Implicit Types w : Watchdog.
Implicit Types s k : string.
Implicit Types out : list Notification.

Lemma get_None_keys m k : get m k = None <-> k ∉ m.*1.
Proof.
  induction m as [|[k' st] m IH]; [split; [intros _; apply not_elem_of_nil|done]|].
  rewrite fmap_cons. cbn [get fst].
  - rewrite not_elem_of_cons. destruct (decide (k' = k)) as [->|Hne].
    + split; [done|]. by intros [? _].
    + rewrite IH. split; [by intros ?; split|by intros [_ ?]].
Qed.

Lemma get_mutate f k m k' :
  get (mutate f k m) k' = if decide (k = k') then f <$> get m k' else get m k'.
Proof.
  induction m as [|[k0 st] m IH]; simpl.
  - by destruct (decide (k = k')).
  - destruct (decide (k0 = k)) as [->|Hne]; simpl.
    + by destruct (decide (k = k')).
    + destruct (decide (k0 = k')) as [->|Hne'].
      * by destruct (decide (k = k')).
      * apply IH.
Qed.

Lemma keys_mutate f k m : fst <$> (mutate f k m) = m.*1.
Proof.
  induction m as [|[k0 st] m IH]; [done|]. cbn [mutate].
  destruct (decide (k0 = k)); rewrite !fmap_cons; [done|by rewrite IH].
Qed.

Lemma get_app m1 m2 k :
  get (m1 ++ m2) k = match get m1 k with
                     | Some st => Some st
                     | None => get m2 k
                     end.
Proof.
  induction m1 as [|[k0 st] m1 IH]; simpl; [done|].
  by destruct (decide (k0 = k)).
Qed.

Lemma get_set_absent k st m k' :
  get m k = None ->
  get (set k st m) k' = if decide (k = k') then Some st else get m k'.
Proof.
  intros Hk. unfold set. rewrite Hk, get_app. simpl.
  destruct (decide (k = k')) as [->|Hne].
  - by rewrite Hk.
  - by destruct (get m k').
Qed.

Lemma keys_set_absent k st m :
  get m k = None -> fst <$> (set k st m) = m.*1 ++ [k].
Proof. intros Hk. unfold set. by rewrite Hk, fmap_app. Qed.

Lemma receivedOffline_app s out1 out2 :
  receivedOffline s (out1 ++ out2)
  = (receivedOffline s out1 + receivedOffline s out2)%nat.
Proof. unfold receivedOffline. by rewrite filter_app, length_app. Qed.

Lemma receivedOffline_online s w s' :
  receivedOffline s (notifyAvailabilityChange w s' true) = 0%nat.
Proof.
  unfold notifyAvailabilityChange, receivedOffline.
  destruct (onAvailabilityChange w); [|done].
  rewrite filter_cons, decide_False; [done|congruence].
Qed.

(** *** [markSeen] *)

Lemma markSeen_status now s w s' :
  status (markSeen now s w).1 s'
  = if decide (s = s') then Some (now, true) else status w s'.
Proof.
  unfold markSeen, status.
  destruct (get (deviceStates w) s) as [st|] eqn:Hs.
  - destruct (isAvailable st) eqn:Hav; simpl.
    + rewrite get_mutate. destruct (decide (s = s')) as [->|]; [|done].
      rewrite Hs. simpl. by rewrite Hav.
    + rewrite !get_mutate. destruct (decide (s = s')) as [->|]; [|done].
      by rewrite Hs.
  - simpl. rewrite get_set_absent by done.
    by destruct (decide (s = s')).
Qed.

Lemma markSeen_offline now s w s' :
  receivedOffline s' (markSeen now s w).2 = 0%nat.
Proof.
  unfold markSeen.
  destruct (get (deviceStates w) s) as [st|]; [destruct (isAvailable st)|];
    simpl; try done; apply receivedOffline_online.
Qed.

Lemma markSeen_handler now s w :
  onAvailabilityChange (markSeen now s w).1 = onAvailabilityChange w.
Proof.
  unfold markSeen.
  by destruct (get (deviceStates w) s) as [st|]; [destruct (isAvailable st)|].
Qed.

Lemma markSeen_distinctKeys now s w :
  distinctKeys w -> distinctKeys (markSeen now s w).1.
Proof.
  unfold markSeen, distinctKeys.
  destruct (get (deviceStates w) s) as [st|] eqn:Hs.
  - destruct (isAvailable st); simpl; by rewrite ?keys_mutate.
  - simpl. rewrite keys_set_absent by done. intros Hnd.
    apply NoDup_app. split; [done|]. split; [|apply NoDup_singleton].
    intros x Hx Hx'. apply list_elem_of_singleton in Hx' as ->.
    by apply get_None_keys in Hs.
Qed.

(** *** The sweep *)

Lemma keepAlive_markSeen now w out a :
  keepAlive now (w, out) a = ((markSeen now a w).1, out ++ (markSeen now a w).2).
Proof.
  unfold keepAlive, markSeen.
  destruct (get (deviceStates w) a) as [st|]; [|done].
  destruct (isAvailable st); simpl; [|done]. by rewrite app_nil_r.
Qed.

Lemma keepAlive_fold now activeSerials w out :
  let r := fold_left (keepAlive now) activeSerials (w, out) in
  (forall s, status r.1 s
             = if decide (s ∈ activeSerials) then Some (now, true) else status w s)
  /\ (forall s, receivedOffline s r.2 = receivedOffline s out)
  /\ onAvailabilityChange r.1 = onAvailabilityChange w
  /\ (distinctKeys w -> distinctKeys r.1).
Proof.
  revert w out. induction activeSerials as [|a act IH]; intros w out.
  - repeat split; done.
  - cbn [fold_left]. rewrite keepAlive_markSeen.
    destruct (IH (markSeen now a w).1 (out ++ (markSeen now a w).2))
      as (Hst & Hout & Hh & Hnd).
    repeat split.
    + intros s. rewrite Hst, markSeen_status.
      destruct (decide (s ∈ act)) as [Hin|Hnin].
      * rewrite decide_True; [done|by right].
      * destruct (decide (a = s)) as [->|Hne].
        -- rewrite decide_True; [done|by left].
        -- rewrite decide_False; [done|].
           rewrite not_elem_of_cons. by split.
    + intros s. by rewrite Hout, receivedOffline_app, markSeen_offline, Nat.add_0_r.
    + by rewrite Hh, markSeen_handler.
    + intros H. by apply Hnd, markSeen_distinctKeys.
Qed.

Lemma timeoutPass_keys w now m : fst <$> (timeoutPass w now m).1 = m.*1.
Proof.
  induction m as [|[k st] m IH]; [done|]. cbn [timeoutPass].
  destruct (timeoutPass w now m) as [r out]. cbn [fst] in IH.
  destruct (isAvailable st); cbn [negb fst]; [|by rewrite !fmap_cons, IH].
  destruct (TIMEOUT_MS <? now - lastSeen st); cbn [fst]; by rewrite !fmap_cons, IH.
Qed.

Lemma timeoutPass_get w now m k :
  (fun st => (lastSeen st, isAvailable st)) <$> get (timeoutPass w now m).1 k
  = afterSweep now
      <$> ((fun st => (lastSeen st, isAvailable st)) <$> get m k).
Proof.
  induction m as [|[k0 st] m IH]; simpl; [done|].
  destruct (timeoutPass w now m) as [r out]. simpl in IH.
  unfold afterSweep.
  destruct (isAvailable st) eqn:Hav; simpl.
  - destruct (TIMEOUT_MS <? now - lastSeen st) eqn:Hlt; simpl;
      destruct (decide (k0 = k)); simpl; try done; by rewrite ?Hav, ?Hlt.
  - destruct (decide (k0 = k)); simpl; [by rewrite Hav|done].
Qed.

Lemma receivedOffline_cons s k b out :
  receivedOffline s ((k, b) :: out)
  = ((if decide ((k, b) = (s, false)) then 1 else 0) + receivedOffline s out)%nat.
Proof. unfold receivedOffline. rewrite filter_cons. by case_decide. Qed.

Lemma timeoutPass_offline w now m s :
  NoDup m.*1 ->
  onAvailabilityChange w = true ->
  receivedOffline s (timeoutPass w now m).2
  = if timesOut now ((fun st => (lastSeen st, isAvailable st)) <$> get m s)
    then 1%nat else 0%nat.
Proof.
  intros Hnd Hh. induction m as [|[k0 st] m IH]; [done|].
  rewrite fmap_cons in Hnd. apply NoDup_cons in Hnd as [Hk0 Hnd].
  specialize (IH Hnd). cbn [timeoutPass get].
  destruct (timeoutPass w now m) as [r out]. cbn [snd] in IH.
  unfold notifyAvailabilityChange. rewrite Hh.
  destruct (decide (k0 = s)) as [->|Hne].
  - assert (Hout : receivedOffline s out = 0%nat).
    { apply (proj2 (get_None_keys m s)) in Hk0. by rewrite IH, Hk0. }
    cbn -[receivedOffline].
    destruct (isAvailable st); cbn -[receivedOffline]; [|done].
    destruct (TIMEOUT_MS <? now - lastSeen st); cbn -[receivedOffline]; [|done].
    by rewrite receivedOffline_cons, decide_True, Hout.
  - rewrite <- IH. destruct (isAvailable st); cbn -[receivedOffline]; [|done].
    destruct (TIMEOUT_MS <? now - lastSeen st); cbn -[receivedOffline]; [|done].
    rewrite receivedOffline_cons, decide_False; [done|congruence].
Qed.

Lemma checkDeviceTimeouts_spec now activeSerials w :
  let r := checkDeviceTimeouts now activeSerials w in
  let touched s :=
    if decide (s ∈ activeSerials) then Some (now, true) else status w s in
  (forall s, status r.1 s = afterSweep now <$> touched s)
  /\ onAvailabilityChange r.1 = onAvailabilityChange w
  /\ (distinctKeys w -> distinctKeys r.1)
  /\ (distinctKeys w -> onAvailabilityChange w = true ->
      forall s, receivedOffline s r.2
                = if timesOut now (touched s) then 1%nat else 0%nat).
Proof.
  unfold checkDeviceTimeouts.
  pose proof (keepAlive_fold now activeSerials w []) as H. simpl in H.
  destruct (fold_left (keepAlive now) activeSerials (w, [])) as [w1 out1].
  simpl in H. destruct H as (Hst & Hout & Hh & Hnd).
  pose proof (timeoutPass_get w1 now (deviceStates w1)) as Hget.
  pose proof (timeoutPass_keys w1 now (deviceStates w1)) as Hkeys.
  pose proof (timeoutPass_offline w1 now (deviceStates w1)) as Hoff.
  destruct (timeoutPass w1 now (deviceStates w1)) as [m2 out2]. simpl in *.
  repeat split.
  - intros s. unfold status at 1. simpl. rewrite Hget. f_equal. apply Hst.
  - done.
  - intros Hw. unfold distinctKeys. simpl. rewrite Hkeys. by apply Hnd.
  - intros Hw Hhandler s. rewrite receivedOffline_app, Hout. simpl.
    rewrite Hoff; [|by apply Hnd|by rewrite Hh].
    by rewrite <- Hst.
Qed.

(** *** Runs *)

Lemma run_cons c cs w :
  run (c :: cs) w
  = ((run cs (step c w).1).1, (step c w).2 ++ (run cs (step c w).1).2).
Proof.
  cbn [run]. destruct (step c w) as [w1 out1]. cbn [fst snd].
  by destruct (run cs w1) as [w2 out2].
Qed.

Lemma step_invariant c w :
  distinctKeys w -> onAvailabilityChange w = true ->
  distinctKeys (step c w).1 /\ onAvailabilityChange (step c w).1 = true.
Proof.
  intros Hnd Hh. destruct c as [now s|now activeSerials]; cbn [step].
  - split; [by apply markSeen_distinctKeys|by rewrite markSeen_handler].
  - destruct (checkDeviceTimeouts_spec now activeSerials w) as (_ & Hh' & Hnd' & _).
    split; [by apply Hnd'|by rewrite Hh'].
Qed.

Lemma run_invariant cs w :
  distinctKeys w -> onAvailabilityChange w = true ->
  distinctKeys (run cs w).1 /\ onAvailabilityChange (run cs w).1 = true.
Proof.
  revert w. induction cs as [|c cs IH]; intros w Hnd Hh; [done|].
  rewrite run_cons. cbn [fst].
  destruct (step_invariant c w Hnd Hh) as [Hnd' Hh']. by apply IH.
Qed.

Lemma getAvailability_status w s :
  getAvailability w s = match status w s with
                        | Some (_, av) => av
                        | None => false
                        end.
Proof.
  unfold getAvailability, status. by destruct (get (deviceStates w) s).
Qed.

(** A device that is marked in time stays available and is never reported
    offline. *)
Lemma keptAlive_run s cs :
  forall w lastMark clock ls,
    distinctKeys w -> onAvailabilityChange w = true ->
    status w s = Some (ls, true) ->
    lastMark <= ls -> lastMark <= clock ->
    keptAlive s lastMark clock cs ->
    (exists ls', status (run cs w).1 s = Some (ls', true))
    /\ receivedOffline s (run cs w).2 = 0%nat.
Proof.
  induction cs as [|c cs IH]; intros w lastMark clock ls Hnd Hh Hst Hls Hclock Hk.
  { split; [by exists ls|done]. }
  rewrite run_cons. cbn [fst snd]. rewrite receivedOffline_app.
  destruct (step_invariant c w Hnd Hh) as [Hnd' Hh'].
  destruct c as [now s'|now activeSerials]; cbn [step keptAlive] in *.
  - destruct Hk as [Hnow Hk]. rewrite markSeen_offline.
    destruct (decide (s' = s)) as [->|Hne].
    + apply (IH _ now now now Hnd' Hh'); [|lia|lia|done].
      rewrite markSeen_status. by rewrite decide_True.
    + apply (IH _ lastMark now ls Hnd' Hh'); [|lia|lia|done].
      rewrite markSeen_status. by rewrite decide_False.
  - destruct Hk as (Hnow & Hfresh & Hk).
    destruct (checkDeviceTimeouts_spec now activeSerials w) as (Hst' & _ & _ & Hoff).
    rewrite (Hoff Hnd Hh s). specialize (Hst' s).
    destruct (decide (s ∈ activeSerials)) as [Hin|Hnin].
    + assert (Hlive : (TIMEOUT_MS <? now - now) = false).
      { apply Z.ltb_ge. unfold TIMEOUT_MS. lia. }
      cbn [timesOut]. rewrite Hlive. cbn [andb].
      apply (IH _ lastMark now now Hnd' Hh'); [|lia|lia|done].
      rewrite Hst'. unfold afterSweep. cbn. by rewrite Hlive.
    + assert (Hlive : (TIMEOUT_MS <? now - ls) = false).
      { apply Z.ltb_ge. lia. }
      rewrite Hst. cbn [timesOut]. rewrite Hlive. cbn [andb].
      apply (IH _ lastMark now ls Hnd' Hh'); [|lia|lia|done].
      rewrite Hst', Hst. unfold afterSweep. cbn. by rewrite Hlive.
Qed.

(** A device that is offline and unheard of stays offline and is not
    reported again. *)
Lemma silent_run s cs :
  forall w ls,
    distinctKeys w -> onAvailabilityChange w = true ->
    status w s = Some (ls, false) ->
    silent s cs ->
    status (run cs w).1 s = Some (ls, false)
    /\ receivedOffline s (run cs w).2 = 0%nat.
Proof.
  induction cs as [|c cs IH]; intros w ls Hnd Hh Hst Hs; [done|].
  rewrite run_cons. cbn [fst snd]. rewrite receivedOffline_app.
  destruct (step_invariant c w Hnd Hh) as [Hnd' Hh'].
  destruct c as [now s'|now activeSerials]; cbn [step silent] in *;
    destruct Hs as [Hne Hs].
  - rewrite markSeen_offline. apply (IH _ ls Hnd' Hh'); [|done].
    rewrite markSeen_status. by rewrite decide_False.
  - destruct (checkDeviceTimeouts_spec now activeSerials w) as (Hst' & _ & _ & Hoff).
    rewrite (Hoff Hnd Hh s). specialize (Hst' s).
    rewrite decide_False in Hst' |- * by done. rewrite Hst in Hst' |- *.
    cbn [timesOut andb]. by apply (IH _ ls Hnd' Hh').
Qed.

End WatchdogFacts.

(** C7. On any watchdog reached from a fresh one with a handler installed:
    - after [markSeen(s)], as long as the calls come in time order and
      every sweep comes at most [TIMEOUT_MS] after the latest
      [markSeen(s)], [getAvailability(s)] is [true] and the handler never
      receives [(s, false)];
    - when [s] is available and more than [TIMEOUT_MS] passed since it was
      last seen, a sweep that does not find [s] among the open
      subscriptions sets it unavailable and hands [(s, false)] to the
      handler exactly once; while nothing is heard of [s], later calls
      leave it unavailable and report it offline no more. *)
Theorem watchdog_liveness (s : string) (pre : list DeviceAvailabilityWatchdog.Call) :
  let w := (DeviceAvailabilityWatchdog.run pre
              (DeviceAvailabilityWatchdog.empty true)).1 in
  (forall t0 cs,
      WatchdogSpec.keptAlive s t0 t0 cs ->
      let r := DeviceAvailabilityWatchdog.run
                 (DeviceAvailabilityWatchdog.MarkSeen t0 s :: cs) w in
      DeviceAvailabilityWatchdog.getAvailability r.1 s = true
      /\ WatchdogSpec.receivedOffline s r.2 = 0%nat)
  /\ (forall ls now activeSerials later,
      WatchdogSpec.status w s = Some (ls, true) ->
      DeviceAvailabilityWatchdog.TIMEOUT_MS < now - ls ->
      s ∉ activeSerials ->
      WatchdogSpec.silent s later ->
      let r1 := DeviceAvailabilityWatchdog.checkDeviceTimeouts now activeSerials w in
      let r2 := DeviceAvailabilityWatchdog.run later r1.1 in
      DeviceAvailabilityWatchdog.getAvailability r1.1 s = false
      /\ WatchdogSpec.receivedOffline s r1.2 = 1%nat
      /\ DeviceAvailabilityWatchdog.getAvailability r2.1 s = false
      /\ WatchdogSpec.receivedOffline s r2.2 = 0%nat).
Proof.
  intros w.
  destruct (run_invariant pre (DeviceAvailabilityWatchdog.empty true))
    as [Hnd Hh]; [apply NoDup_nil_2|done|]. fold w in Hnd, Hh.
  split.
  - intros t0 cs Hk r. subst r. rewrite run_cons. cbn [fst snd].
    cbn [DeviceAvailabilityWatchdog.step].
    rewrite receivedOffline_app, markSeen_offline.
    destruct (keptAlive_run s cs
                (DeviceAvailabilityWatchdog.markSeen t0 s w).1 t0 t0 t0)
      as [[ls' Hst] Hoff]; try done.
    + by apply markSeen_distinctKeys.
    + by rewrite markSeen_handler.
    + rewrite markSeen_status. by rewrite decide_True.
    + split; [|done]. by rewrite getAvailability_status, Hst.
  - intros ls now activeSerials later Hst Hlate Hnin Hsilent r1 r2.
    destruct (checkDeviceTimeouts_spec now activeSerials w)
      as (Hst1 & Hh1 & Hnd1 & Hoff1).
    fold r1 in Hst1, Hh1, Hnd1, Hoff1.
    specialize (Hst1 s). rewrite decide_False in Hst1 by done.
    rewrite Hst in Hst1.
    assert (Hdead : (DeviceAvailabilityWatchdog.TIMEOUT_MS <? now - ls) = true)
      by by apply Z.ltb_lt.
    unfold WatchdogSpec.afterSweep in Hst1. cbn in Hst1. rewrite Hdead in Hst1.
    cbn in Hst1.
    destruct (silent_run s later r1.1 ls) as [Hst2 Hoff2]; try done.
    + by apply Hnd1.
    + by rewrite Hh1.
    + fold r2 in Hst2, Hoff2.
      rewrite !getAvailability_status, Hst1, Hst2, (Hoff1 Hnd Hh s).
      rewrite decide_False by done. rewrite Hst. cbn. by rewrite Hdead.
Qed.

(** S4 and its opposite: with heartbeats [B] is available after the sweep
    at 480 s; without, the sweep at 330 s reports it offline once and the
    sweep at 360 s does not report it again. *)
Lemma watchdog_liveness_witness :
  DeviceAvailabilityWatchdog.getAvailability
    (DeviceAvailabilityWatchdog.run
       (DeviceAvailabilityWatchdog.MarkSeen 0 "B" :: Scenario.heartbeats)
       Scenario.markedAtZero).1 "B" = true
  /\ WatchdogSpec.receivedOffline "B"
       (DeviceAvailabilityWatchdog.checkDeviceTimeouts 330000 []
          Scenario.markedAtZero).2 = 1%nat
  /\ WatchdogSpec.receivedOffline "B"
       (DeviceAvailabilityWatchdog.run
          [DeviceAvailabilityWatchdog.Sweep 360000 []]
          (DeviceAvailabilityWatchdog.checkDeviceTimeouts 330000 []
             Scenario.markedAtZero).1).2 = 0%nat.
Proof.
  destruct (watchdog_liveness "B" [DeviceAvailabilityWatchdog.MarkSeen 0 "B"])
    as [Halive Hsilent].
  split.
  - apply (Halive 0 Scenario.heartbeats).
    cbn. unfold DeviceAvailabilityWatchdog.TIMEOUT_MS.
    rewrite decide_True by reflexivity. repeat split; lia.
  - destruct (Hsilent 0 330000 [] [DeviceAvailabilityWatchdog.Sweep 360000 []])
      as (_ & Honce & _ & Hquiet).
    + vm_compute. reflexivity.
    + unfold DeviceAvailabilityWatchdog.TIMEOUT_MS. lia.
    + apply not_elem_of_nil.
    + cbn. split; [apply not_elem_of_nil|exact I].
    + split; [exact Honce|exact Hquiet].
Defined.

(** S4, second half: the [markSeen(B)] that follows the timeout hands
    [(B, true)] to the handler once. *)
Lemma scenario_S4_back_online :
  (DeviceAvailabilityWatchdog.markSeen 400000 "B"
     (DeviceAvailabilityWatchdog.checkDeviceTimeouts 330000 []
        Scenario.markedAtZero).1).2 = [("B", true)].
Proof. vm_compute. reflexivity. Qed.

(** ** MQTT command ingestion *)

Section StringFacts.

Lemma append_cons a p q : String a p +:+ q = String a (p +:+ q).
Proof. reflexivity. Qed.

Lemma append_empty q : "" +:+ q = q.
Proof. reflexivity. Qed.

Lemma stripPrefix_append p q s :
  Str.stripPrefix (p +:+ q) (p +:+ s) = Str.stripPrefix q s.
Proof.
  induction p as [|a p IH]; [by rewrite !append_empty|].
  rewrite !append_cons. cbn [Str.stripPrefix]. by rewrite Ascii.eqb_refl.
Qed.

Lemma stripPrefix_exact p s : Str.stripPrefix p (p +:+ s) = Some s.
Proof.
  induction p as [|a p IH]; [by rewrite append_empty; destruct s|].
  rewrite append_cons. cbn [Str.stripPrefix]. by rewrite Ascii.eqb_refl.
Qed.

Lemma splitAtSlash_noSlash a r :
  Str.noSlash a = true -> Str.splitAtSlash (a +:+ "/" +:+ r) = Some (a, r).
Proof.
  induction a as [|c a IH]; [by rewrite append_empty|].
  rewrite append_cons. cbn [Str.noSlash Str.splitAtSlash].
  intros [Hc Ha]%andb_true_iff.
  apply negb_true_iff in Hc. rewrite Hc. by rewrite IH.
Qed.

(** On a topic [«prefix»/«serial»/...] the pattern of derived commands
    captures [«serial»] or does not match. *)
Lemma matchHaTopic_serial prefix serial rest s c :
  Str.noSlash serial = true ->
  MqttIntegration.matchHaTopic prefix (prefix +:+ "/" +:+ serial +:+ "/" +:+ rest)
  = Some (s, c) ->
  s = serial.
Proof.
  intros Hserial. unfold MqttIntegration.matchHaTopic.
  rewrite stripPrefix_append, (stripPrefix_exact "/").
  rewrite splitAtSlash_noSlash by done.
  destruct (Str.stripPrefix "ha/" rest) as [rest3|]; [|done].
  destruct (Str.stripSuffix "/set" rest3) as [command|]; [|done].
  destruct (_ || _); [done|]. by intros [= <- _].
Qed.

End StringFacts.

Section MqttFacts.
Import SQLite3Service MqttIntegration.

Variable parseCommandTopic : string -> string -> option (string * string * string).
Variable JSON_parse : string -> option JS.value.
Variable parseFloat : string -> option JS.value.
Variable trim : string -> string.
Variable haModeToNest : string -> JS.value.
Variable validateTemperature : option JS.value -> JS.value -> option JS.value.

(** The device set of an integration: what the user owns and what is
    shared with the user. *)
Lemma loadUserDevices_spec db userId serial :
  serial ∈ loadUserDevices db userId
  <-> serial ∈ listUserDevices db userId
      \/ serial ∈ (getSharedWithMe db userId).*1.
Proof.
  unfold loadUserDevices. by rewrite elem_of_list_to_set, elem_of_app.
Qed.

(** C6. A command on a topic [«prefix»/«serial»/...], raw or derived,
    whose serial is not in the integration's device set is ignored: the
    handler makes no call at all, so no upsert happens and the store is
    what it was. The raw-topic parser is outside the modelled files; it is
    taken to read, from a topic it accepts, the serial that stands in the
    topic. *)
Theorem mqtt_unauthorized_command_ignored
    (topicPrefix : string) (userDeviceSerials : gset string)
    (deviceStateGet : string -> string -> option DeviceObject)
    (now : Z) (serial rest message : string) :
  let topic := topicPrefix +:+ "/" +:+ serial +:+ "/" +:+ rest in
  let actions :=
    handleCommand parseCommandTopic JSON_parse parseFloat trim haModeToNest
      validateTemperature topicPrefix userDeviceSerials deviceStateGet
      now topic message in
  Str.noSlash serial = true ->
  (forall s t f, parseCommandTopic topic topicPrefix = Some (s, t, f) -> s = serial) ->
  serial ∉ userDeviceSerials ->
  actions = [] /\ forall db, applyActions now actions db = db.
Proof.
  intros topic actions Hserial Hparse Hforeign.
  assert (Hnone : actions = []); [|by rewrite Hnone].
  subst actions. unfold handleCommand.
  destruct (Str.includes topic "/ha/" && Str.endsWith topic "/set").
  - unfold handleHomeAssistantCommand.
    destruct (matchHaTopic topicPrefix topic) as [[s c]|] eqn:Hmatch; [|done].
    apply matchHaTopic_serial in Hmatch as ->; [|done].
    by rewrite bool_decide_eq_false_2.
  - destruct (parseCommandTopic topic topicPrefix) as [[[s t] f]|] eqn:Hp; [|done].
    rewrite (Hparse s t f eq_refl). by rewrite bool_decide_eq_false_2.
Qed.

End MqttFacts.

(** The raw command [nest/X/device/temperature/set] reaches an integration
    that serves only device [C]: nothing is written, although the object
    it names exists. *)
Lemma mqtt_unauthorized_command_ignored_witness :
  MqttIntegration.handleCommand Scenario.parseForeignTopic
    (fun _ => None) (fun _ => None) (fun s => s) JStr (fun _ _ => None)
    "nest" {[ "C" ]} Scenario.objectRevisionFive 0
    Scenario.foreignTopic "21" = [].
Proof.
  apply (mqtt_unauthorized_command_ignored Scenario.parseForeignTopic
           (fun _ => None) (fun _ => None) (fun s => s) JStr (fun _ _ => None)
           "nest" {[ "C" ]} Scenario.objectRevisionFive 0
           "X" "device/temperature/set" "21").
  - reflexivity.
  - intros s t f H. vm_compute in H. by injection H as <- _ _.
  - vm_compute. intros H. discriminate H.
Defined.

(** The same command for the device the integration serves is carried
    out. *)
Lemma mqtt_authorized_command_executed :
  MqttIntegration.handleCommand Scenario.parseForeignTopic
    (fun _ => None) (fun _ => None) (fun s => s) JStr (fun _ _ => None)
    "nest" {[ "X" ]} Scenario.objectRevisionFive 0
    Scenario.foreignTopic "21"
  = [ MqttIntegration.Upsert "X" "device.X" 6 0
        (JObj {[ "temperature" := JStr "21" ]}) ].
Proof. vm_compute. reflexivity. Qed.

(** S5: the derived command [nest/C/ha/mode/set] with payload [heat]
    writes [target_temperature_type] on [shared.C], one revision up, and
    republishes the derived state. *)
Lemma scenario_S5_mode_command :
  MqttIntegration.handleCommand (fun _ _ => None)
    (fun _ => None) (fun _ => None) (fun s => s) JStr (fun _ _ => None)
    "nest" {[ "C" ]} Scenario.objectRevisionFive 0
    "nest/C/ha/mode/set" "heat"
  = [ MqttIntegration.Upsert "C" "shared.C" 6 0
        (JObj {[ "target_temperature_type" := JStr "heat" ]});
      MqttIntegration.Notify "C" "shared.C";
      MqttIntegration.PublishHomeAssistantState "C" ].
Proof. vm_compute. reflexivity. Qed.

(** ** Cross-device away reconciler *)

Section AwayFacts.
Import SQLite3Service.

Variable StringToNumber : string -> option Z.
Variable ArrayToNumber : list JS.value -> option Z.
Variable ToString : JS.value -> string.

(** Every object of the store that [getAllStateForDevice] returns sits
    under the object key that was asked for. *)
Lemma getAllStateForDevice_keys db serial objectKey s bucket k :
  getAllStateForDevice db serial objectKey !! s = Some bucket ->
  is_Some (bucket !! k) ->
  k = objectKey.
Proof.
  unfold getAllStateForDevice.
  assert (Hrows : Forall (fun r => row_object_key r = objectKey)
                    (filter (fun r => matches serial objectKey r = true) (states db))).
  { apply Forall_forall. intros r [Hm _]%list_elem_of_filter.
    unfold matches in Hm. apply andb_true_iff in Hm as [_ Hk].
    by apply bool_decide_eq_true in Hk. }
  revert Hrows. generalize (filter (fun r => matches serial objectKey r = true) (states db)).
  intros rows Hrows.
  assert (Hacc : forall s (b : gmap string JS.value) k,
             (∅ : gmap string (gmap string JS.value)) !! s = Some b ->
             is_Some (b !! k) -> k = objectKey).
  { intros ? ? ?. by rewrite lookup_empty. }
  revert Hacc s bucket k.
  generalize (∅ : gmap string (gmap string JS.value)).
  induction Hrows as [|r rows Hr _ IH]; intros acc Hacc s bucket k; cbn [fold_left].
  - apply Hacc.
  - apply IH. clear s bucket k. intros s b k. unfold bucketStep.
    assert (Hassign : forall b0 : gmap string JS.value,
              (is_Some (b0 !! k) -> k = objectKey) ->
              is_Some (assign b0 (row_object_key r) (bucketEntry r) !! k) ->
              k = objectKey).
    { intros b0 Hb0. rewrite lookup_assign.
      destruct (decide (k = row_object_key r)) as [->|Hnk]; [done|].
      exact Hb0. }
    destruct (acc !! row_serial r) as [b0|] eqn:Hb0.
    + destruct (decide (row_serial r = s)) as [<-|Hne].
      * rewrite lookup_insert_eq. intros [= <-]. apply Hassign.
        by apply (Hacc (row_serial r)).
      * rewrite lookup_insert_ne by done. apply Hacc.
    + destruct (inherited (row_serial r)); [apply Hacc|].
      destruct (decide (row_serial r = s)) as [<-|Hne].
      * rewrite lookup_insert_eq. intros [= <-]. apply Hassign.
        rewrite lookup_empty. by intros [? ?].
      * rewrite lookup_insert_ne by done. apply Hacc.
Qed.

(** What the scan reads under [.value] of that store is never a device
    value: the fields [away], [vacation_mode] and the timestamps are
    [undefined] there. *)
Lemma deviceState_value_field db serial bucket field :
  getAllStateForDevice db serial ("device." +:+ serial) !! "value" = Some bucket ->
  String.get 0 field <> Some "d"%char ->
  get bucket field = JUndef.
Proof.
  intros Hb Hfield. unfold get.
  destruct (bucket !! field) as [v|] eqn:Hv; [|done].
  assert (Hk : field = "device." +:+ serial).
  { by apply (getAllStateForDevice_keys db serial _ "value" bucket). }
  subst field. by destruct Hfield.
Qed.

Lemma scanDevices_nothingAway db ownedDevices acc :
  nothingAway acc ->
  nothingAway (scanDevices StringToNumber ArrayToNumber ToString db ownedDevices acc).
Proof.
  revert acc. induction ownedDevices as [|deviceOwner rest IH]; intros acc Hacc;
    [done|].
  cbn [scanDevices].
  destruct (getAllStateForDevice db (owner_serial deviceOwner)
              ("device." +:+ owner_serial deviceOwner) !! "value")
    as [bucket|] eqn:Hb; [|by apply IH].
  rewrite !(deviceState_value_field db (owner_serial deviceOwner) bucket) by done.
  destruct Hacc as (Hv & Ht & Hm & Hs & _).
  cbn. rewrite Hv, Ht, Hm, Hs. by cbn.
Qed.

(** Whatever the devices report, the reconciler computes "not away" and
    "no vacation mode". *)
Lemma updateUserAwayStatus_scan db ownedDevices :
  let scan := scanDevices StringToNumber ArrayToNumber ToString db ownedDevices
                initialScan in
  (if anyDeviceReported scan then allAway scan else false) = false
  /\ hasVacationMode scan = false.
Proof.
  destruct (scanDevices_nothingAway db ownedDevices initialScan)
    as (Hv & _ & _ & _ & Haway); [by repeat split|].
  cbn. split; [|done].
  destruct (anyDeviceReported _); [by apply Haway|done].
Qed.

(** C5 on the code. In S6 both devices report away, [B] in vacation mode,
    with away times 100 and 200; the reconciler writes [away: false] and
    [vacation_mode: false] without [away_timestamp] on both devices, at
    revision 1 over the stored revision 7. *)
Theorem updateUserAwayStatus_reports_not_away :
  let db := updateUserAwayStatus StringToNumber ArrayToNumber ToString
              5000 Scenario.twoDevicesAway "U" in
  let written :=
    Some {| object_key := "user.U"; object_revision := 1;
            object_timestamp := 5000;
            value := JObj {[ "name" := JStr "";
                             "away" := JBool false;
                             "vacation_mode" := JBool false ]} |} in
  getState db "A" "user.U" = written /\ getState db "B" "user.U" = written.
Proof. vm_compute. split; reflexivity. Qed.

End AwayFacts.

(** * Further properties of the modelled code *)

(** ** Deep merge and JSON storage *)

Section MergeAlgebra.

Implicit Types a b v : value.

Lemma mergeValues_scalar_incoming a b :
  b <> JUndef -> isObject b = false -> mergeValues a b = b.
Proof. by destruct b. Qed.

Lemma mergeValues_object_over_scalar a (inc : gmap string value) :
  isObject a = false -> mergeValues a (JObj inc) = JObj inc.
Proof. by destruct a. Qed.

(** Writing the same value a second time changes nothing. *)
Lemma mergeValues_absorbs a b :
  mergeValues (mergeValues a b) b = mergeValues a b.
Proof.
  remember (size b) as n eqn:Hn. revert a b Hn.
  induction (lt_wf n) as [n _ IH]. intros a b ->.
  assert (Hidem : forall v, (size v < size b)%nat -> mergeValues v v = v).
  { intros v Hv.
    pose proof (IH (size v) Hv JUndef v eq_refl) as H.
    by rewrite !mergeValues_undefined_current in H. }
  assert (Hself : forall inc : gmap string value,
             b = JObj inc -> mergeValues (JObj inc) (JObj inc) = JObj inc).
  { intros inc ->. rewrite mergeValues_objects. f_equal. apply map_eq. intros k.
    rewrite lookup_assign_loop. unfold get.
    destruct (inc !! k) as [v|] eqn:Hk; [|done]. cbn [default from_option id].
    rewrite Hidem by (by apply (size_lookup inc k)).
    by destruct (decide (k = "__proto__")). }
  destruct b as [| | | | |l|inc]; try (by destruct a).
  destruct a as [| | | | |l|cur]; try (by apply Hself).
  rewrite (mergeValues_objects cur inc).
  pose proof (lookup_assign_loop (fun key v => mergeValues (get cur key) v)
                cur inc) as Hm1.
  set (m1 := map_fold _ cur inc) in *.
  rewrite mergeValues_objects. f_equal. apply map_eq. intros k.
  rewrite lookup_assign_loop. unfold get at 1 2. rewrite !(Hm1 k).
  destruct (inc !! k) as [v|] eqn:Hk; [|done].
  pose proof (IH (size v) (size_lookup inc k v Hk) (get cur k) v eq_refl) as Hv.
  destruct (decide (k = "__proto__")); [destruct (cur !! k)|];
    cbn [default from_option id]; by rewrite ?Hv.
Qed.

(** Merging JSON-shaped values gives a JSON-shaped value; the current side
    may also be absent. *)
Lemma mergeValues_jsonShaped a b :
  a = JUndef \/ jsonShaped a = true ->
  jsonShaped b = true ->
  jsonShaped (mergeValues a b) = true.
Proof.
  remember (size b) as n eqn:Hn. revert a b Hn.
  induction (lt_wf n) as [n _ IH]. intros a b -> Ha Hb.
  destruct b as [| | | | |l|inc]; try (by destruct a).
  destruct a as [| | | | |l|cur]; try done.
  rewrite mergeValues_objects.
  change (jsonShaped (JObj ?m))
    with (map_fold (fun _ x acc => jsonShaped x && acc) true m).
  apply map_fold_andb_true. intros k x. rewrite lookup_assign_loop.
  change (jsonShaped (JObj inc))
    with (map_fold (fun _ x acc => jsonShaped x && acc) true inc) in Hb.
  rewrite map_fold_andb_true in Hb.
  destruct Ha as [Ha|Ha]; [done|].
  change (jsonShaped (JObj cur))
    with (map_fold (fun _ x acc => jsonShaped x && acc) true cur) in Ha.
  rewrite map_fold_andb_true in Ha.
  destruct (inc !! k) as [v|] eqn:Hk.
  - assert (Hmerged : jsonShaped (mergeValues (get cur k) v) = true).
    { apply (IH (size v)); [by apply (size_lookup inc k)|done| |by apply (Hb k)].
      unfold get. destruct (cur !! k) as [c|] eqn:Hc; [right; by apply (Ha k)|by left]. }
    destruct (decide (k = "__proto__")); [destruct (cur !! k)|];
      [by intros [= <-]|done|by intros [= <-]].
  - apply Ha.
Qed.

Lemma undefined_or_not v : v = JUndef \/ v <> JUndef.
Proof. destruct v; try (by right); by left. Qed.

(** What [JSON.stringify] and [JSON.parse] give back holds no
    [undefined]. *)
Lemma jsonRoundTrip_jsonShaped v :
  v <> JUndef -> jsonShaped (jsonRoundTrip v) = true.
Proof.
  remember (size v) as n eqn:Hn. revert v Hn.
  induction (lt_wf n) as [n _ IH]. intros v -> Hv.
  destruct v as [| | | | |l|m]; try done.
  - change (jsonRoundTrip (JArr l))
      with (JArr (map (fun x => match x with
                                | JUndef => JNull
                                | _ => jsonRoundTrip x
                                end) l)).
    change (jsonShaped (JArr ?l)) with (forallb jsonShaped l).
    apply forallb_forall. intros y [x [<- Hx]]%in_map_iff.
    apply list_elem_of_In in Hx.
    destruct (undefined_or_not x) as [->|Hne]; [done|].
    replace (match x with JUndef => JNull | _ => jsonRoundTrip x end)
      with (jsonRoundTrip x) by (by destruct x).
    apply (IH (size x)); [by apply size_elem|done|done].
  - change (jsonRoundTrip (JObj m))
      with (JObj (omap (fun x => match x with
                                 | JUndef => None
                                 | _ => Some (jsonRoundTrip x)
                                 end) m)).
    change (jsonShaped (JObj ?m))
      with (map_fold (fun _ x acc => jsonShaped x && acc) true m).
    apply map_fold_andb_true. intros k y. rewrite lookup_omap.
    destruct (m !! k) as [x|] eqn:Hk; [|done]. simpl.
    destruct (undefined_or_not x) as [->|Hne]; [done|].
    replace (match x with JUndef => None | _ => Some (jsonRoundTrip x) end)
      with (Some (jsonRoundTrip x)) by (by destruct x).
    intros [= <-]. apply (IH (size x)); [by apply (size_lookup m k)|done|done].
Qed.

Lemma storedJson_jsonShaped v : jsonShaped (storedJson v) = true.
Proof.
  destruct (undefined_or_not v) as [->|Hne]; [done|].
  replace (storedJson v) with (jsonRoundTrip v) by (by destruct v).
  by apply jsonRoundTrip_jsonShaped.
Qed.

End MergeAlgebra.

(** ** Store invariants *)

Section StoreInvariants.
Import SQLite3Service.

Implicit Types db : Database.
Implicit Types rows : list StateRow.

Lemma matches_true serial objectKey r :
  matches serial objectKey r = true <-> rowKey r = (serial, objectKey).
Proof.
  unfold matches, rowKey.
  rewrite andb_true_iff, !bool_decide_eq_true. split.
  - by intros [-> ->].
  - by intros [= -> ->].
Qed.

Lemma rowKey_sqlUpdate serial objectKey revision timestamp json now rows :
  rowKey <$> sqlUpdate serial objectKey revision timestamp json now rows
  = rowKey <$> rows.
Proof.
  unfold sqlUpdate. induction rows as [|r rows IH]; [done|].
  cbn [map]. rewrite !fmap_cons, IH. f_equal.
  by destruct (matches serial objectKey r).
Qed.

Lemma filter_other_sqlUpdate serial objectKey revision timestamp json now
    serial' objectKey' rows :
  (serial', objectKey') <> (serial, objectKey) ->
  filter (fun r => matches serial' objectKey' r = true)
         (sqlUpdate serial objectKey revision timestamp json now rows)
  = filter (fun r => matches serial' objectKey' r = true) rows.
Proof.
  intros Hne. unfold sqlUpdate. induction rows as [|r rows IH]; [done|].
  cbn [map]. rewrite !filter_cons, IH.
  destruct (matches serial objectKey r) eqn:Hr; [|done].
  apply matches_true in Hr.
  rewrite !decide_False; [done| |].
  - rewrite matches_true. congruence.
  - rewrite matches_true. unfold rowKey in *. simpl. congruence.
Qed.

Lemma filter_matches_None serial objectKey rows :
  head (filter (fun r => matches serial objectKey r = true) rows) = None
  <-> (serial, objectKey) ∉ rowKey <$> rows.
Proof.
  induction rows as [|r rows IH].
  - split; [intros _; apply not_elem_of_nil|done].
  - rewrite filter_cons, fmap_cons, not_elem_of_cons.
    destruct (decide (matches serial objectKey r = true)) as [Hr|Hr].
    + split; [done|]. apply matches_true in Hr. by intros [? _].
    + rewrite IH. rewrite matches_true in Hr. split; [|by intros [_ ?]].
      intros ?. split; [congruence|done].
Qed.

Lemma sqlUpdate_no_match serial objectKey revision timestamp json now rows :
  head (filter (fun r => matches serial objectKey r = true) rows) = None ->
  sqlUpdate serial objectKey revision timestamp json now rows = rows.
Proof.
  unfold sqlUpdate. induction rows as [|r rows IH]; [done|].
  rewrite filter_cons. cbn [map].
  destruct (decide (matches serial objectKey r = true)) as [Hr|Hr]; [done|].
  intros H. rewrite (IH H). by destruct (matches serial objectKey r).
Qed.

Lemma sqlUpdate_twice serial objectKey revision timestamp json now rows :
  sqlUpdate serial objectKey revision timestamp json now
    (sqlUpdate serial objectKey revision timestamp json now rows)
  = sqlUpdate serial objectKey revision timestamp json now rows.
Proof.
  unfold sqlUpdate. rewrite map_map. apply map_ext. intros r.
  destruct (matches serial objectKey r) eqn:Hr.
  - by rewrite matches_sqlUpdate.
  - by rewrite Hr.
Qed.

(** With one row per key, the rows of a key are the row [storedRow]
    finds. *)
Lemma filter_matches_unique db serial objectKey :
  oneRowPerKey db ->
  filter (fun r => matches serial objectKey r = true) (states db)
  = option_list (storedRow db serial objectKey).
Proof.
  unfold oneRowPerKey, storedRow. induction (states db) as [|r rows IH]; [done|].
  rewrite fmap_cons, NoDup_cons. intros [Hr Hnd]. rewrite filter_cons.
  destruct (decide (matches serial objectKey r = true)) as [Hm|Hm].
  - apply matches_true in Hm. rewrite Hm in Hr.
    apply filter_matches_None in Hr. simpl.
    by destruct (filter _ rows).
  - by apply IH.
Qed.

(** *** One write *)

Lemma upsertState_other_tables now db serial objectKey revision timestamp v :
  deviceOwners (upsertState now db serial objectKey revision timestamp v)
  = deviceOwners db
  /\ deviceShares (upsertState now db serial objectKey revision timestamp v)
     = deviceShares db.
Proof.
  rewrite !upsertState_unfold. by destruct (getState db serial objectKey).
Qed.

Lemma upsertState_other_key now db serial objectKey revision timestamp v
    serial' objectKey' :
  (serial', objectKey') <> (serial, objectKey) ->
  filter (fun r => matches serial' objectKey' r = true)
    (states (upsertState now db serial objectKey revision timestamp v))
  = filter (fun r => matches serial' objectKey' r = true) (states db).
Proof.
  intros Hne. rewrite upsertState_unfold.
  destruct (getState db serial objectKey); cbn [states withStates].
  - by apply filter_other_sqlUpdate.
  - unfold sqlInsert. rewrite filter_app, filter_cons, decide_False, app_nil_r;
      [done|].
    rewrite matches_true. unfold rowKey. simpl. congruence.
Qed.

Lemma upsertState_other_getState now db serial objectKey revision timestamp v
    serial' objectKey' :
  (serial', objectKey') <> (serial, objectKey) ->
  getState (upsertState now db serial objectKey revision timestamp v)
    serial' objectKey'
  = getState db serial' objectKey'.
Proof.
  intros Hne. unfold getState.
  by rewrite (upsertState_other_key now db serial objectKey revision timestamp
                v serial' objectKey' Hne).
Qed.

Lemma upsertState_oneRowPerKey now db serial objectKey revision timestamp v :
  oneRowPerKey db ->
  oneRowPerKey (upsertState now db serial objectKey revision timestamp v).
Proof.
  unfold oneRowPerKey. rewrite upsertState_unfold, getState_storedRow.
  destruct (storedRow db serial objectKey) as [row|] eqn:Hrow;
    cbn [fmap option_fmap option_map states withStates].
  - by rewrite rowKey_sqlUpdate.
  - intros Hnd. unfold sqlInsert. rewrite fmap_app. apply NoDup_app.
    split; [done|]. split; [|apply NoDup_singleton].
    intros x Hx Hx'. apply list_elem_of_singleton in Hx' as ->.
    by apply (filter_matches_None serial objectKey (states db)) in Hrow.
Qed.

Lemma upsertState_jsonStore now db serial objectKey revision timestamp v :
  jsonStore db ->
  jsonStore (upsertState now db serial objectKey revision timestamp v).
Proof.
  unfold jsonStore. rewrite upsertState_unfold.
  destruct (getState db serial objectKey); cbn [states withStates]; intros H.
  - unfold sqlUpdate. apply Forall_forall.
    intros r [r0 [<- Hr0]]%list_elem_of_In%in_map_iff.
    destruct (matches serial objectKey r0).
    + apply storedJson_jsonShaped.
    + rewrite Forall_forall in H. by apply H, list_elem_of_In.
  - unfold sqlInsert. apply Forall_app. split; [done|].
    apply Forall_singleton. apply storedJson_jsonShaped.
Qed.

End StoreInvariants.

Section StoreTheorems.
Import SQLite3Service.

Lemma mergeValues_defined c v :
  v <> JNull -> v <> JUndef ->
  mergeValues c v <> JNull /\ mergeValues c v <> JUndef.
Proof. by destruct v, c. Qed.

Lemma nullish_defined v d : v <> JNull -> v <> JUndef -> nullish v d = v.
Proof. by destruct v. Qed.

Lemma jsonShaped_defined v : jsonShaped v = true -> v <> JUndef.
Proof. by destruct v. Qed.

Lemma nullish_jsonShaped v :
  jsonShaped v = true -> jsonShaped (nullish v (JObj ∅)) = true.
Proof. by destruct v. Qed.

Lemma jsonStore_storedRow db serial objectKey row :
  jsonStore db -> storedRow db serial objectKey = Some row ->
  jsonShaped (row_value row) = true.
Proof.
  unfold jsonStore, storedRow. intros Hall Hrow.
  rewrite Forall_forall in Hall. apply Hall.
  apply head_Some_elem_of in Hrow.
  by apply list_elem_of_filter in Hrow as [_ ?].
Qed.

Lemma applyWrites_cons w ws db :
  applyWrites (w :: ws) db = applyWrites ws (applyWrite db w).
Proof. reflexivity. Qed.

End StoreTheorems.

(** X1. Deep-merging the same incoming value a second time changes
    nothing; in particular a value merged with itself is itself. *)
Theorem mergeValues_redelivery (a b : value) :
  mergeValues (mergeValues a b) b = mergeValues a b
  /\ mergeValues b b = b.
Proof.
  split; [apply mergeValues_absorbs|].
  pose proof (mergeValues_absorbs JUndef b) as H.
  by rewrite !mergeValues_undefined_current in H.
Qed.

(** Deep merge is not associative: merging a scalar in between
    forgets what the first mapping held under the key, so batching two
    writes before applying them differs from applying them in turn. *)
Theorem mergeValues_not_associative :
  ~ (forall a b c : value,
        jsonShaped a = true -> jsonShaped b = true -> jsonShaped c = true ->
        mergeValues (mergeValues a b) c = mergeValues a (mergeValues b c)).
Proof.
  intros H.
  specialize (H (JObj {[ "x" := JObj {[ "p" := JNum 1 ]} ]})
                (JObj {[ "x" := JNum 5 ]})
                (JObj {[ "x" := JObj {[ "q" := JNum 2 ]} ]})
                eq_refl eq_refl eq_refl).
  vm_compute in H. discriminate H.
Qed.

(** Writes made one at a time keep JSON-shaped values and one row per
    key, and leave the ownership and share tables alone. *)
Lemma applyWrites_invariants (ws : list Write) (db : SQLite3Service.Database) :
  oneRowPerKey db -> jsonStore db ->
  oneRowPerKey (applyWrites ws db)
  /\ jsonStore (applyWrites ws db)
  /\ SQLite3Service.deviceOwners (applyWrites ws db)
     = SQLite3Service.deviceOwners db
  /\ SQLite3Service.deviceShares (applyWrites ws db)
     = SQLite3Service.deviceShares db.
Proof.
  revert db. induction ws as [|w ws IH]; intros db Hone Hjson; [done|].
  rewrite applyWrites_cons.
  destruct (IH (applyWrite db w)) as (H1 & H2 & H3 & H4).
  - by apply upsertState_oneRowPerKey.
  - by apply upsertState_jsonStore.
  - destruct (upsertState_other_tables (write_now w) db (write_serial w)
                (write_objectKey w) (write_revision w) (write_timestamp w)
                (write_value w)) as [Ho Hs].
    repeat split; try done.
    + rewrite H3. apply Ho.
    + rewrite H4. apply Hs.
Qed.

(** X3. A write to one key leaves every other key as it was: the same
    row, the same [getState], the same [getAllStateForDevice]. *)
Theorem upsertState_frame (now : Z) (db : SQLite3Service.Database)
    (serial objectKey : string) (revision timestamp : Z) (v : value)
    (serial' objectKey' : string) :
  (serial', objectKey') <> (serial, objectKey) ->
  let db' := SQLite3Service.upsertState now db serial objectKey revision
               timestamp v in
  SQLite3Service.storedRow db' serial' objectKey'
  = SQLite3Service.storedRow db serial' objectKey'
  /\ SQLite3Service.getState db' serial' objectKey'
     = SQLite3Service.getState db serial' objectKey'
  /\ SQLite3Service.getAllStateForDevice db' serial' objectKey'
     = SQLite3Service.getAllStateForDevice db serial' objectKey'.
Proof.
  intros Hne db'.
  pose proof (upsertState_other_key now db serial objectKey revision timestamp
                v serial' objectKey' Hne) as Hf.
  fold db' in Hf.
  unfold SQLite3Service.storedRow, SQLite3Service.getState,
    SQLite3Service.getAllStateForDevice.
  by rewrite Hf.
Qed.

Lemma upsertState_frame_witness :
  SQLite3Service.getState
    (applyWrite Scenario.afterFirstWrite Scenario.sharedWrite) "A" "device.A"
  = SQLite3Service.getState Scenario.afterFirstWrite "A" "device.A".
Proof.
  apply (upsertState_frame Scenario.now Scenario.afterFirstWrite
           "A" "shared.A" 1 1200 (JObj {[ "target_temperature" := JNum 22 ]})
           "A" "device.A").
  discriminate.
Defined.

(** A write made again once its statement has run changes no row. *)
Lemma upsertState_again (now : Z) (db : SQLite3Service.Database)
    (serial objectKey : string) (revision timestamp : Z) (v : value) :
  jsonStore db -> jsonShaped v = true -> v <> JNull ->
  let once := SQLite3Service.upsertState now db serial objectKey revision
                timestamp v in
  SQLite3Service.upsertState now once serial objectKey revision timestamp v
  = once.
Proof.
  intros Hjson Hv Hnull once.
  pose proof (jsonShaped_defined v Hv) as Hdef.
  destruct (SQLite3Service.storedRow db serial objectKey) as [row|] eqn:Hrow.
  - pose proof (upsertState_existing now db serial objectKey revision timestamp
                  v row Hrow) as Hrow1. fold once in Hrow1.
    assert (Hshaped : jsonShaped
              (mergeValues (nullish (SQLite3Service.row_value row) (JObj ∅)) v)
            = true).
    { apply mergeValues_jsonShaped; [right|done].
      apply nullish_jsonShaped. by apply (jsonStore_storedRow db serial objectKey). }
    rewrite (nullish_defined v) in Hrow1 by done.
    rewrite storedJson_shaped in Hrow1 by done.
    rewrite upsertState_unfold.
    rewrite getState_storedRow, Hrow1. cbn [fmap option_fmap option_map].
    cbn [SQLite3Service.rowObject SQLite3Service.value
         SQLite3Service.row_value].
    destruct (mergeValues_defined
                (nullish (SQLite3Service.row_value row) (JObj ∅)) v Hnull Hdef)
      as [Hm1 Hm2].
    rewrite (nullish_defined (mergeValues _ v)) by done.
    rewrite (nullish_defined v) by done.
    rewrite mergeValues_absorbs, storedJson_shaped by done.
    subst once. rewrite upsertState_unfold.
    rewrite getState_storedRow, Hrow. cbn [fmap option_fmap option_map].
    cbn [SQLite3Service.rowObject SQLite3Service.value
         SQLite3Service.states SQLite3Service.withStates
         SQLite3Service.deviceOwners SQLite3Service.deviceShares].
    rewrite (nullish_defined v) by done.
    rewrite (storedJson_shaped (mergeValues _ v)) by done.
    unfold SQLite3Service.withStates. cbn. by rewrite sqlUpdate_twice.
  - pose proof (upsertState_fresh now db serial objectKey revision timestamp
                  v Hrow) as Hrow1. fold once in Hrow1.
    rewrite storedJson_shaped in Hrow1 by done.
    rewrite upsertState_unfold.
    rewrite getState_storedRow, Hrow1. cbn [fmap option_fmap option_map].
    cbn [SQLite3Service.rowObject SQLite3Service.value
         SQLite3Service.row_value].
    rewrite !(nullish_defined v) by done.
    pose proof (mergeValues_absorbs JUndef v) as Hself.
    rewrite !mergeValues_undefined_current in Hself.
    rewrite Hself, storedJson_shaped by done.
    subst once. rewrite upsertState_unfold.
    rewrite getState_storedRow, Hrow. cbn [fmap option_fmap option_map].
    unfold SQLite3Service.withStates.
    cbn [SQLite3Service.states SQLite3Service.deviceOwners
         SQLite3Service.deviceShares].
    f_equal. rewrite storedJson_shaped by done.
    unfold SQLite3Service.sqlInsert, SQLite3Service.sqlUpdate.
    rewrite map_app. fold (SQLite3Service.sqlUpdate serial objectKey revision
                             timestamp v now (SQLite3Service.states db)).
    rewrite sqlUpdate_no_match by done. f_equal. cbn [map].
    unfold SQLite3Service.matches. cbn.
    by rewrite !bool_decide_eq_true_2.
Qed.

Section StoreReads.
Import SQLite3Service.

Lemma storedRow_key db serial objectKey row :
  storedRow db serial objectKey = Some row ->
  row_serial row = serial /\ row_object_key row = objectKey.
Proof.
  unfold storedRow. intros H%head_Some_elem_of.
  apply list_elem_of_filter in H as [Hm _].
  apply matches_true in Hm. by injection Hm.
Qed.

(** The loop [for row of rows: result[key(row)] = f(row)] over rows with
    distinct keys, read key by key. *)
Lemma lookup_rows_loop {A} (key : StateRow -> string) (f : StateRow -> A)
    (rows : list StateRow) (acc : gmap string A) k :
  NoDup (key <$> rows) ->
  acc !! "__proto__" = None ->
  fold_left (fun acc r => assign acc (key r) (f r)) rows acc !! k
  = if decide (k = "__proto__") then None
    else match head (filter (fun r => key r = k) rows) with
         | Some r => Some (f r)
         | None => acc !! k
         end.
Proof.
  revert acc. induction rows as [|r rows IH]; intros acc.
  { intros _ Hacc. cbn [fold_left]. destruct (decide (k = "__proto__")) as [->|];
      [done|]. by rewrite filter_nil. }
  rewrite fmap_cons, NoDup_cons. intros [Hr Hnd] Hacc.
  cbn [fold_left]. rewrite IH; [|done|].
  2:{ rewrite lookup_assign. destruct (decide ("__proto__" = key r)) as [<-|];
        [|done]. rewrite decide_True by done. by rewrite Hacc. }
  destruct (decide (k = "__proto__")) as [Hk|Hk]; [done|].
  rewrite filter_cons.
  destruct (decide (key r = k)) as [<-|Hne].
  - assert (Hnone : filter (fun r0 => key r0 = key r) rows = []).
    { destruct (filter _ rows) as [|r0 rest] eqn:Hf; [done|].
      assert (Hin : r0 ∈ filter (fun r0 => key r0 = key r) rows)
        by (rewrite Hf; by left).
      apply list_elem_of_filter in Hin as [Hk' Hin].
      destruct Hr. rewrite <- Hk'. by apply list_elem_of_fmap_2. }
    rewrite Hnone. cbn [head]. rewrite lookup_assign.
    rewrite decide_True by done. by rewrite decide_False by done.
  - destruct (head (filter _ rows)); [done|].
    rewrite lookup_assign. by rewrite decide_False by done.
Qed.

Lemma oneRowPerKey_serial db serial :
  oneRowPerKey db ->
  NoDup (row_object_key <$> filter (fun r => row_serial r = serial) (states db)).
Proof.
  unfold oneRowPerKey. induction (states db) as [|r rows IH]; [intros _; apply NoDup_nil_2|].
  rewrite fmap_cons, NoDup_cons. intros [Hr Hnd]. rewrite filter_cons.
  destruct (decide (row_serial r = serial)) as [Hs|Hs]; [|by apply IH].
  rewrite fmap_cons. apply NoDup_cons. split; [|by apply IH].
  intros [r' [Hk Hin]]%list_elem_of_fmap.
  apply list_elem_of_filter in Hin as [Hs' Hin].
  apply Hr. apply list_elem_of_fmap. exists r'. split; [|done].
  unfold rowKey. congruence.
Qed.

End StoreReads.

(** The value under a key after writes made one at a time. *)
Lemma applyWrites_fold (ws : list Write) (db : SQLite3Service.Database)
    (serial objectKey : string) (current : SQLite3Service.DeviceObject) :
  jsonStore db ->
  SQLite3Service.getState db serial objectKey = Some current ->
  SQLite3Service.value current <> JNull ->
  Forall (fun w => jsonShaped (write_value w) = true /\ write_value w <> JNull)
         (writesTo serial objectKey ws) ->
  SQLite3Service.value
    <$> SQLite3Service.getState (applyWrites ws db) serial objectKey
  = Some (fold_left mergeValues
            (write_value <$> writesTo serial objectKey ws)
            (SQLite3Service.value current)).
Proof.
  revert db current. induction ws as [|w ws IH];
    intros db current Hjson Hcur Hnull Hws.
  { change (applyWrites [] db) with db. by rewrite Hcur. }
  rewrite applyWrites_cons. unfold writesTo in *. rewrite filter_cons in Hws |- *.
  destruct (decide ((write_serial w, write_objectKey w) = (serial, objectKey)))
    as [Hw|Hw].
  - injection Hw as Hs Hk.
    apply Forall_cons in Hws as [[Hv Hvnull] Hws].
    rewrite getState_storedRow in Hcur.
    destruct (SQLite3Service.storedRow db serial objectKey) as [row|] eqn:Hrow;
      [|done].
    injection Hcur as <-.
    pose proof (jsonStore_storedRow db serial objectKey row Hjson Hrow) as Hrv.
    cbn [SQLite3Service.rowObject SQLite3Service.value] in Hnull |- *.
    pose proof (jsonShaped_defined _ Hrv) as Hrdef.
    pose proof (jsonShaped_defined _ Hv) as Hvdef.
    pose proof (upsertState_existing (write_now w) db serial objectKey
                  (write_revision w) (write_timestamp w) (write_value w)
                  row Hrow) as Hnew.
    rewrite !nullish_defined in Hnew by done.
    rewrite storedJson_shaped in Hnew
      by (apply mergeValues_jsonShaped; [by right|done]).
    rewrite fmap_cons. cbn [fold_left].
    unfold applyWrite. rewrite Hs, Hk.
    set (db1 := SQLite3Service.upsertState _ _ _ _ _ _ _) in *.
    rewrite (IH db1 (SQLite3Service.rowObject
                       {| SQLite3Service.row_serial := SQLite3Service.row_serial row;
                          SQLite3Service.row_object_key := SQLite3Service.row_object_key row;
                          SQLite3Service.row_object_revision := write_revision w;
                          SQLite3Service.row_object_timestamp := write_timestamp w;
                          SQLite3Service.row_value :=
                            mergeValues (SQLite3Service.row_value row) (write_value w);
                          SQLite3Service.row_updatedAt := write_now w |})).
    + done.
    + by apply upsertState_jsonStore.
    + by rewrite getState_storedRow, Hnew.
    + by apply mergeValues_defined.
    + done.
  - assert (Hne : (serial, objectKey) <> (write_serial w, write_objectKey w))
      by congruence.
    pose proof (upsertState_other_getState (write_now w) db (write_serial w)
                  (write_objectKey w) (write_revision w) (write_timestamp w)
                  (write_value w) serial objectKey Hne) as Hget.
    apply (IH (applyWrite db w) current); try done.
    + by apply upsertState_jsonStore.
    + unfold applyWrite. by rewrite Hget.
Qed.

(** The same for a key that has no row: the first write to it is stored
    as it comes. *)
Lemma applyWrites_fold_fresh (ws : list Write) (db : SQLite3Service.Database)
    (serial objectKey : string) :
  jsonStore db ->
  SQLite3Service.getState db serial objectKey = None ->
  Forall (fun w => jsonShaped (write_value w) = true /\ write_value w <> JNull)
         (writesTo serial objectKey ws) ->
  SQLite3Service.value
    <$> SQLite3Service.getState (applyWrites ws db) serial objectKey
  = match writesTo serial objectKey ws with
    | [] => None
    | writes => Some (fold_left mergeValues (write_value <$> writes) JUndef)
    end.
Proof.
  revert db. induction ws as [|w ws IH]; intros db Hjson Hcur Hws.
  { change (applyWrites [] db) with db. by rewrite Hcur. }
  rewrite applyWrites_cons. unfold writesTo in *. rewrite filter_cons in Hws |- *.
  destruct (decide ((write_serial w, write_objectKey w) = (serial, objectKey)))
    as [Hw|Hw].
  - injection Hw as Hs Hk.
    apply Forall_cons in Hws as [[Hv Hvnull] Hws].
    rewrite getState_storedRow in Hcur.
    destruct (SQLite3Service.storedRow db serial objectKey) as [row|] eqn:Hrow;
      [done|].
    pose proof (upsertState_fresh (write_now w) db serial objectKey
                  (write_revision w) (write_timestamp w) (write_value w)
                  Hrow) as Hnew.
    rewrite storedJson_shaped in Hnew by done.
    rewrite fmap_cons. cbn [fold_left].
    rewrite mergeValues_undefined_current.
    unfold applyWrite. rewrite Hs, Hk.
    set (db1 := SQLite3Service.upsertState _ _ _ _ _ _ _) in *.
    apply (applyWrites_fold ws db1 serial objectKey
             (SQLite3Service.rowObject
                {| SQLite3Service.row_serial := serial;
                   SQLite3Service.row_object_key := objectKey;
                   SQLite3Service.row_object_revision := write_revision w;
                   SQLite3Service.row_object_timestamp := write_timestamp w;
                   SQLite3Service.row_value := write_value w;
                   SQLite3Service.row_updatedAt := write_now w |})).
    + by apply upsertState_jsonStore.
    + by rewrite getState_storedRow, Hnew.
    + done.
    + done.
  - assert (Hne : (serial, objectKey) <> (write_serial w, write_objectKey w))
      by congruence.
    pose proof (upsertState_other_getState (write_now w) db (write_serial w)
                  (write_objectKey w) (write_revision w) (write_timestamp w)
                  (write_value w) serial objectKey Hne) as Hget.
    apply (IH (applyWrite db w)); try done.
    + by apply upsertState_jsonStore.
    + unfold applyWrite. by rewrite Hget.
Qed.

(** X6. With one row per key and a serial that is no inherited property
    name, [getAllStateForDevice(serial, key)] is the stored object nested
    under the serial and the object key, [{serial: {key: object}}], not
    the object itself; when nothing is stored it is empty, and at the
    object key [__proto__] the bucket of the serial is empty. *)
Theorem getAllStateForDevice_shape (db : SQLite3Service.Database)
    (serial objectKey : string) :
  oneRowPerKey db ->
  inherited serial = false ->
  SQLite3Service.getAllStateForDevice db serial objectKey
  = match SQLite3Service.storedRow db serial objectKey with
    | Some row =>
        {[ serial := if decide (objectKey = "__proto__") then ∅
                     else {[ objectKey := SQLite3Service.bucketEntry row ]} ]}
    | None => ∅
    end.
Proof.
  intros Hone Hserial. unfold SQLite3Service.getAllStateForDevice.
  rewrite filter_matches_unique by done.
  destruct (SQLite3Service.storedRow db serial objectKey) as [row|] eqn:Hrow;
    [|done].
  apply storedRow_key in Hrow as [Hs Hk].
  change (option_list (Some row)) with [row]. cbn [fold_left].
  unfold SQLite3Service.bucketStep. rewrite Hs, Hk, lookup_empty, Hserial.
  rewrite insert_empty. f_equal. unfold assign. rewrite lookup_empty.
  destruct (decide (objectKey = "__proto__")) as [->|Hne].
  - by rewrite bool_decide_eq_true_2.
  - rewrite bool_decide_eq_false_2 by done. by rewrite insert_empty.
Qed.

Lemma getAllStateForDevice_shape_witness :
  SQLite3Service.getAllStateForDevice Scenario.afterFirstWrite "A" "device.A"
  = {[ "A" := {[ "device.A" :=
         SQLite3Service.bucketEntry
           {| SQLite3Service.row_serial := "A";
              SQLite3Service.row_object_key := "device.A";
              SQLite3Service.row_object_revision := 1;
              SQLite3Service.row_object_timestamp := 1000;
              SQLite3Service.row_value := JObj Scenario.fanRunning;
              SQLite3Service.row_updatedAt := Scenario.now |} ]} ]}.
Proof.
  rewrite (getAllStateForDevice_shape Scenario.afterFirstWrite "A" "device.A").
  - reflexivity.
  - apply upsertState_oneRowPerKey. apply NoDup_nil_2.
  - reflexivity.
Defined.

(** X7. With one row per key, [getDeviceState(serial)] holds, under each
    object key other than [__proto__], exactly the object stored for that
    serial and key, with the serial filled in, and nothing under a key the
    device has no object for; under [__proto__] it holds nothing, stored
    or not. *)
Theorem getDeviceState_lookup (db : SQLite3Service.Database)
    (serial objectKey : string) :
  oneRowPerKey db ->
  SQLite3Service.getDeviceState db serial !! objectKey
  = if decide (objectKey = "__proto__") then None
    else SQLite3Service.deviceStateEntry serial
           <$> SQLite3Service.storedRow db serial objectKey.
Proof.
  intros Hone. unfold SQLite3Service.getDeviceState.
  rewrite (lookup_rows_loop SQLite3Service.row_object_key
             (SQLite3Service.deviceStateEntry serial));
    [|by apply oneRowPerKey_serial|apply lookup_empty].
  destruct (decide (objectKey = "__proto__")); [done|].
  rewrite list_filter_filter, lookup_empty.
  unfold SQLite3Service.storedRow.
  rewrite (list_filter_iff _ (fun r => SQLite3Service.matches serial objectKey r = true)).
  - by destruct (head _).
  - intros r. rewrite matches_true. unfold rowKey. split.
    + by intros [-> ->].
    + by intros [= -> ->].
Qed.

(** After the first write of [device.A], the device state of [A] holds it
    under [device.A]. *)
Lemma getDeviceState_lookup_witness :
  SQLite3Service.getDeviceState Scenario.afterFirstWrite "A" !! "device.A"
  = SQLite3Service.deviceStateEntry "A"
      <$> SQLite3Service.storedRow Scenario.afterFirstWrite "A" "device.A".
Proof.
  rewrite (getDeviceState_lookup Scenario.afterFirstWrite "A" "device.A").
  - reflexivity.
  - apply upsertState_oneRowPerKey. apply NoDup_nil_2.
Defined.

(** X8. Applying the preservation twice with the same existing state is
    applying it once. *)
Theorem preserveFanTimer_idempotent (now : Z)
    (merged existing : gmap string value) :
  FanTimer.preserveFanTimer now
    (FanTimer.preserveFanTimer now merged existing) existing
  = FanTimer.preserveFanTimer now merged existing.
Proof.
  unfold FanTimer.preserveFanTimer at 2 3.
  destruct (FanTimer.shouldPreserveFanTimer now existing merged) eqn:H1; simpl.
  - unfold FanTimer.preserveFanTimer.
    destruct (FanTimer.shouldPreserveFanTimer now existing
                (spread merged (FanTimer.extractFanTimerState existing)));
      simpl; [|done].
    unfold spread. rewrite (assoc (∪)). by rewrite (idemp (∪)).
  - unfold FanTimer.preserveFanTimer. by rewrite H1.
Qed.

(** ** Availability watchdog: what the handler is told *)

Section WatchdogNotifications.
Import AvailabilityMap DeviceAvailabilityWatchdog WatchdogSpec.

Implicit Types m : AvailabilityMap.t.
Implicit Types w : Watchdog.
Implicit Types s : string.
Implicit Types out : list Notification.

Lemma about_app s out1 out2 : about s (out1 ++ out2) = about s out1 ++ about s out2.
Proof. unfold about. by rewrite filter_app, fmap_app. Qed.

Lemma about_notify w s s' b :
  onAvailabilityChange w = true ->
  about s (notifyAvailabilityChange w s' b) = if decide (s' = s) then [b] else [].
Proof.
  intros Hh. unfold notifyAvailabilityChange, about. rewrite Hh, filter_cons.
  cbn [fst]. by destruct (decide (s' = s)).
Qed.

Lemma markSeen_about now a w s :
  onAvailabilityChange w = true ->
  about s (markSeen now a w).2
  = if decide (a = s)
    then (if getAvailability w s then [] else [true])
    else [].
Proof.
  intros Hh. unfold markSeen, getAvailability.
  destruct (decide (a = s)) as [->|Hne].
  - destruct (get (deviceStates w) s) as [st|]; [destruct (isAvailable st)|];
      cbn [snd negb]; rewrite ?about_notify by done; by rewrite ?decide_True.
  - destruct (get (deviceStates w) a) as [st|]; [destruct (isAvailable st)|];
      cbn [snd negb]; rewrite ?about_notify by done; by rewrite ?decide_False.
Qed.

Lemma markSeen_getAvailability now a w s :
  getAvailability (markSeen now a w).1 s
  = if decide (a = s) then true else getAvailability w s.
Proof.
  rewrite !getAvailability_status, markSeen_status. by destruct (decide (a = s)).
Qed.

Lemma keepAlive_fold_about now activeSerials w out s :
  onAvailabilityChange w = true ->
  about s (fold_left (keepAlive now) activeSerials (w, out)).2
  = about s out
    ++ (if decide (s ∈ activeSerials)
        then (if getAvailability w s then [] else [true])
        else []).
Proof.
  revert w out. induction activeSerials as [|a act IH]; intros w out Hh.
  - cbn [fold_left snd]. rewrite decide_False by apply not_elem_of_nil.
    by rewrite app_nil_r.
  - cbn [fold_left]. rewrite keepAlive_markSeen.
    rewrite IH by (by rewrite markSeen_handler).
    rewrite about_app, markSeen_about, markSeen_getAvailability by done.
    rewrite <- app_assoc. f_equal.
    destruct (decide (a = s)) as [->|Hne].
    + rewrite (decide_True (P := s ∈ s :: act)) by (by left).
      destruct (decide (s ∈ act)); by rewrite ?app_nil_r.
    + cbn [app]. destruct (decide (s ∈ act)) as [Hin|Hnin].
      * rewrite decide_True; [done|by right].
      * rewrite decide_False; [done|]. rewrite not_elem_of_cons. by split.
Qed.

Lemma timeoutPass_about w now m s :
  NoDup m.*1 ->
  onAvailabilityChange w = true ->
  about s (timeoutPass w now m).2
  = if timesOut now ((fun st => (lastSeen st, isAvailable st)) <$> get m s)
    then [false] else [].
Proof.
  intros Hnd Hh. induction m as [|[k0 st] m IH]; [done|].
  rewrite fmap_cons in Hnd. apply NoDup_cons in Hnd as [Hk0 Hnd].
  specialize (IH Hnd). cbn [timeoutPass get].
  destruct (timeoutPass w now m) as [r out]. cbn [snd] in IH.
  destruct (decide (k0 = s)) as [->|Hne].
  - assert (Hout : about s out = []).
    { apply (proj2 (get_None_keys m s)) in Hk0. by rewrite IH, Hk0. }
    cbn -[about notifyAvailabilityChange].
    destruct (isAvailable st); cbn -[about notifyAvailabilityChange]; [|done].
    destruct (TIMEOUT_MS <? now - lastSeen st);
      cbn -[about notifyAvailabilityChange]; [|done].
    by rewrite about_app, about_notify, decide_True, Hout.
  - rewrite <- IH. destruct (isAvailable st);
      cbn -[about notifyAvailabilityChange]; [|done].
    destruct (TIMEOUT_MS <? now - lastSeen st);
      cbn -[about notifyAvailabilityChange]; [|done].
    by rewrite about_app, about_notify, decide_False.
Qed.

Lemma checkDeviceTimeouts_about now activeSerials w s :
  distinctKeys w -> onAvailabilityChange w = true ->
  about s (checkDeviceTimeouts now activeSerials w).2
  = if bool_decide (getAvailability w s
                    = getAvailability (checkDeviceTimeouts now activeSerials w).1 s)
    then []
    else [getAvailability (checkDeviceTimeouts now activeSerials w).1 s].
Proof.
  intros Hnd Hh.
  destruct (checkDeviceTimeouts_spec now activeSerials w) as (Hst & _ & _ & _).
  rewrite (getAvailability_status (checkDeviceTimeouts _ _ _).1), (Hst s).
  clear Hst. unfold checkDeviceTimeouts.
  pose proof (keepAlive_fold now activeSerials w []) as H. simpl in H.
  pose proof (keepAlive_fold_about now activeSerials w [] s Hh) as Habout.
  destruct (fold_left (keepAlive now) activeSerials (w, [])) as [w1 out1].
  simpl in H. destruct H as (Hst1 & _ & Hh1 & Hnd1). cbn [snd] in Habout.
  pose proof (timeoutPass_about w1 now (deviceStates w1) s (Hnd1 Hnd)) as Hpass.
  rewrite Hh1 in Hpass. specialize (Hpass Hh).
  destruct (timeoutPass w1 now (deviceStates w1)) as [m2 out2].
  cbn [snd] in Hpass |- *. rewrite about_app, Habout, Hpass. cbn [app].
  change ((fun st => (lastSeen st, isAvailable st)) <$> get (deviceStates w1) s)
    with (status w1 s).
  rewrite (Hst1 s), (getAvailability_status w s).
  destruct (decide (s ∈ activeSerials)) as [Hin|Hnin].
  - assert (Hlive : (TIMEOUT_MS <? now - now) = false).
    { apply Z.ltb_ge. unfold TIMEOUT_MS. lia. }
    cbn [timesOut fmap option_fmap option_map]. unfold afterSweep. cbn [fst snd].
    rewrite Hlive. cbn [andb negb].
    by destruct (status w s) as [[ls []]|].
  - destruct (status w s) as [[ls av]|]; [|done].
    cbn [timesOut fmap option_fmap option_map]. unfold afterSweep. cbn [fst snd].
    destruct av; [|done]. cbn [andb].
    by destruct (TIMEOUT_MS <? now - ls).
Qed.

(** *** The manual override *)

Lemma forceUnavailable_status s w s' :
  status (forceUnavailable s w).1 s'
  = if decide (s = s')
    then (fun p : Z * bool => (p.1, false)) <$> status w s'
    else status w s'.
Proof.
  unfold forceUnavailable, status.
  destruct (get (deviceStates w) s) as [st|] eqn:Hs.
  - destruct (isAvailable st) eqn:Hav; cbn [fst deviceStates withStates].
    + rewrite get_mutate. destruct (decide (s = s')) as [->|]; [|done].
      by rewrite Hs.
    + destruct (decide (s = s')) as [->|]; [|done]. rewrite Hs. cbn.
      by rewrite Hav.
  - cbn [fst]. destruct (decide (s = s')) as [->|]; [|done]. by rewrite Hs.
Qed.

Lemma forceUnavailable_about s w s' :
  onAvailabilityChange w = true ->
  about s' (forceUnavailable s w).2
  = if decide (s = s')
    then (if getAvailability w s' then [false] else [])
    else [].
Proof.
  intros Hh. unfold forceUnavailable, getAvailability.
  destruct (decide (s = s')) as [->|Hne].
  - destruct (get (deviceStates w) s') as [st|]; [destruct (isAvailable st)|];
      cbn [snd]; rewrite ?about_notify by done; by rewrite ?decide_True.
  - destruct (get (deviceStates w) s) as [st|]; [destruct (isAvailable st)|];
      cbn [snd]; rewrite ?about_notify by done; by rewrite ?decide_False.
Qed.

Lemma forceUnavailable_invariant s w :
  distinctKeys w -> onAvailabilityChange w = true ->
  distinctKeys (forceUnavailable s w).1
  /\ onAvailabilityChange (forceUnavailable s w).1 = true.
Proof.
  intros Hnd Hh. unfold forceUnavailable, distinctKeys.
  destruct (get (deviceStates w) s) as [st|]; [destruct (isAvailable st)|];
    cbn [fst deviceStates withStates onAvailabilityChange];
    by rewrite ?keys_mutate.
Qed.

Lemma react_invariant e w :
  distinctKeys w -> onAvailabilityChange w = true ->
  distinctKeys (react e w).1 /\ onAvailabilityChange (react e w).1 = true.
Proof.
  intros Hnd Hh. destruct e as [now s|now activeSerials|s]; cbn [react].
  - apply (step_invariant (MarkSeen now s) w Hnd Hh).
  - apply (step_invariant (Sweep now activeSerials) w Hnd Hh).
  - by apply forceUnavailable_invariant.
Qed.

Lemma reactAll_cons e es w :
  reactAll (e :: es) w
  = ((reactAll es (react e w).1).1, (react e w).2 ++ (reactAll es (react e w).1).2).
Proof.
  cbn [reactAll]. destruct (react e w) as [w1 out1]. cbn [fst snd].
  by destruct (reactAll es w1) as [w2 out2].
Qed.

Lemma reactAll_invariant es w :
  distinctKeys w -> onAvailabilityChange w = true ->
  distinctKeys (reactAll es w).1 /\ onAvailabilityChange (reactAll es w).1 = true.
Proof.
  revert w. induction es as [|e es IH]; intros w Hnd Hh; [done|].
  rewrite reactAll_cons. cbn [fst].
  destruct (react_invariant e w Hnd Hh) as [Hnd' Hh']. by apply IH.
Qed.

(** One event tells the handler about [s] exactly when it changes the
    availability of [s], and then tells the new availability. *)
Lemma react_about e w s :
  distinctKeys w -> onAvailabilityChange w = true ->
  about s (react e w).2
  = if bool_decide (getAvailability w s = getAvailability (react e w).1 s)
    then []
    else [getAvailability (react e w).1 s].
Proof.
  intros Hnd Hh. destruct e as [now a|now activeSerials|a]; cbn [react].
  - rewrite markSeen_about, markSeen_getAvailability by done.
    destruct (decide (a = s)); [by destruct (getAvailability w s)|].
    by rewrite bool_decide_eq_true_2.
  - by apply checkDeviceTimeouts_about.
  - rewrite forceUnavailable_about by done.
    rewrite (getAvailability_status (forceUnavailable a w).1),
      forceUnavailable_status, (getAvailability_status w s).
    destruct (decide (a = s)); destruct (status w s) as [[ls []]|]; done.
Qed.

End WatchdogNotifications.

Section WatchdogRuns.
Import AvailabilityMap DeviceAvailabilityWatchdog WatchdogSpec.

Lemma alternates_run s es :
  forall w,
    distinctKeys w -> onAvailabilityChange w = true ->
    alternates (getAvailability w s) (about s (reactAll es w).2)
    /\ getAvailability (reactAll es w).1 s
       = default (getAvailability w s) (last (about s (reactAll es w).2)).
Proof.
  induction es as [|e es IH]; intros w Hnd Hh; [done|].
  rewrite reactAll_cons. cbn [fst snd]. rewrite about_app.
  destruct (react_invariant e w Hnd Hh) as [Hnd' Hh'].
  destruct (IH (react e w).1 Hnd' Hh') as [Halt Hlast].
  rewrite (react_about e w s Hnd Hh).
  destruct (bool_decide (getAvailability w s = getAvailability (react e w).1 s))
    eqn:Hsame.
  - apply bool_decide_eq_true in Hsame. cbn [app]. by rewrite Hsame.
  - apply bool_decide_eq_false in Hsame. cbn [app alternates]. split.
    + split; [|done].
      destruct (getAvailability w s), (getAvailability (react e w).1 s); done.
    + rewrite Hlast. rewrite last_cons.
      by destruct (last (about s (reactAll es (react e w).1).2)).
Qed.

Lemma unheardOf_run s es :
  forall w,
    distinctKeys w -> onAvailabilityChange w = true ->
    status w s = None -> unheardOf s es ->
    status (reactAll es w).1 s = None /\ about s (reactAll es w).2 = [].
Proof.
  induction es as [|e es IH]; intros w Hnd Hh Hst Hun; [done|].
  rewrite reactAll_cons. cbn [fst snd]. rewrite about_app.
  destruct (react_invariant e w Hnd Hh) as [Hnd' Hh'].
  assert (Hst' : status (react e w).1 s = None).
  { destruct e as [now a|now activeSerials|a]; cbn [react unheardOf] in *.
    - destruct Hun as [Hne _]. rewrite markSeen_status. by rewrite decide_False.
    - destruct Hun as [Hnin _].
      destruct (checkDeviceTimeouts_spec now activeSerials w) as (H & _).
      rewrite (H s), decide_False, Hst by done. done.
    - rewrite forceUnavailable_status, Hst. by destruct (decide (a = s)). }
  assert (Hun' : unheardOf s es).
  { destruct e; cbn [unheardOf] in Hun; tauto. }
  destruct (IH (react e w).1 Hnd' Hh' Hst' Hun') as [Hfinal Hout].
  split; [done|]. rewrite Hout, app_nil_r, (react_about e w s Hnd Hh).
  rewrite !getAvailability_status, Hst, Hst'. done.
Qed.

Lemma mutate_keyed f k m :
  (forall st, serial (f st) = serial st) ->
  Forall (fun e : string * DeviceAvailabilityState => serial e.2 = e.1) m ->
  Forall (fun e : string * DeviceAvailabilityState => serial e.2 = e.1)
         (mutate f k m).
Proof.
  intros Hf. induction m as [|[k0 st] m IH]; [done|].
  rewrite Forall_cons. intros [Hk Hm]. cbn [mutate].
  destruct (decide (k0 = k)); apply Forall_cons; split; try done.
  - cbn. by rewrite Hf.
  - by apply IH.
Qed.

Lemma markSeen_keyed now s w :
  keyedBySerial w -> keyedBySerial (markSeen now s w).1.
Proof.
  unfold keyedBySerial, markSeen. intros Hk.
  destruct (get (deviceStates w) s) as [st|] eqn:Hs.
  - destruct (isAvailable st); cbn [fst deviceStates withStates negb];
      repeat apply mutate_keyed; done.
  - cbn [fst deviceStates withStates]. unfold set. rewrite Hs.
    apply Forall_app. split; [done|]. by apply Forall_singleton.
Qed.

Lemma timeoutPass_keyed w now m :
  Forall (fun e : string * DeviceAvailabilityState => serial e.2 = e.1) m ->
  Forall (fun e : string * DeviceAvailabilityState => serial e.2 = e.1)
         (timeoutPass w now m).1.
Proof.
  induction m as [|[k st] m IH]; [done|].
  rewrite Forall_cons. intros [Hk Hm]. specialize (IH Hm). cbn [timeoutPass].
  destruct (timeoutPass w now m) as [r out]. cbn [fst] in IH.
  destruct (isAvailable st); cbn [negb fst]; [|by apply Forall_cons].
  destruct (TIMEOUT_MS <? now - lastSeen st); cbn [fst]; by apply Forall_cons.
Qed.

Lemma keepAlive_fold_keyed now activeSerials w out :
  keyedBySerial w ->
  keyedBySerial (fold_left (keepAlive now) activeSerials (w, out)).1.
Proof.
  revert w out. induction activeSerials as [|a act IH]; intros w out Hk; [done|].
  cbn [fold_left]. rewrite keepAlive_markSeen. apply IH.
  by apply markSeen_keyed.
Qed.

Lemma react_keyed e w : keyedBySerial w -> keyedBySerial (react e w).1.
Proof.
  intros Hk. destruct e as [now s|now activeSerials|s]; cbn [react].
  - by apply markSeen_keyed.
  - unfold checkDeviceTimeouts.
    pose proof (keepAlive_fold_keyed now activeSerials w [] Hk) as H1.
    destruct (fold_left (keepAlive now) activeSerials (w, [])) as [w1 out1].
    cbn [fst] in H1.
    pose proof (timeoutPass_keyed w1 now (deviceStates w1) H1) as H2.
    by destruct (timeoutPass w1 now (deviceStates w1)) as [m2 out2].
  - unfold forceUnavailable, keyedBySerial in *.
    destruct (get (deviceStates w) s) as [st|]; [destruct (isAvailable st)|];
      cbn [fst deviceStates withStates]; try done.
    by apply mutate_keyed.
Qed.

Lemma reactAll_keyed es w : keyedBySerial w -> keyedBySerial (reactAll es w).1.
Proof.
  revert w. induction es as [|e es IH]; intros w Hk; [done|].
  rewrite reactAll_cons. cbn [fst]. by apply IH, react_keyed.
Qed.

Lemma get_elem_of m k st :
  NoDup m.*1 -> (k, st) ∈ m -> get m k = Some st.
Proof.
  induction m as [|[k0 st0] m IH]; [by intros _ ?%elem_of_nil|].
  rewrite fmap_cons, NoDup_cons, elem_of_cons. intros [Hk0 Hnd] [[= -> ->]|Hin].
  - cbn. by rewrite decide_True.
  - cbn. rewrite decide_False; [by apply IH|].
    intros ->. apply Hk0. by apply (list_elem_of_fmap_2 fst _ (k, st)).
Qed.

(** A device is unknown after the events exactly when it was unknown
    before and none of them mentions it as seen or subscribed. *)
Lemma status_None_unheardOf s es w :
  status (reactAll es w).1 s = None <-> status w s = None /\ unheardOf s es.
Proof.
  revert w. induction es as [|e es IH]; intros w.
  { cbn [reactAll fst unheardOf]. tauto. }
  rewrite reactAll_cons. cbn [fst]. rewrite IH.
  destruct e as [now a|now activeSerials|a]; cbn [react unheardOf].
  - rewrite markSeen_status. destruct (decide (a = s)); [|tauto].
    split; [by intros [? _]|]. by intros (_ & ? & _).
  - destruct (checkDeviceTimeouts_spec now activeSerials w) as (H & _).
    rewrite (H s). destruct (decide (s ∈ activeSerials)).
    + split; [by intros [? _]|]. by intros (_ & ? & _).
    + destruct (status w s); cbn; [|tauto].
      split; [by intros [? _]|]. by intros (? & _).
  - rewrite forceUnavailable_status.
    destruct (decide (a = s)); [|tauto].
    destruct (status w s); cbn; [|tauto].
    split; by intros [? _].
Qed.

End WatchdogRuns.

(** X9. From a fresh watchdog with a handler, whatever is marked, swept
    or forced, what the handler is told about a device alternates, starting
    with "online": it never hears the same availability twice in a row.
    And [getAvailability] is what it heard last, [false] if it heard
    nothing. *)
Theorem watchdog_notifications_alternate (s : string)
    (es : list DeviceAvailabilityWatchdog.Event) :
  let r := DeviceAvailabilityWatchdog.reactAll es
             (DeviceAvailabilityWatchdog.empty true) in
  WatchdogSpec.alternates false (WatchdogSpec.about s r.2)
  /\ DeviceAvailabilityWatchdog.getAvailability r.1 s
     = default false (last (WatchdogSpec.about s r.2)).
Proof.
  apply (alternates_run s es (DeviceAvailabilityWatchdog.empty true));
    [apply NoDup_nil_2|done].
Qed.

(** X10. A sweep that finds a device among the open subscriptions leaves it
    available and seen at the time of the sweep, however long ago it was
    last seen and even if the watchdog never knew it; the handler gets no
    "offline" for it. *)
Theorem open_subscription_keeps_online (s : string)
    (pre : list DeviceAvailabilityWatchdog.Event)
    (now : Z) (activeSerials : list string) :
  s ∈ activeSerials ->
  let w := (DeviceAvailabilityWatchdog.reactAll pre
              (DeviceAvailabilityWatchdog.empty true)).1 in
  let r := DeviceAvailabilityWatchdog.checkDeviceTimeouts now activeSerials w in
  WatchdogSpec.status r.1 s = Some (now, true)
  /\ DeviceAvailabilityWatchdog.getAvailability r.1 s = true
  /\ WatchdogSpec.receivedOffline s r.2 = 0%nat.
Proof.
  intros Hin w r.
  destruct (reactAll_invariant pre (DeviceAvailabilityWatchdog.empty true))
    as [Hnd Hh]; [apply NoDup_nil_2|done|]. fold w in Hnd, Hh.
  destruct (checkDeviceTimeouts_spec now activeSerials w) as (Hst & _ & _ & Hoff).
  fold r in Hst, Hoff.
  assert (Hlive : (DeviceAvailabilityWatchdog.TIMEOUT_MS <? now - now) = false).
  { apply Z.ltb_ge. unfold DeviceAvailabilityWatchdog.TIMEOUT_MS. lia. }
  assert (Hs : WatchdogSpec.status r.1 s = Some (now, true)).
  { rewrite (Hst s), decide_True by done. cbn. unfold WatchdogSpec.afterSweep.
    cbn. by rewrite Hlive. }
  split; [done|]. split.
  - by rewrite getAvailability_status, Hs.
  - rewrite (Hoff Hnd Hh s), decide_True by done. cbn. by rewrite Hlive.
Qed.

Lemma open_subscription_keeps_online_witness :
  DeviceAvailabilityWatchdog.getAvailability
    (DeviceAvailabilityWatchdog.checkDeviceTimeouts 900000 ["B"]
       (DeviceAvailabilityWatchdog.reactAll
          [DeviceAvailabilityWatchdog.Seen 0 "B"]
          (DeviceAvailabilityWatchdog.empty true)).1).1 "B" = true.
Proof.
  apply (open_subscription_keeps_online "B"
           [DeviceAvailabilityWatchdog.Seen 0 "B"] 900000 ["B"]).
  by left.
Defined.

(** X11. A device that is never marked and never has an open subscription
    stays unknown: [getAvailability] answers [false] and the handler hears
    nothing about it, whatever happens to other devices. *)
Theorem unknown_device_unavailable (s : string)
    (es : list DeviceAvailabilityWatchdog.Event) :
  WatchdogSpec.unheardOf s es ->
  let r := DeviceAvailabilityWatchdog.reactAll es
             (DeviceAvailabilityWatchdog.empty true) in
  WatchdogSpec.status r.1 s = None
  /\ DeviceAvailabilityWatchdog.getAvailability r.1 s = false
  /\ WatchdogSpec.about s r.2 = [].
Proof.
  intros Hun r.
  destruct (unheardOf_run s es (DeviceAvailabilityWatchdog.empty true))
    as [Hst Hout]; [apply NoDup_nil_2|done|done|done|].
  fold r in Hst, Hout. split; [done|]. split; [|done].
  by rewrite getAvailability_status, Hst.
Qed.

Lemma unknown_device_unavailable_witness :
  DeviceAvailabilityWatchdog.getAvailability
    (DeviceAvailabilityWatchdog.reactAll Scenario.eventful
       (DeviceAvailabilityWatchdog.empty true)).1 "Z" = false.
Proof.
  apply (unknown_device_unavailable "Z" Scenario.eventful).
  cbn. repeat split; try discriminate.
  - apply not_elem_of_nil.
  - intros H. apply list_elem_of_singleton in H. discriminate H.
Defined.

(** X12. [forceUnavailable(s)] leaves [s] unavailable with its last-seen
    time as it was, touches no other device, and tells the handler
    "offline" only if [s] was available; forcing again does nothing. *)
Theorem forceUnavailable_effect (s : string)
    (w : DeviceAvailabilityWatchdog.Watchdog) :
  let r := DeviceAvailabilityWatchdog.forceUnavailable s w in
  DeviceAvailabilityWatchdog.getAvailability r.1 s = false
  /\ WatchdogSpec.status r.1 s
     = (fun p : Z * bool => (p.1, false)) <$> WatchdogSpec.status w s
  /\ (forall s', s' <> s -> WatchdogSpec.status r.1 s' = WatchdogSpec.status w s')
  /\ r.2 = (if DeviceAvailabilityWatchdog.getAvailability w s
            then DeviceAvailabilityWatchdog.notifyAvailabilityChange w s false
            else [])
  /\ DeviceAvailabilityWatchdog.forceUnavailable s r.1 = (r.1, []).
Proof.
  intros r.
  assert (Hst : WatchdogSpec.status r.1 s
                = (fun p : Z * bool => (p.1, false)) <$> WatchdogSpec.status w s).
  { subst r. rewrite forceUnavailable_status. by rewrite decide_True. }
  assert (Hav : DeviceAvailabilityWatchdog.getAvailability r.1 s = false).
  { rewrite getAvailability_status, Hst.
    by destruct (WatchdogSpec.status w s) as [[? ?]|]. }
  split; [done|]. split; [done|]. split; [|split].
  - intros s' Hne. subst r. rewrite forceUnavailable_status.
    by rewrite decide_False.
  - subst r. unfold DeviceAvailabilityWatchdog.forceUnavailable,
      DeviceAvailabilityWatchdog.getAvailability.
    destruct (AvailabilityMap.get _ s) as [st|]; [|done].
    by destruct (AvailabilityMap.isAvailable st).
  - unfold DeviceAvailabilityWatchdog.getAvailability in Hav.
    unfold DeviceAvailabilityWatchdog.forceUnavailable at 1.
    destruct (AvailabilityMap.get _ s) as [st|]; [|done].
    by rewrite Hav.
Qed.

(** X13. On a watchdog reached from a fresh one, [getAllStates] lists each
    known device once, under its own serial, with the availability that
    [getAvailability] reports for it; and the devices it lists are exactly
    those an event mentioned as seen or as holding an open subscription:
    none of them is ever dropped. *)
Theorem getAllStates_consistent (es : list DeviceAvailabilityWatchdog.Event) :
  let w := (DeviceAvailabilityWatchdog.reactAll es
              (DeviceAvailabilityWatchdog.empty true)).1 in
  NoDup (AvailabilityMap.serial <$> DeviceAvailabilityWatchdog.getAllStates w)
  /\ (forall st, st ∈ DeviceAvailabilityWatchdog.getAllStates w ->
       DeviceAvailabilityWatchdog.getAvailability w (AvailabilityMap.serial st)
       = AvailabilityMap.isAvailable st)
  /\ (forall s,
        s ∉ (AvailabilityMap.serial <$> DeviceAvailabilityWatchdog.getAllStates w)
        <-> WatchdogSpec.unheardOf s es).
Proof.
  intros w.
  destruct (reactAll_invariant es (DeviceAvailabilityWatchdog.empty true))
    as [Hnd _]; [apply NoDup_nil_2|done|]. fold w in Hnd.
  pose proof (reactAll_keyed es (DeviceAvailabilityWatchdog.empty true)) as Hk.
  fold w in Hk. specialize (Hk (Forall_nil_2 _)).
  unfold WatchdogSpec.keyedBySerial in Hk. rewrite Forall_forall in Hk.
  unfold DeviceAvailabilityWatchdog.getAllStates.
  assert (Hkeys : AvailabilityMap.serial <$> (DeviceAvailabilityWatchdog.deviceStates w).*2
                  = (DeviceAvailabilityWatchdog.deviceStates w).*1).
  { rewrite <- list_fmap_compose. apply list_fmap_ext.
    intros i e He. apply Hk. by apply list_elem_of_lookup_2 in He. }
  split_and!.
  - by rewrite Hkeys.
  - intros st [[k st'] [-> Hin]]%list_elem_of_fmap. cbn [snd].
    pose proof (Hk _ Hin) as Hs. cbn [fst snd] in Hs. rewrite Hs.
    unfold DeviceAvailabilityWatchdog.getAvailability.
    by rewrite (get_elem_of _ k st' Hnd Hin).
  - intros s. rewrite Hkeys, <- get_None_keys.
    pose proof (status_None_unheardOf s es
                  (DeviceAvailabilityWatchdog.empty true)) as Hiff.
    fold w in Hiff. unfold WatchdogSpec.status in Hiff.
    rewrite fmap_None in Hiff. rewrite Hiff. cbn. tauto.
Qed.

(** ** API-key permissions, again *)

Section ApiKeyFacts.
Import SQLite3Service.

Lemma includes_true l x : includes l x = true <-> x ∈ l.
Proof. unfold includes. apply bool_decide_eq_true. Qed.

Lemma forallb_elem_of {A} (f : A -> bool) (l : list A) :
  forallb f l = true <-> forall x, x ∈ l -> f x = true.
Proof.
  rewrite forallb_forall. split; intros H x Hx; apply H; by apply list_elem_of_In.
Qed.

End ApiKeyFacts.

(** X14. [checkApiKeyPermission] answers [true] only if the serial is not
    in the key's serial list, every required scope is among the key's
    scopes, and the user either owns the device or holds a share of it
    under which every required scope is [read], or is [write] or
    [control] with [control] among the share's permissions. *)
Theorem checkApiKeyPermission_grant_sound
    (db : SQLite3Service.Database) (userId serial : string)
    (requiredScopes : list string)
    (permissions : SQLite3Service.APIKeyPermissions) :
  SQLite3Service.checkApiKeyPermission db userId serial requiredScopes permissions
  = Resolved true ->
  (serial ∉ SQLite3Service.serials permissions)
  /\ (forall scope, scope ∈ requiredScopes ->
        scope ∈ SQLite3Service.scopes permissions)
  /\ ((exists owner, SQLite3Service.getDeviceOwner db serial = Some owner
                     /\ SQLite3Service.owner_userId owner = userId)
      \/ (exists sharedSerial sharePermissions,
            SQLite3Service.getDeviceSharedWithMe db userId serial
            = Resolved (sharedSerial, sharePermissions)
            /\ forall scope, scope ∈ requiredScopes ->
                 scope = "read"
                 \/ ((scope = "write" \/ scope = "control")
                     /\ "control" ∈ sharePermissions))).
Proof.
  unfold SQLite3Service.checkApiKeyPermission.
  destruct (_ && SQLite3Service.includes _ serial) eqn:Hlisted; [done|].
  assert (Hnot : serial ∉ SQLite3Service.serials permissions).
  { intros Hin. apply andb_false_iff in Hlisted as [Hlen|Hinc].
    - apply Z.ltb_ge in Hlen.
      destruct (SQLite3Service.serials permissions); [by apply elem_of_nil in Hin|].
      simpl in Hlen. lia.
    - by rewrite (proj2 (includes_true _ _) Hin) in Hinc. }
  destruct (SQLite3Service.getDeviceOwner db serial) as [owner|] eqn:Howner.
  - destruct (bool_decide (SQLite3Service.owner_userId owner = userId)) eqn:Hu.
    + intros [= Hscopes]. rewrite forallb_elem_of in Hscopes.
      split; [done|]. split.
      * intros scope Hs. by apply includes_true, Hscopes.
      * left. exists owner. split; [done|]. by apply bool_decide_eq_true in Hu.
    + destruct (SQLite3Service.getDeviceSharedWithMe db userId serial)
        as [[sharedSerial sharePermissions]|]; [|done].
      intros [= [Hshare Hkey]%andb_true_iff].
      rewrite forallb_elem_of in Hshare, Hkey.
      split; [done|]. split.
      * intros scope Hs. by apply includes_true, Hkey.
      * right. exists sharedSerial, sharePermissions. split; [done|].
        intros scope Hs. specialize (Hshare scope Hs).
        destruct (bool_decide (scope = "read")) eqn:Hr;
          [left; by apply bool_decide_eq_true in Hr|].
        right.
        destruct (bool_decide (scope = "write") || bool_decide (scope = "control"))
          eqn:Hwc; [|done].
        split; [|by apply includes_true].
        apply orb_true_iff in Hwc as [H|H]; apply bool_decide_eq_true in H; tauto.
  - destruct (SQLite3Service.getDeviceSharedWithMe db userId serial)
      as [[sharedSerial sharePermissions]|]; [|done].
    intros [= [Hshare Hkey]%andb_true_iff].
    rewrite forallb_elem_of in Hshare, Hkey.
    split; [done|]. split.
    + intros scope Hs. by apply includes_true, Hkey.
    + right. exists sharedSerial, sharePermissions. split; [done|].
      intros scope Hs. specialize (Hshare scope Hs).
      destruct (bool_decide (scope = "read")) eqn:Hr;
        [left; by apply bool_decide_eq_true in Hr|].
      right.
      destruct (bool_decide (scope = "write") || bool_decide (scope = "control"))
        eqn:Hwc; [|done].
      split; [|by apply includes_true].
      apply orb_true_iff in Hwc as [H|H]; apply bool_decide_eq_true in H; tauto.
Qed.

Lemma checkApiKeyPermission_grant_sound_witness :
  ("A" ∉ SQLite3Service.serials Scenario.keyListingNothing)
  /\ (forall scope, scope ∈ ["read"] ->
        scope ∈ SQLite3Service.scopes Scenario.keyListingNothing).
Proof.
  destruct (checkApiKeyPermission_grant_sound Scenario.ownedDb "u" "A" ["read"]
              Scenario.keyListingNothing) as (H1 & H2 & _).
  - vm_compute. reflexivity.
  - by split.
Defined.

(** X15. For a device the user neither owns nor has a share of, and whose
    serial the key does not list, [checkApiKeyPermission] never answers:
    it awaits the promise of [getDeviceSharedWithMe], which is settled only
    when a share row exists. *)
Theorem checkApiKeyPermission_never_answers
    (db : SQLite3Service.Database) (userId serial : string)
    (requiredScopes : list string)
    (permissions : SQLite3Service.APIKeyPermissions) :
  serial ∉ SQLite3Service.serials permissions ->
  (forall owner, SQLite3Service.getDeviceOwner db serial = Some owner ->
                 SQLite3Service.owner_userId owner <> userId) ->
  (forall share, share ∈ SQLite3Service.deviceShares db ->
                 ~ (SQLite3Service.share_serial share = serial
                    /\ SQLite3Service.share_sharedWithUserId share = userId)) ->
  SQLite3Service.checkApiKeyPermission db userId serial requiredScopes permissions
  = Pending.
Proof.
  intros Hnot Howner Hshare. unfold SQLite3Service.checkApiKeyPermission.
  unfold SQLite3Service.includes at 1. rewrite (bool_decide_eq_false_2 _ Hnot).
  rewrite andb_false_r.
  assert (Hpending : SQLite3Service.getDeviceSharedWithMe db userId serial = Pending).
  { unfold SQLite3Service.getDeviceSharedWithMe.
    destruct (filter _ (SQLite3Service.deviceShares db)) as [|row rest] eqn:Hf; [done|].
    assert (Hin : row ∈ filter
              (fun s => SQLite3Service.share_serial s = serial
                        /\ SQLite3Service.share_sharedWithUserId s = userId)
              (SQLite3Service.deviceShares db)) by (rewrite Hf; by left).
    apply list_elem_of_filter in Hin as [Hrow Hin]. by destruct (Hshare row Hin). }
  rewrite Hpending.
  destruct (SQLite3Service.getDeviceOwner db serial) as [owner|] eqn:Ho; [|done].
  by rewrite (bool_decide_eq_false_2 _ (Howner owner eq_refl)).
Qed.

Lemma checkApiKeyPermission_never_answers_witness :
  SQLite3Service.checkApiKeyPermission Scenario.sharedDb "w" "A" ["read"]
    Scenario.keyListingNothing = Pending.
Proof.
  apply checkApiKeyPermission_never_answers.
  - apply not_elem_of_nil.
  - intros owner H. vm_compute in H. injection H as <-. discriminate.
  - intros share Hin [_ Hu].
    apply list_elem_of_singleton in Hin as ->. discriminate Hu.
Defined.

(** ** Pairing defaults *)

Section PairingFacts.
Import SQLite3Service.

(** "Insert unless present", as [ensureDeviceAlertDialog] does twice. *)
Lemma upsert_if_absent now db serial objectKey revision timestamp v :
  let db1 :=
    match getState db serial objectKey with
    | None => upsertState now db serial objectKey revision timestamp v
    | Some _ => db
    end in
  is_Some (getState db1 serial objectKey)
  /\ (forall s k o, getState db s k = Some o -> getState db1 s k = Some o)
  /\ deviceOwners db1 = deviceOwners db.
Proof.
  destruct (getState db serial objectKey) as [o|] eqn:Hget; cbn zeta.
  - rewrite Hget. by repeat split.
  - split; [|split].
    + rewrite getState_storedRow in Hget |- *.
      rewrite upsertState_fresh; [done|].
      by destruct (storedRow db serial objectKey).
    + intros s k o Ho.
      rewrite upsertState_other_getState; [done|]. congruence.
    + apply upsertState_other_tables.
Qed.

(** The two keys of [ensureDeviceAlertDialog] differ. *)
Lemma alert_key_not_user_key serial userId :
  "user." +:+ userId <> "device_alert_dialog." +:+ serial.
Proof. intros H. discriminate H. Qed.

(** The call, one statement after the other. *)
Lemma ensureDeviceAlertDialog_steps nowMs users db serial owner :
  getDeviceOwner db serial = Some owner ->
  let userKey := "user." +:+ stripUserPrefix (owner_userId owner) in
  let alertKey := "device_alert_dialog." +:+ serial in
  let userEmail :=
    match getUserInfo users (owner_userId owner) with
    | Some info => default "" (user_email info)
    | None => ""
    end in
  let userValue :=
    defaultUserState userEmail
      ("structure." +:+ stripUserPrefix (owner_userId owner)) in
  let db1 :=
    match getState db serial alertKey with
    | None => upsertState nowMs db serial alertKey 1 nowMs dialogValue
    | Some _ => db
    end in
  ensureDeviceAlertDialog nowMs users db serial
  = match getState db1 serial userKey with
    | None => upsertState nowMs db1 serial userKey 1 nowMs userValue
    | Some _ => db1
    end.
Proof.
  intros Howner userKey alertKey userEmail userValue db1.
  unfold ensureDeviceAlertDialog, ensureDeviceAlertDialogStatements.
  rewrite Howner. cbv zeta. fold userKey alertKey userEmail userValue.
  assert (Hread : getState db1 serial userKey = getState db serial userKey).
  { subst db1. destruct (getState db serial alertKey); [done|].
    apply upsertState_other_getState. intros H.
    apply (alert_key_not_user_key serial (stripUserPrefix (owner_userId owner))).
    by injection H. }
  rewrite Hread.
  assert (Hst : upsertStatement nowMs db1 serial userKey 1 nowMs userValue
                = upsertStatement nowMs db serial userKey 1 nowMs userValue).
  { unfold upsertStatement. by rewrite Hread. }
  subst db1.
  destruct (getState db serial alertKey);
    destruct (getState db serial userKey); cbn [app fold_left]; try done.
  unfold upsertState at 1. by rewrite Hst.
Qed.

End PairingFacts.

(** X16. For a device with an owner, once the statements of an
    [ensureDeviceAlertDialog] call have run the device has a
    [device_alert_dialog] object and a [user] object and every object that
    was already stored is as it was; a second call, made at any later time
    after those statements have run, hands no statement to the database. *)
Theorem ensureDeviceAlertDialog_ensures (nowMs later : Z)
    (users : list SQLite3Service.UserInfo) (db : SQLite3Service.Database)
    (serial : string) (owner : SQLite3Service.DeviceOwner) :
  SQLite3Service.getDeviceOwner db serial = Some owner ->
  let db' := SQLite3Service.ensureDeviceAlertDialog nowMs users db serial in
  is_Some (SQLite3Service.getState db' serial ("device_alert_dialog." +:+ serial))
  /\ is_Some (SQLite3Service.getState db' serial
                ("user." +:+ SQLite3Service.stripUserPrefix
                               (SQLite3Service.owner_userId owner)))
  /\ (forall s k o, SQLite3Service.getState db s k = Some o ->
                    SQLite3Service.getState db' s k = Some o)
  /\ SQLite3Service.ensureDeviceAlertDialogStatements later users db' serial
     = [].
Proof.
  intros Howner db'.
  set (alertKey := "device_alert_dialog." +:+ serial).
  set (userKey := "user." +:+ SQLite3Service.stripUserPrefix
                               (SQLite3Service.owner_userId owner)).
  pose proof (upsert_if_absent nowMs db serial alertKey 1 nowMs
                SQLite3Service.dialogValue) as H1.
  cbv zeta in H1.
  set (db1 := match SQLite3Service.getState db serial alertKey with
              | None => SQLite3Service.upsertState nowMs db serial alertKey 1
                          nowMs SQLite3Service.dialogValue
              | Some _ => db
              end) in *.
  destruct H1 as (Halert1 & Hkeep1 & Howners1).
  set (userEmail := match SQLite3Service.getUserInfo users
                            (SQLite3Service.owner_userId owner) with
                    | Some info => default "" (SQLite3Service.user_email info)
                    | None => ""
                    end).
  set (userValue := SQLite3Service.defaultUserState userEmail
                      ("structure." +:+ SQLite3Service.stripUserPrefix
                                          (SQLite3Service.owner_userId owner))).
  pose proof (upsert_if_absent nowMs db1 serial userKey 1 nowMs userValue) as H2.
  cbv zeta in H2.
  assert (Hdb' : db' = match SQLite3Service.getState db1 serial userKey with
                       | None => SQLite3Service.upsertState nowMs db1 serial
                                   userKey 1 nowMs userValue
                       | Some _ => db1
                       end).
  { subst db'. by apply ensureDeviceAlertDialog_steps. }
  rewrite <- Hdb' in H2. destruct H2 as (Huser2 & Hkeep2 & Howners2).
  assert (Halert2 : is_Some (SQLite3Service.getState db' serial alertKey)).
  { destruct Halert1 as [o Ho]. exists o. by apply Hkeep2. }
  split; [done|]. split; [done|]. split.
  - intros s k o Ho. by apply Hkeep2, Hkeep1.
  - unfold SQLite3Service.ensureDeviceAlertDialogStatements.
    assert (Hsame : SQLite3Service.getDeviceOwner db' serial = Some owner).
    { unfold SQLite3Service.getDeviceOwner in *.
      by rewrite Howners2, Howners1. }
    rewrite Hsame. fold alertKey. fold userKey.
    destruct Halert2 as [o1 ->]. by destruct Huser2 as [o2 ->].
Qed.

Lemma ensureDeviceAlertDialog_ensures_witness :
  is_Some (SQLite3Service.getState
             (SQLite3Service.ensureDeviceAlertDialog 5000
                Scenario.registeredUsers Scenario.ownedDb "A")
             "A" "device_alert_dialog.A").
Proof.
  apply (ensureDeviceAlertDialog_ensures 5000 6000 Scenario.registeredUsers
           Scenario.ownedDb "A"
           {| SQLite3Service.owner_userId := "u";
              SQLite3Service.owner_serial := "A";
              SQLite3Service.owner_createdAt := 0 |}).
  vm_compute. reflexivity.
Defined.

(** The defaults it writes for a fresh device. *)
Lemma ensureDeviceAlertDialog_example :
  SQLite3Service.value
    <$> SQLite3Service.getState
          (SQLite3Service.ensureDeviceAlertDialog 5000
             Scenario.registeredUsers Scenario.ownedDb "A") "A" "user.u"
  = Some (SQLite3Service.defaultUserState "u@example.org" "structure.u").
Proof. vm_compute. reflexivity. Qed.

(** ** Device-set reconciliation of the MQTT bridge *)

Section ReconcileFacts.
Import SQLite3Service MqttIntegration.

Implicit Types i : Integration.
Implicit Types l xs current : list string.
Implicit Types out : list Publication.

Lemma setHas_true l x : setHas l x = true <-> x ∈ l.
Proof. apply bool_decide_eq_true. Qed.

Lemma setHas_false l x : setHas l x = false <-> x ∉ l.
Proof. apply bool_decide_eq_false. Qed.

Lemma setAdd_elem l x y : y ∈ setAdd l x <-> y ∈ l \/ y = x.
Proof.
  unfold setAdd. destruct (setHas l x) eqn:H.
  - apply setHas_true in H. split; [by left|]. by intros [?| ->].
  - by rewrite elem_of_app, list_elem_of_singleton.
Qed.

Lemma fold_setAdd_elem xs l y :
  y ∈ fold_left setAdd xs l <-> y ∈ l \/ y ∈ xs.
Proof.
  revert l. induction xs as [|x xs IH]; intros l; cbn [fold_left].
  - split; [by left|]. intros [?|H]; [done|by apply elem_of_nil in H].
  - rewrite IH, setAdd_elem, elem_of_cons. tauto.
Qed.

Lemma currentSerials_elem db userId y :
  y ∈ currentSerials db userId
  <-> y ∈ listUserDevices db userId \/ y ∈ (getSharedWithMe db userId).*1.
Proof.
  unfold currentSerials. rewrite fold_setAdd_elem, elem_of_app.
  split; [intros [H|H]; [by apply elem_of_nil in H|done]|by right].
Qed.

Lemma setDelete_elem l x y : y ∈ setDelete l x <-> y ∈ l /\ y <> x.
Proof. unfold setDelete. rewrite list_elem_of_filter. tauto. Qed.

(** *** Removed devices *)

Lemma dropIfRemoved_fold current xs i out :
  let r := fold_left (dropIfRemoved current) xs (i, out) in
  (forall y, y ∈ deviceSerials r.1
             <-> y ∈ deviceSerials i /\ (y ∈ current \/ y ∉ xs))
  /\ isReady r.1 = isReady i
  /\ hasClient r.1 = hasClient i
  /\ homeAssistantDiscovery r.1 = homeAssistantDiscovery i
  /\ (forall p, p ∈ r.2 ->
        p ∈ out
        \/ (isFarewell p = true /\ publicationSerial p ∈ xs
            /\ publicationSerial p ∉ current))
  /\ (hasClient i = true ->
      forall s, s ∈ xs -> s ∉ current -> PublishAvailability s false ∈ r.2)
  /\ (forall p, p ∈ out -> p ∈ r.2).
Proof.
  revert i out. induction xs as [|x xs IH]; intros i out; cbn [fold_left].
  { cbn [fst snd]. split_and!; try done.
    - intros y. split; [|by intros [? _]].
      intros ?. split; [done|]. right. apply not_elem_of_nil.
    - by left.
    - intros _ s H. by apply elem_of_nil in H. }
  set (i1 := withSerials i (setDelete (deviceSerials i) x)).
  set (out1 := publishAvailability i x false ++
               (if homeAssistantDiscovery i && hasClient i
                then [RemoveDeviceDiscovery x] else [])).
  assert (Hstep : dropIfRemoved current (i, out) x
                  = if setHas current x then (i, out) else (i1, out ++ out1)).
  { unfold dropIfRemoved, handleDeviceRemoved. by destruct (setHas current x). }
  rewrite Hstep. clear Hstep.
  destruct (setHas current x) eqn:Hx.
  - apply setHas_true in Hx. clear i1 out1.
    destruct (IH i out) as (Hs & Hr & Hc & Hh & Hp & Hoff & Hout).
    split_and!; try done.
    + intros y. rewrite Hs, not_elem_of_cons. split; [|tauto].
      intros [? [?|?]]; [tauto|]. split; [done|].
      destruct (decide (y = x)) as [->|]; tauto.
    + intros p Hin. apply Hp in Hin as [?|(? & ? & ?)]; [by left|].
      right. split_and!; try done. by right.
    + intros Hcl s [->|Hin]%elem_of_cons Hn; [done|]. by apply Hoff.
  - apply setHas_false in Hx.
    destruct (IH i1 (out ++ out1)) as (Hs & Hr & Hc & Hh & Hp & Hoff & Hout).
    assert (Hout1 : forall p, p ∈ out1 ->
                              isFarewell p = true /\ publicationSerial p = x).
    { intros p. subst out1. unfold publishAvailability.
      rewrite elem_of_app.
      destruct (hasClient i); destruct (homeAssistantDiscovery i); cbn;
        rewrite ?list_elem_of_singleton, ?elem_of_nil; intros [H|H];
        try done; by subst p. }
    split_and!; try done.
    + intros y. rewrite Hs, not_elem_of_cons.
      subst i1. cbn [deviceSerials withSerials]. rewrite setDelete_elem.
      split; [tauto|]. intros [Hy [Hcur|Hn]]; [|tauto].
      split; [|by left]. split; [done|]. by intros ->.
    + intros p Hin. apply Hp in Hin as [Hin|(? & ? & ?)].
      * apply elem_of_app in Hin as [?|Hin]; [by left|].
        right. destruct (Hout1 p Hin) as [? ->].
        split_and!; try done. by left.
      * right. split_and!; try done. by right.
    + intros Hcl s [->|Hin]%elem_of_cons Hn.
      * apply Hout. apply elem_of_app. right. subst out1.
        unfold publishAvailability. rewrite Hcl. apply elem_of_app. left.
        by left.
      * by apply Hoff.
    + intros p Hin. apply Hout. apply elem_of_app. by left.
Qed.

Lemma dropIfRemoved_noop current xs (acc : Integration * list Publication) :
  (forall x, x ∈ xs -> x ∈ current) ->
  fold_left (dropIfRemoved current) xs acc = acc.
Proof.
  revert acc. induction xs as [|x xs IH]; intros [i out] Hall; [done|].
  cbn [fold_left].
  replace (dropIfRemoved current (i, out) x) with (i, out).
  2:{ unfold dropIfRemoved.
      by rewrite (proj2 (setHas_true current x)) by (apply Hall; by left). }
  apply IH. intros y Hy. apply Hall. by right.
Qed.

(** *** Added devices *)

Lemma addIfNew_fold xs i out :
  let r := fold_left addIfNew xs (i, out) in
  (forall y, y ∈ deviceSerials r.1 <-> y ∈ deviceSerials i \/ y ∈ xs)
  /\ isReady r.1 = isReady i
  /\ hasClient r.1 = hasClient i
  /\ homeAssistantDiscovery r.1 = homeAssistantDiscovery i
  /\ (forall p, p ∈ r.2 ->
        p ∈ out
        \/ (isFarewell p = false /\ publicationSerial p ∈ xs
            /\ publicationSerial p ∉ deviceSerials i))
  /\ (forall p, p ∈ out -> p ∈ r.2)
  /\ (homeAssistantDiscovery i && hasClient i = true ->
      forall s, s ∈ xs -> s ∉ deviceSerials i ->
        PublishThermostatDiscovery s ∈ r.2 /\ PublishHAState s ∈ r.2
        /\ PublishAvailability s true ∈ r.2)
  /\ (homeAssistantDiscovery i && hasClient i = false -> r.2 = out).
Proof.
  revert i out. induction xs as [|x xs IH]; intros i out; cbn [fold_left].
  { cbn [fst snd]. split_and!; try done.
    - intros y. split; [by left|].
      intros [?|H]; [done|by apply elem_of_nil in H].
    - by left.
    - intros _ s H. by apply elem_of_nil in H. }
  set (i1 := withSerials i (setAdd (deviceSerials i) x)).
  set (out1 := [PublishThermostatDiscovery x; PublishHAState x]
               ++ publishAvailability i x true).
  assert (Hstep : addIfNew (i, out) x
                  = if setHas (deviceSerials i) x then (i, out)
                    else if homeAssistantDiscovery i && hasClient i
                         then (i1, out ++ out1) else (i1, out)).
  { unfold addIfNew. by destruct (setHas (deviceSerials i) x). }
  rewrite Hstep. clear Hstep.
  destruct (setHas (deviceSerials i) x) eqn:Hx.
  - apply setHas_true in Hx. clear i1 out1.
    destruct (IH i out) as (Hs & Hr & Hc & Hh & Hp & Hout & Hnew & Hquiet).
    split_and!; try done.
    + intros y. rewrite Hs, elem_of_cons. split; [tauto|].
      intros [Hy|[->|Hy]]; tauto.
    + intros p Hin. apply Hp in Hin as [?|(? & ? & ?)]; [by left|].
      right. split_and!; try done. by right.
    + intros Hha s [->|Hin]%elem_of_cons Hn; [done|]. by apply Hnew.
  - apply setHas_false in Hx.
    assert (Hi1 : forall y, y ∈ deviceSerials i1 <-> y ∈ deviceSerials i \/ y = x).
    { intros y. subst i1. cbn [deviceSerials withSerials]. apply setAdd_elem. }
    destruct (homeAssistantDiscovery i && hasClient i) eqn:Hha.
    + destruct (IH i1 (out ++ out1))
        as (Hs & Hr & Hc & Hh & Hp & Hout & Hnew & _).
      assert (Hout1 : forall p, p ∈ out1 ->
                                isFarewell p = false /\ publicationSerial p = x).
      { intros p. subst out1. unfold publishAvailability.
        destruct (hasClient i); cbn;
          rewrite !elem_of_cons, elem_of_nil; intros H;
          repeat destruct H as [H|H]; try done; by subst p. }
      split_and!; try done.
      * intros y. rewrite Hs, Hi1, elem_of_cons. tauto.
      * intros p Hin. apply Hp in Hin as [Hin|(? & ? & Hn)].
        -- apply elem_of_app in Hin as [?|Hin]; [by left|].
           right. destruct (Hout1 p Hin) as [? ->].
           split_and!; try done. by left.
        -- right. split_and!; try done; [by right|].
           intros ?. apply Hn, Hi1. by left.
      * intros p Hin. apply Hout, elem_of_app. by left.
      * intros _ s Hin Hn. destruct (decide (s = x)) as [->|Hne].
        -- apply andb_true_iff in Hha as [_ Hcl].
           assert (Hx1 : forall p, p ∈ out1 -> p ∈ out ++ out1)
             by (intros p ?; apply elem_of_app; by right).
           subst out1. unfold publishAvailability in *. rewrite Hcl in *.
           split_and!; apply Hout, Hx1; cbn; rewrite !elem_of_cons; tauto.
        -- apply (Hnew Hha).
           ++ apply elem_of_cons in Hin as [?|?]; [done|done].
           ++ rewrite Hi1. tauto.
    + destruct (IH i1 out) as (Hs & Hr & Hc & Hh & Hp & Hout & _ & Hquiet).
      split_and!; try done.
      * intros y. rewrite Hs, Hi1, elem_of_cons. tauto.
      * intros p Hin. apply Hp in Hin as [?|(? & ? & Hn)]; [by left|].
        right. split_and!; try done; [by right|].
        intros ?. apply Hn, Hi1. by left.
      * intros _. by apply Hquiet.
Qed.

Lemma addIfNew_noop xs (acc : Integration * list Publication) :
  (forall x, x ∈ xs -> x ∈ deviceSerials acc.1) ->
  fold_left addIfNew xs acc = acc.
Proof.
  revert acc. induction xs as [|x xs IH]; intros [i out] Hall; [done|].
  cbn [fold_left].
  replace (addIfNew (i, out) x) with (i, out).
  2:{ unfold addIfNew.
      by rewrite (proj2 (setHas_true (deviceSerials i) x))
        by (apply Hall; by left). }
  apply IH. intros y Hy. apply Hall. by right.
Qed.

(** *** The whole check *)

Lemma currentSerials_loadUserDevices db userId :
  list_to_set (currentSerials db userId) = loadUserDevices db userId.
Proof.
  apply set_eq. intros s. unfold loadUserDevices.
  rewrite !elem_of_list_to_set, currentSerials_elem. by rewrite elem_of_app.
Qed.

Lemma checkForDeviceChanges_ready db userId i :
  isReady i = true ->
  let r := checkForDeviceChanges db userId i in
  let current := currentSerials db userId in
  (forall s, s ∈ deviceSerials r.1 <-> s ∈ current)
  /\ isReady r.1 = true
  /\ (forall p, p ∈ r.2 ->
        (isFarewell p = true /\ publicationSerial p ∈ deviceSerials i
         /\ publicationSerial p ∉ current)
        \/ (isFarewell p = false /\ publicationSerial p ∈ current
            /\ publicationSerial p ∉ deviceSerials i))
  /\ (hasClient i = true ->
      forall s, s ∈ deviceSerials i -> s ∉ current ->
                PublishAvailability s false ∈ r.2)
  /\ (homeAssistantDiscovery i && hasClient i = true ->
      forall s, s ∈ current -> s ∉ deviceSerials i ->
        PublishThermostatDiscovery s ∈ r.2 /\ PublishHAState s ∈ r.2
        /\ PublishAvailability s true ∈ r.2)
  /\ (homeAssistantDiscovery i && hasClient i = false ->
      forall p, p ∈ r.2 -> isFarewell p = true).
Proof.
  intros Hready r current. subst r.
  unfold checkForDeviceChanges. rewrite Hready. cbn [negb]. cbv zeta.
  fold current.
  pose proof (dropIfRemoved_fold current (deviceSerials i) i []) as Hdrop.
  cbv zeta in Hdrop.
  destruct (fold_left (dropIfRemoved current) (deviceSerials i) (i, []))
    as [i1 out1]. cbn [fst snd] in Hdrop.
  destruct Hdrop as (Hs1 & Hr1 & Hc1 & Hh1 & Hp1 & Hoff1 & _).
  pose proof (addIfNew_fold current i1 out1) as Hadd. cbv zeta in Hadd.
  destruct Hadd as (Hs2 & Hr2 & _ & _ & Hp2 & Hout2 & Hnew2 & Hquiet2).
  rewrite Hc1, Hh1 in Hnew2, Hquiet2.
  split_and!.
  - intros s. rewrite Hs2, Hs1. split; [|by right].
    intros [[Hin [?|Hn]]|?]; [done|by destruct Hn|done].
  - by rewrite Hr2, Hr1.
  - intros p Hin. apply Hp2 in Hin as [Hin|(Hf & Hcur & Hn)].
    + apply Hp1 in Hin as [Hin|?]; [by apply elem_of_nil in Hin|by left].
    + right. split_and!; try done. intros Hi. apply Hn, Hs1.
      split; [done|by left].
  - intros Hcl s Hin Hn. apply Hout2. by apply Hoff1.
  - intros Hha s Hin Hn. apply (Hnew2 Hha s Hin).
    intros Hi1. by apply Hs1 in Hi1 as [? _].
  - intros Hha p Hin. rewrite (Hquiet2 Hha) in Hin.
    apply Hp1 in Hin as [Hin|[? _]]; [by apply elem_of_nil in Hin|done].
Qed.

Lemma checkForDeviceChanges_again db userId i :
  checkForDeviceChanges db userId (checkForDeviceChanges db userId i).1
  = ((checkForDeviceChanges db userId i).1, []).
Proof.
  destruct (isReady i) eqn:Hready.
  - destruct (checkForDeviceChanges_ready db userId i Hready)
      as (Hs & Hr & _).
    set (i1 := (checkForDeviceChanges db userId i).1) in *.
    unfold checkForDeviceChanges at 1. rewrite Hr. cbn [negb].
    rewrite dropIfRemoved_noop by (intros x; apply Hs).
    apply addIfNew_noop. intros x. cbn [fst]. apply Hs.
  - assert (H1 : checkForDeviceChanges db userId i = (i, []))
      by (unfold checkForDeviceChanges; by rewrite Hready).
    rewrite H1. cbn [fst]. exact H1.
Qed.

(** *** Commands *)

Section CommandFacts.

Variable parseCommandTopic : string -> string -> option (string * string * string).
Variable JSON_parse : string -> option JS.value.
Variable parseFloat : string -> option JS.value.
Variable trim : string -> string.
Variable haModeToNest : string -> JS.value.
Variable validateTemperature : option JS.value -> JS.value -> option JS.value.

Lemma haCommandActions_serial now serial command valueStr deviceObj sharedObj :
  Forall (fun a => actionSerial a = serial)
    (haCommandActions parseFloat haModeToNest validateTemperature
       now serial command valueStr deviceObj sharedObj).1.
Proof.
  unfold haCommandActions, updateSharedValue, updateDeviceValue,
    updateDeviceFields.
  repeat case_bool_decide; repeat case_match; cbn [fst app];
    repeat constructor.
Qed.

Lemma handleCommand_served topicPrefix userDeviceSerials deviceStateGet
    now topic message :
  Forall (fun a => actionSerial a ∈ userDeviceSerials)
    (handleCommand parseCommandTopic JSON_parse parseFloat trim haModeToNest
       validateTemperature topicPrefix userDeviceSerials deviceStateGet
       now topic message).
Proof.
  unfold handleCommand.
  destruct (Str.includes topic "/ha/" && Str.endsWith topic "/set").
  - unfold handleHomeAssistantCommand.
    destruct (matchHaTopic topicPrefix topic) as [[serial command]|]; [|done].
    case_bool_decide as Hin; cbn [negb]; [|done].
    destruct (deviceStateGet serial ("device." +:+ serial)) as [deviceObj|];
      [|done].
    destruct (deviceStateGet serial ("shared." +:+ serial)) as [sharedObj|];
      [|done].
    pose proof (haCommandActions_serial now serial command (trim message)
                  deviceObj sharedObj) as Hall.
    destruct (haCommandActions _ _ _ _ _ _ _ _ _) as [actions completed].
    cbn [fst] in Hall.
    assert (Hserved : Forall (fun a => actionSerial a ∈ userDeviceSerials)
                        actions).
    { eapply Forall_impl; [exact Hall|]. by intros a ->. }
    destruct completed; [|done].
    apply Forall_app. split; [done|]. by constructor.
  - destruct (parseCommandTopic topic topicPrefix) as [[[serial t] f]|];
      [|done].
    case_bool_decide as Hin; cbn [negb]; [|done].
    destruct (deviceStateGet serial (t +:+ "." +:+ serial)); [|done].
    by constructor.
Qed.

End CommandFacts.

(** A write to one device changes no row of another. *)
Lemma upsertState_other_serial now db serial objectKey revision timestamp v
    serial' :
  serial' <> serial ->
  filter (fun r => row_serial r = serial')
    (states (upsertState now db serial objectKey revision timestamp v))
  = filter (fun r => row_serial r = serial') (states db).
Proof.
  intros Hne. rewrite upsertState_unfold.
  destruct (getState db serial objectKey); cbn [states withStates].
  - unfold sqlUpdate. induction (states db) as [|r rows IH]; [done|].
    cbn [map]. rewrite !filter_cons, IH.
    destruct (matches serial objectKey r) eqn:Hr; [|done].
    apply andb_true_iff in Hr as [Hr _]. apply bool_decide_eq_true in Hr.
    cbn [row_serial]. rewrite !decide_False; [done|congruence|congruence].
  - unfold sqlInsert. rewrite filter_app, filter_cons.
    cbn [row_serial]. rewrite decide_False by congruence.
    by rewrite filter_nil, app_nil_r.
Qed.

Lemma applyActions_other_serial now actions db serial' :
  Forall (fun a => actionSerial a <> serial') actions ->
  filter (fun r => row_serial r = serial') (states (applyActions now actions db))
  = filter (fun r => row_serial r = serial') (states db).
Proof.
  intros Hall. revert db.
  induction Hall as [|a actions Ha _ IH]; intros db; [done|].
  destruct a; cbn [applyActions]; rewrite IH; [|done|done].
  apply upsertState_other_serial. cbn [actionSerial] in Ha. congruence.
Qed.

(** What the store answers about a device depends on the rows of that
    device only. *)
Lemma getState_by_serial db db' serial objectKey :
  filter (fun r => row_serial r = serial) (states db')
  = filter (fun r => row_serial r = serial) (states db) ->
  getState db' serial objectKey = getState db serial objectKey.
Proof.
  intros Heq. unfold getState.
  assert (Hsplit : forall rows : list StateRow,
            filter (fun r => matches serial objectKey r = true) rows
            = filter (fun r => matches serial objectKey r = true)
                (filter (fun r => row_serial r = serial) rows)).
  { intros rows. rewrite list_filter_filter. apply list_filter_iff.
    intros r. split; [|by intros [? _]].
    intros Hm. split; [done|].
    apply andb_true_iff in Hm as [Hm _]. by apply bool_decide_eq_true in Hm. }
  by rewrite (Hsplit (states db')), (Hsplit (states db)), Heq.
Qed.

End ReconcileFacts.

(** X17. A check by a ready integration leaves it serving exactly the
    devices the database gives its user, owned or shared: what
    [loadUserDevices] would load. *)
Theorem checkForDeviceChanges_reconciles (db : SQLite3Service.Database)
    (userId : string) (i : MqttIntegration.Integration) :
  MqttIntegration.isReady i = true ->
  let after := (MqttIntegration.checkForDeviceChanges db userId i).1 in
  list_to_set (MqttIntegration.deviceSerials after)
  = MqttIntegration.loadUserDevices db userId
  /\ forall s, s ∈ MqttIntegration.deviceSerials after
               <-> s ∈ SQLite3Service.listUserDevices db userId
                   \/ s ∈ (SQLite3Service.getSharedWithMe db userId).*1.
Proof.
  intros Hready after.
  destruct (checkForDeviceChanges_ready db userId i Hready) as (Hs & _).
  fold after in Hs. split.
  - rewrite <- currentSerials_loadUserDevices. apply set_eq. intros s.
    by rewrite !elem_of_list_to_set.
  - intros s. by rewrite Hs, currentSerials_elem.
Qed.

(** The integration serves [A] and [Z]; its user owns [A] only. *)
Lemma checkForDeviceChanges_reconciles_witness :
  MqttIntegration.deviceSerials
    (MqttIntegration.checkForDeviceChanges Scenario.ownedDb "u"
       Scenario.servingAZ).1 = ["A"]
  /\ list_to_set
       (MqttIntegration.deviceSerials
          (MqttIntegration.checkForDeviceChanges Scenario.ownedDb "u"
             Scenario.servingAZ).1)
     = MqttIntegration.loadUserDevices Scenario.ownedDb "u".
Proof.
  split; [vm_compute; reflexivity|].
  apply (checkForDeviceChanges_reconciles Scenario.ownedDb "u"
           Scenario.servingAZ).
  reflexivity.
Defined.

(** X18. A second check against an unchanged database finds nothing to
    do: it publishes nothing and leaves the integration as the first check
    left it. *)
Theorem checkForDeviceChanges_settles (db : SQLite3Service.Database)
    (userId : string) (i : MqttIntegration.Integration) :
  let first := MqttIntegration.checkForDeviceChanges db userId i in
  MqttIntegration.checkForDeviceChanges db userId first.1 = (first.1, []).
Proof. apply checkForDeviceChanges_again. Qed.

(** X19. What a check publishes is about changes only. Every message is
    either a farewell (offline, or removal of the discovery entries) for a
    device that was served and is no longer the user's, or an announcement
    for a device that is the user's and was not served; a device that
    stays gets none. With a broker connection every device dropped is
    published offline; with discovery switched on as well, every device
    added gets its discovery entry, its state and online; without
    discovery, additions are silent. *)
Theorem checkForDeviceChanges_publishes_changes
    (db : SQLite3Service.Database) (userId : string)
    (i : MqttIntegration.Integration) :
  MqttIntegration.isReady i = true ->
  let served := MqttIntegration.deviceSerials i in
  let current := MqttIntegration.loadUserDevices db userId in
  let out := (MqttIntegration.checkForDeviceChanges db userId i).2 in
  (forall p, p ∈ out ->
     let s := MqttIntegration.publicationSerial p in
     (MqttIntegration.isFarewell p = true /\ s ∈ served /\ s ∉ current)
     \/ (MqttIntegration.isFarewell p = false /\ s ∈ current /\ s ∉ served))
  /\ (MqttIntegration.hasClient i = true ->
      forall s, s ∈ served -> s ∉ current ->
                MqttIntegration.PublishAvailability s false ∈ out)
  /\ (MqttIntegration.homeAssistantDiscovery i && MqttIntegration.hasClient i
      = true ->
      forall s, s ∈ current -> s ∉ served ->
        MqttIntegration.PublishThermostatDiscovery s ∈ out
        /\ MqttIntegration.PublishHAState s ∈ out
        /\ MqttIntegration.PublishAvailability s true ∈ out)
  /\ (MqttIntegration.homeAssistantDiscovery i && MqttIntegration.hasClient i
      = false ->
      forall p, p ∈ out -> MqttIntegration.isFarewell p = true).
Proof.
  intros Hready served current out.
  destruct (checkForDeviceChanges_ready db userId i Hready)
    as (_ & _ & Hp & Hoff & Hnew & Hquiet).
  fold out in Hp, Hoff, Hnew, Hquiet. fold served in Hp, Hoff, Hnew.
  assert (Hcur : forall s, s ∈ MqttIntegration.currentSerials db userId
                           <-> s ∈ current).
  { intros s. subst current. rewrite <- currentSerials_loadUserDevices.
    by rewrite elem_of_list_to_set. }
  split_and!.
  - intros p Hin s. subst s.
    destruct (Hp p Hin) as [(? & ? & ?)|(? & ? & ?)]; [left|right];
      by rewrite <- Hcur.
  - intros Hcl s Hin Hn. apply (Hoff Hcl s Hin). by rewrite Hcur.
  - intros Hha s Hin Hn. apply (Hnew Hha s); [by rewrite Hcur|done].
  - done.
Qed.

(** [Z] is dropped: it is published offline and its discovery entries are
    removed; nothing is said about [A]. *)
Lemma checkForDeviceChanges_publishes_changes_witness :
  MqttIntegration.PublishAvailability "Z" false
  ∈ (MqttIntegration.checkForDeviceChanges Scenario.ownedDb "u"
       Scenario.servingAZ).2.
Proof.
  destruct (checkForDeviceChanges_publishes_changes Scenario.ownedDb "u"
              Scenario.servingAZ) as (_ & Hoff & _).
  - reflexivity.
  - apply Hoff.
    + reflexivity.
    + right. by left.
    + vm_compute. intros H. discriminate H.
Defined.

Section CommandTheorems.
Import SQLite3Service MqttIntegration.

Variable parseCommandTopic : string -> string -> option (string * string * string).
Variable JSON_parse : string -> option JS.value.
Variable parseFloat : string -> option JS.value.
Variable trim : string -> string.
Variable haModeToNest : string -> JS.value.
Variable validateTemperature : option JS.value -> JS.value -> option JS.value.

(** X20. Whatever the topic and the payload, a command changes nothing
    of a device the integration does not serve: no call of the handler
    names such a device, and once its upserts are applied the store
    answers about the device as before. *)
Theorem handleCommand_spares_other_devices
    (topicPrefix : string) (userDeviceSerials : gset string)
    (deviceStateGet : string -> string -> option DeviceObject)
    (now : Z) (topic message : string) (db : Database) (s : string) :
  s ∉ userDeviceSerials ->
  let actions :=
    handleCommand parseCommandTopic JSON_parse parseFloat trim haModeToNest
      validateTemperature topicPrefix userDeviceSerials deviceStateGet
      now topic message in
  let db' := applyActions now actions db in
  Forall (fun a => actionSerial a <> s) actions
  /\ getDeviceState db' s = getDeviceState db s
  /\ forall objectKey, getState db' s objectKey = getState db s objectKey.
Proof.
  intros Hs actions db'.
  assert (Hall : Forall (fun a => actionSerial a <> s) actions).
  { eapply Forall_impl;
      [apply (handleCommand_served parseCommandTopic JSON_parse parseFloat
                trim haModeToNest validateTemperature)|].
    intros a Ha Heq. apply Hs. by rewrite <- Heq. }
  pose proof (applyActions_other_serial now actions db s Hall) as Hrows.
  fold db' in Hrows. split_and!; [done| |].
  - unfold getDeviceState. by rewrite Hrows.
  - intros objectKey. by apply getState_by_serial.
Qed.

(** X21. After a check, commands reach the user's own devices only: a
    device that is neither owned by the user nor shared with the user is
    named by no call of the handler, and the store answers about it as
    before. *)
Theorem commands_after_check_stay_with_user
    (db : Database) (userId : string) (i : Integration)
    (topicPrefix : string)
    (deviceStateGet : string -> string -> option DeviceObject)
    (now : Z) (topic message : string) (store : Database) (s : string) :
  isReady i = true ->
  s ∉ listUserDevices db userId ->
  s ∉ (getSharedWithMe db userId).*1 ->
  let served :=
    list_to_set (deviceSerials (checkForDeviceChanges db userId i).1) in
  let actions :=
    handleCommand parseCommandTopic JSON_parse parseFloat trim haModeToNest
      validateTemperature topicPrefix served deviceStateGet
      now topic message in
  Forall (fun a => actionSerial a <> s) actions
  /\ getDeviceState (applyActions now actions store) s = getDeviceState store s.
Proof.
  intros Hready Howned Hshared served actions.
  assert (Hs : s ∉ served).
  { subst served. rewrite elem_of_list_to_set.
    destruct (checkForDeviceChanges_ready db userId i Hready) as (Hmem & _).
    rewrite Hmem, currentSerials_elem. tauto. }
  assert (Hall : Forall (fun a => actionSerial a <> s) actions).
  { eapply Forall_impl;
      [apply (handleCommand_served parseCommandTopic JSON_parse parseFloat
                trim haModeToNest validateTemperature)|].
    intros a Ha Heq. apply Hs. by rewrite <- Heq. }
  split; [done|].
  unfold getDeviceState. by rewrite (applyActions_other_serial _ _ _ _ Hall).
Qed.

End CommandTheorems.

(** The integration serves [X] only; the raw command for [X] leaves the
    objects of [A] as they were. *)
Lemma handleCommand_spares_other_devices_witness :
  SQLite3Service.getState
    (MqttIntegration.applyActions 0
       (MqttIntegration.handleCommand Scenario.parseForeignTopic
          (fun _ => None) (fun _ => None) (fun s => s) JStr (fun _ _ => None)
          "nest" {[ "X" ]} Scenario.objectRevisionFive 0
          Scenario.foreignTopic "21")
       Scenario.afterFirstWrite) "A" "device.A"
  = SQLite3Service.getState Scenario.afterFirstWrite "A" "device.A".
Proof.
  destruct (handleCommand_spares_other_devices Scenario.parseForeignTopic
              (fun _ => None) (fun _ => None) (fun s => s) JStr
              (fun _ _ => None) "nest" {[ "X" ]} Scenario.objectRevisionFive 0
              Scenario.foreignTopic "21" Scenario.afterFirstWrite "A")
    as (_ & _ & H).
  - vm_compute. intros H. discriminate H.
  - apply H.
Defined.

(** After the check the integration of user [u] serves [A]; the command
    for [X] names no device, [X] being neither owned by [u] nor shared
    with [u]. *)
Lemma commands_after_check_stay_with_user_witness :
  Forall (fun a => MqttIntegration.actionSerial a <> "X")
    (MqttIntegration.handleCommand Scenario.parseForeignTopic
       (fun _ => None) (fun _ => None) (fun s => s) JStr (fun _ _ => None)
       "nest"
       (list_to_set
          (MqttIntegration.deviceSerials
             (MqttIntegration.checkForDeviceChanges Scenario.ownedDb "u"
                Scenario.servingAZ).1))
       Scenario.objectRevisionFive 0 Scenario.foreignTopic "21").
Proof.
  destruct (commands_after_check_stay_with_user Scenario.parseForeignTopic
              (fun _ => None) (fun _ => None) (fun s => s) JStr
              (fun _ _ => None) Scenario.ownedDb "u" Scenario.servingAZ
              "nest" Scenario.objectRevisionFive 0 Scenario.foreignTopic "21"
              Scenario.afterFirstWrite "X")
    as (H & _).
  - reflexivity.
  - vm_compute. intros H. inversion H as [|? ? ? H']. inversion H'.
  - vm_compute. intros H. inversion H.
  - apply H.
Defined.

(** ** Runs of an integration *)

Section IntegrationRuns.
Import SQLite3Service MqttIntegration.

Implicit Types i : Integration.

Lemma handleAll_cons userId e es i :
  handleAll userId (e :: es) i
  = ((handleAll userId es (handle userId e i).1).1,
     (handle userId e i).2 ++ (handleAll userId es (handle userId e i).1).2).
Proof.
  cbn [handleAll]. destruct (handle userId e i) as [i1 out1]. cbn [fst snd].
  by destruct (handleAll userId es i1).
Qed.

Lemma publishAvailability_about i s b p :
  p ∈ publishAvailability i s b -> publicationSerial p = s.
Proof.
  unfold publishAvailability. destruct (hasClient i).
  - by intros ->%list_elem_of_singleton.
  - by intros ?%elem_of_nil.
Qed.

(** One event: a device that is not served, and that a poll does not find
    to be the user's, stays unserved and unmentioned. *)
Lemma handle_isolates userId e i s :
  s ∉ deviceSerials i ->
  (forall db, e = Polled db -> s ∉ loadUserDevices db userId) ->
  (s ∉ deviceSerials (handle userId e i).1)
  /\ forall p, p ∈ (handle userId e i).2 -> publicationSerial p <> s.
Proof.
  intros Hs Hdb. destruct e as [db|serial|serial|]; cbn [handle fst snd].
  - specialize (Hdb db eq_refl).
    rewrite <- currentSerials_loadUserDevices, elem_of_list_to_set in Hdb.
    destruct (isReady i) eqn:Hready.
    + destruct (checkForDeviceChanges_ready db userId i Hready)
        as (Hmem & _ & Hp & _).
      split; [by rewrite Hmem|].
      intros p Hin Heq.
      destruct (Hp p Hin) as [(_ & H & _)|(_ & H & _)]; rewrite Heq in H;
        done.
    + unfold checkForDeviceChanges. rewrite Hready. cbn [negb fst snd].
      split; [done|]. by intros p ?%elem_of_nil.
  - split; [done|]. unfold onDeviceConnected.
    destruct (setHas (deviceSerials i) serial) eqn:Hin; cbn [negb].
    + intros p ->%publishAvailability_about ->.
      by apply setHas_true in Hin.
    + by intros p ?%elem_of_nil.
  - split; [done|]. unfold onDeviceDisconnected.
    destruct (setHas (deviceSerials i) serial) eqn:Hin; cbn [negb].
    + intros p ->%publishAvailability_about ->.
      by apply setHas_true in Hin.
    + by intros p ?%elem_of_nil.
  - split; [done|]. unfold shutdown. cbn [snd].
    destruct (hasClient i); [|by intros p ?%elem_of_nil].
    intros p [serial [Hin Hp]]%list_elem_of_In%in_flat_map Heq.
    apply list_elem_of_In in Hin, Hp.
    apply publishAvailability_about in Hp. congruence.
Qed.

(** Once shut down, an integration stays silent. *)
Lemma handleAll_after_shutdown userId es i :
  isReady i = false -> hasClient i = false ->
  (handleAll userId es i).2 = [].
Proof.
  revert i. induction es as [|e es IH]; intros i Hr Hc; [done|].
  rewrite handleAll_cons. cbn [snd].
  assert (H : (handle userId e i).2 = []
              /\ isReady (handle userId e i).1 = false
              /\ hasClient (handle userId e i).1 = false).
  { destruct e as [db|serial|serial|]; cbn [handle fst snd].
    - unfold checkForDeviceChanges. by rewrite Hr.
    - unfold onDeviceConnected, publishAvailability. rewrite Hc.
      by destruct (negb _).
    - unfold onDeviceDisconnected, publishAvailability. rewrite Hc.
      by destruct (negb _).
    - unfold shutdown. by rewrite Hc. }
  destruct H as (-> & Hr' & Hc'). by rewrite IH.
Qed.

End IntegrationRuns.

(** X22. A user's broker hears nothing of a device that is not the
    user's: if the integration does not serve a device at the start, and
    no poll of the run finds it owned by or shared with the user, then no
    publication of the run, whatever the polls, connection events and
    shutdowns, is about that device, and the integration ends not serving
    it. *)
Theorem integration_isolates_foreign_devices (userId : string)
    (es : list MqttIntegration.Event) (i : MqttIntegration.Integration)
    (s : string) :
  s ∉ MqttIntegration.deviceSerials i ->
  (forall db, db ∈ MqttIntegration.polledDatabases es ->
              s ∉ MqttIntegration.loadUserDevices db userId) ->
  (s ∉ MqttIntegration.deviceSerials
         (MqttIntegration.handleAll userId es i).1)
  /\ forall p, p ∈ (MqttIntegration.handleAll userId es i).2 ->
               MqttIntegration.publicationSerial p <> s.
Proof.
  revert i. induction es as [|e es IH]; intros i Hs Hdb.
  { split; [done|]. by intros p ?%elem_of_nil. }
  rewrite handleAll_cons. cbn [fst snd].
  destruct (handle_isolates userId e i s Hs) as [Hs1 Hp1].
  { intros db ->. apply Hdb. by left. }
  destruct (IH (MqttIntegration.handle userId e i).1 Hs1) as [Hs2 Hp2].
  { intros db Hin. apply Hdb. destruct e; cbn [MqttIntegration.polledDatabases];
      try done. by right. }
  split; [done|].
  intros p [Hin|Hin]%elem_of_app; [by apply Hp1|by apply Hp2].
Qed.

(** Device [X] is not served and user [u] owns [A] only: a run with a
    poll, a connection of [X] and a shutdown says nothing about [X]. *)
Lemma integration_isolates_foreign_devices_witness :
  Forall (fun p => MqttIntegration.publicationSerial p <> "X")
    (MqttIntegration.handleAll "u"
       [ MqttIntegration.Polled Scenario.ownedDb;
         MqttIntegration.Connected "X";
         MqttIntegration.ShutDown ] Scenario.servingAZ).2.
Proof.
  apply Forall_forall.
  apply (integration_isolates_foreign_devices "u"
           [ MqttIntegration.Polled Scenario.ownedDb;
             MqttIntegration.Connected "X";
             MqttIntegration.ShutDown ] Scenario.servingAZ "X").
  - intros H. repeat (apply elem_of_cons in H as [H|H]; [discriminate H|]).
    by apply elem_of_nil in H.
  - intros db Hin. apply list_elem_of_singleton in Hin as ->.
    vm_compute. intros H. discriminate H.
Defined.

(** X23. A shutdown publishes every served device offline, once and in
    the order of the device set, when a client is connected and nothing
    otherwise; whatever reaches the integration afterwards is answered
    with silence. *)
Theorem shutdown_is_final (userId : string)
    (es : list MqttIntegration.Event) (i : MqttIntegration.Integration) :
  (MqttIntegration.handleAll userId (MqttIntegration.ShutDown :: es) i).2
  = if MqttIntegration.hasClient i
    then map (fun s => MqttIntegration.PublishAvailability s false)
           (MqttIntegration.deviceSerials i)
    else [].
Proof.
  rewrite handleAll_cons. cbn [snd MqttIntegration.handle].
  rewrite handleAll_after_shutdown by done. rewrite app_nil_r.
  unfold MqttIntegration.shutdown. cbn [snd].
  destruct (MqttIntegration.hasClient i) eqn:Hc; [|done].
  induction (MqttIntegration.deviceSerials i) as [|s l IH]; [done|].
  cbn [flat_map map]. rewrite IH.
  unfold MqttIntegration.publishAvailability. by rewrite Hc.
Qed.

(** ** The weather cache *)

Section WeatherFacts.
Import SQLite3Service.

Implicit Types rows : list WeatherRow.

Lemma weatherMatches_true postalCode country r :
  weatherMatches postalCode country r = true
  <-> weather_postalCode r = postalCode /\ weather_country r = country.
Proof.
  unfold weatherMatches.
  by rewrite andb_true_iff, !bool_decide_eq_true.
Qed.

Lemma getWeather_None rows postalCode country :
  getWeather rows postalCode country = None
  <-> filter (fun r => weatherMatches postalCode country r = true) rows = [].
Proof. unfold getWeather. by destruct (filter _ rows). Qed.

(** A write is read back. *)
Lemma upsertWeather_same rows postalCode country fetchedAt data :
  getWeather (upsertWeather rows postalCode country fetchedAt data)
    postalCode country
  = Some {| cache_data := storedJson data; cache_fetchedAt := fetchedAt |}.
Proof.
  unfold upsertWeather, upsertWeatherStatement.
  destruct (getWeather rows postalCode country) as [c|] eqn:Hget;
    cbn [runWeatherStatement].
  - unfold getWeather in *.
    induction rows as [|r rows IH]; [done|].
    cbn [map]. rewrite filter_cons in Hget. rewrite filter_cons.
    destruct (weatherMatches postalCode country r) eqn:Hr.
    + rewrite decide_True; [done|].
      apply weatherMatches_true in Hr as [? ?].
      by apply weatherMatches_true.
    + rewrite decide_False by (by rewrite Hr).
      rewrite decide_False in Hget by done. by apply IH.
  - apply getWeather_None in Hget. unfold getWeather.
    rewrite filter_app, Hget, filter_cons, decide_True; [done|].
    by apply weatherMatches_true.
Qed.

(** A write leaves the other locations as they were. *)
Lemma upsertWeather_other rows postalCode country fetchedAt data
    postalCode' country' :
  (postalCode', country') <> (postalCode, country) ->
  getWeather (upsertWeather rows postalCode country fetchedAt data)
    postalCode' country'
  = getWeather rows postalCode' country'.
Proof.
  intros Hne.
  assert (Hfilter :
    filter (fun r => weatherMatches postalCode' country' r = true)
      (upsertWeather rows postalCode country fetchedAt data)
    = filter (fun r => weatherMatches postalCode' country' r = true) rows).
  { unfold upsertWeather, upsertWeatherStatement.
    destruct (getWeather rows postalCode country) as [c|];
      cbn [runWeatherStatement].
    - induction rows as [|r rows IH]; [done|].
      cbn [map]. rewrite !filter_cons, IH.
      destruct (weatherMatches postalCode country r) eqn:Hr; [|done].
      apply weatherMatches_true in Hr as [Hp Hc].
      rewrite !decide_False; [done| |]; rewrite weatherMatches_true;
        cbn [weather_postalCode weather_country]; intros [? ?]; congruence.
    - rewrite filter_app, filter_cons, decide_False; [by rewrite app_nil_r|].
      rewrite weatherMatches_true. cbn. intros [? ?]. congruence. }
  unfold getWeather. by rewrite Hfilter.
Qed.

End WeatherFacts.

(** X24. Once the statement of an [upsertWeather] call has run, no other
    statement having run since the call read the table, [getWeather] for
    the location returns the data written, as JSON carries it, with its
    fetch time, and every other location reads as before. Two calls for a
    location that has no row, made before either statement has run, both
    insert; [getWeather] then returns the first of the two writes. *)
Theorem upsertWeather_read_back (rows : list SQLite3Service.WeatherRow)
    (postalCode country : string) (fetchedAt : Z) (data : value) :
  let rows' :=
    SQLite3Service.runWeatherStatement
      (SQLite3Service.upsertWeatherStatement rows postalCode country fetchedAt
         data) rows in
  SQLite3Service.getWeather rows' postalCode country
  = Some {| SQLite3Service.cache_data := storedJson data;
            SQLite3Service.cache_fetchedAt := fetchedAt |}
  /\ (forall postalCode' country',
        (postalCode', country') <> (postalCode, country) ->
        SQLite3Service.getWeather rows' postalCode' country'
        = SQLite3Service.getWeather rows postalCode' country')
  /\ (forall fetchedAt2 data2,
        SQLite3Service.getWeather rows postalCode country = None ->
        SQLite3Service.getWeather
          (SQLite3Service.runWeatherStatement
             (SQLite3Service.upsertWeatherStatement rows postalCode country
                fetchedAt2 data2) rows')
          postalCode country
        = Some {| SQLite3Service.cache_data := storedJson data;
                  SQLite3Service.cache_fetchedAt := fetchedAt |}).
Proof.
  intros rows'. split_and!.
  - apply upsertWeather_same.
  - intros postalCode' country' Hne. by apply upsertWeather_other.
  - intros fetchedAt2 data2 Hnone. subst rows'.
    unfold SQLite3Service.upsertWeatherStatement. rewrite Hnone.
    cbn [SQLite3Service.runWeatherStatement].
    apply getWeather_None in Hnone. unfold SQLite3Service.getWeather.
    rewrite !filter_app, Hnone, !filter_cons, !decide_True; [done| |];
      by apply weatherMatches_true.
Qed.

(** ** Pairing codes *)

Section EntryKeyFacts.
Import SQLite3Service.

Implicit Types rows : list EntryKeyRow.

Lemma entryKeyByCode_Some rows code r :
  entryKeyByCode rows code = Some r -> r ∈ rows /\ entry_code r = code.
Proof.
  unfold entryKeyByCode. intros H%head_Some_elem_of.
  by apply list_elem_of_filter in H as [? ?].
Qed.

Lemma entryKeyByCode_None rows code :
  entryKeyByCode rows code = None <-> code ∉ entry_code <$> rows.
Proof.
  unfold entryKeyByCode. induction rows as [|r rows IH].
  - split; [intros _; apply not_elem_of_nil|done].
  - rewrite filter_cons, fmap_cons, not_elem_of_cons.
    destruct (decide (entry_code r = code)) as [Hr|Hr].
    + split; [done|]. by intros [? _].
    + rewrite IH. split; [|by intros [_ ?]]. intros ?. split; [congruence|done].
Qed.

Lemma entryKeyByCode_snoc rows new code :
  entryKeyByCode (rows ++ [new]) code
  = match entryKeyByCode rows code with
    | Some r => Some r
    | None => if decide (entry_code new = code) then Some new else None
    end.
Proof.
  unfold entryKeyByCode. rewrite filter_app, filter_cons, filter_nil.
  destruct (filter _ rows); [|done].
  by destruct (decide (entry_code new = code)).
Qed.

(** The loop settles on the first free code among the draws of its
    turns. *)
Lemma allocateCode_Some draw nowMs rows remaining attempts code :
  allocateCode draw nowMs rows remaining attempts = Some code
  <-> exists n, (attempts <= n < attempts + remaining)%nat
                /\ code = draw n
                /\ codeFree nowMs rows (draw n) = true
                /\ forall j, (attempts <= j < n)%nat ->
                             codeFree nowMs rows (draw j) = false.
Proof.
  revert attempts.
  induction remaining as [|remaining IH]; intros attempts; cbn [allocateCode].
  { split; [done|]. intros (n & ? & _). lia. }
  assert (Hfree : codeFree nowMs rows (draw attempts)
                  = match entryKeyByCode rows (draw attempts) with
                    | None => true
                    | Some codeDoc =>
                        (entry_expiresAt codeDoc <? nowMs) && unclaimed codeDoc
                    end) by done.
  assert (Hhere : codeFree nowMs rows (draw attempts) = true ->
                  (Some (draw attempts) = Some code
                   <-> exists n, (attempts <= n < attempts + S remaining)%nat
                          /\ code = draw n
                          /\ codeFree nowMs rows (draw n) = true
                          /\ forall j, (attempts <= j < n)%nat ->
                                       codeFree nowMs rows (draw j) = false)).
  { intros Hf. split.
    - intros [= <-]. exists attempts. split_and!; [lia|lia|done|done|].
      intros j ?. lia.
    - intros (n & Hn & -> & _ & Hbusy).
      destruct (decide (n = attempts)) as [->|Hne]; [done|].
      rewrite Hbusy in Hf by lia. done. }
  destruct (entryKeyByCode rows (draw attempts)) as [codeDoc|].
  - destruct ((entry_expiresAt codeDoc <? nowMs) && unclaimed codeDoc).
    + by apply Hhere.
    + rewrite IH. split.
      * intros (n & Hn & -> & Hf & Hbusy).
        exists n. split_and!; [lia|lia|done|done|].
        intros j Hj. destruct (decide (j = attempts)) as [->|]; [done|].
        apply Hbusy. lia.
      * intros (n & Hn & -> & Hf & Hbusy).
        assert (n <> attempts) by (intros ->; congruence).
        exists n. split_and!; [lia|lia|done|done|].
        intros j Hj. apply Hbusy. lia.
  - by apply Hhere.
Qed.

Lemma allocateCode_None draw nowMs rows remaining attempts :
  allocateCode draw nowMs rows remaining attempts = None
  <-> forall n, (attempts <= n < attempts + remaining)%nat ->
                codeFree nowMs rows (draw n) = false.
Proof.
  revert attempts.
  induction remaining as [|remaining IH]; intros attempts; cbn [allocateCode].
  { split; [|done]. intros _ n ?. lia. }
  assert (Hfree : codeFree nowMs rows (draw attempts)
                  = match entryKeyByCode rows (draw attempts) with
                    | None => true
                    | Some codeDoc =>
                        (entry_expiresAt codeDoc <? nowMs) && unclaimed codeDoc
                    end) by done.
  destruct (entryKeyByCode rows (draw attempts)) as [codeDoc|].
  - destruct ((entry_expiresAt codeDoc <? nowMs) && unclaimed codeDoc).
    + split; [done|]. intros H. rewrite H in Hfree by lia. done.
    + rewrite IH. split.
      * intros H n Hn. destruct (decide (n = attempts)) as [->|]; [done|].
        apply H. lia.
      * intros H n Hn. apply H. lia.
  - split; [done|]. intros H. rewrite H in Hfree by lia. done.
Qed.

Lemma codes_unique rows r r' :
  NoDup (entry_code <$> rows) -> r ∈ rows -> r' ∈ rows ->
  entry_code r = entry_code r' -> r = r'.
Proof.
  induction rows as [|x rows IH]; [by intros _ ?%elem_of_nil|].
  rewrite fmap_cons, NoDup_cons. intros [Hx Hnd].
  intros [->|Hr]%elem_of_cons [->|Hr']%elem_of_cons Heq; [done| | |by apply IH].
  - destruct Hx. rewrite Heq. by apply list_elem_of_fmap_2.
  - destruct Hx. rewrite <- Heq. by apply list_elem_of_fmap_2.
Qed.

End EntryKeyFacts.

(** X25. A pairing code that is handed out. When [generateEntryKey]
    returns a key, its code is the first free one among at most twenty
    draws, it expires [ttlSeconds] seconds (an hour by default) after the
    call, the table is the old one without the keys of the device plus
    one fresh unclaimed row, which is the only key of the device, and any
    other row that carries the code is an expired, unclaimed key of
    another device provided codes were unique before. The row is appended
    even when the code is taken from such an expired key: the look-up by
    code then still finds the expired key of the other device, not the new
    one. *)
Theorem generateEntryKey_hands_out (draw : nat -> string) (nowMs : Z)
    (rows : list SQLite3Service.EntryKeyRow) (serial : string)
    (ttlSeconds : option Z)
    (rows' : list SQLite3Service.EntryKeyRow)
    (key : SQLite3Service.StateEntryKey) :
  SQLite3Service.generateEntryKey draw nowMs rows serial ttlSeconds
  = (rows', Some key) ->
  let kept := filter (fun r => SQLite3Service.entry_serial r <> serial) rows in
  let code := SQLite3Service.key_code key in
  let fresh := freshEntryKey nowMs serial ttlSeconds code in
  (exists n, (n < 20)%nat /\ code = draw n
             /\ codeFree nowMs kept code = true
             /\ forall j, (j < n)%nat -> codeFree nowMs kept (draw j) = false)
  /\ SQLite3Service.key_expiresAt key = nowMs + default 3600 ttlSeconds * 1000
  /\ rows' = kept ++ [fresh]
  /\ filter (fun r => SQLite3Service.entry_serial r = serial) rows' = [fresh]
  /\ (NoDup (SQLite3Service.entry_code <$> rows) ->
      forall r, r ∈ rows' -> SQLite3Service.entry_code r = code ->
        r = fresh
        \/ (SQLite3Service.entry_serial r <> serial
            /\ SQLite3Service.entry_expiresAt r < nowMs
            /\ SQLite3Service.unclaimed r = true))
  /\ (code ∈ SQLite3Service.entry_code <$> kept ->
      exists old, SQLite3Service.entryKeyByCode rows' code = Some old
                  /\ old ∈ rows
                  /\ SQLite3Service.entry_serial old <> serial
                  /\ SQLite3Service.entry_expiresAt old < nowMs).
Proof.
  intros Hgen kept code fresh.
  unfold SQLite3Service.generateEntryKey in Hgen. fold kept in Hgen.
  destruct (SQLite3Service.allocateCode draw nowMs kept 20 0) as [c|] eqn:Hloop;
    [|done].
  case_bool_decide as Hempty; [done|].
  injection Hgen as <- <-. cbn [SQLite3Service.key_code] in code.
  subst code. fold (freshEntryKey nowMs serial ttlSeconds c). fold fresh.
  apply allocateCode_Some in Hloop as (n & Hn & -> & Hfree & Hbusy).
  assert (Hkept : forall r, r ∈ kept ->
                            r ∈ rows /\ SQLite3Service.entry_serial r <> serial).
  { intros r Hr. subst kept. apply list_elem_of_filter in Hr. tauto. }
  split_and!.
  - exists n. split_and!; [lia|done|done|]. intros j Hj. apply Hbusy. lia.
  - done.
  - done.
  - rewrite filter_app.
    replace (filter (fun r => SQLite3Service.entry_serial r = serial) kept)
      with (@nil SQLite3Service.EntryKeyRow).
    + rewrite filter_cons, decide_True by done. done.
    + symmetry. clear -Hkept.
      induction kept as [|r l IH]; [done|].
      rewrite filter_cons, decide_False.
      * apply IH. intros r' Hr'. apply Hkept. by right.
      * apply Hkept. by left.
  - intros Hnd r [Hr|Hr]%elem_of_app Hcode.
    + right. unfold codeFree in Hfree.
      destruct (SQLite3Service.entryKeyByCode kept (draw n)) as [doc|] eqn:Hdoc.
      * apply entryKeyByCode_Some in Hdoc as [Hin Hdc].
        destruct (Hkept r Hr) as [Hr0 Hrs].
        destruct (Hkept doc Hin) as [Hd0 _].
        assert (r = doc) as ->
          by (apply (codes_unique rows); [done|done|done|congruence]).
        apply andb_true_iff in Hfree as [Hexp ?].
        apply Z.ltb_lt in Hexp. done.
      * apply entryKeyByCode_None in Hdoc. destruct Hdoc.
        rewrite <- Hcode. by apply list_elem_of_fmap_2.
    + left. by apply list_elem_of_singleton in Hr.
  - intros Hheld. rewrite entryKeyByCode_snoc.
    unfold codeFree in Hfree.
    destruct (SQLite3Service.entryKeyByCode kept (draw n)) as [doc|] eqn:Hdoc.
    + exists doc. apply entryKeyByCode_Some in Hdoc as [Hin Hdc].
      destruct (Hkept doc Hin) as [? ?].
      apply andb_true_iff in Hfree as [Hexp ?]. apply Z.ltb_lt in Hexp. done.
    + by apply entryKeyByCode_None in Hdoc.
Qed.

(** X26. When each of the twenty codes drawn is held, at the look-up, by
    a key that is claimed or has not expired, [generateEntryKey] returns
    no key; the keys the device had are deleted all the same, and no draw
    beyond the twentieth is looked at. *)
Theorem generateEntryKey_gives_up (draw : nat -> string) (nowMs : Z)
    (rows : list SQLite3Service.EntryKeyRow) (serial : string)
    (ttlSeconds : option Z) :
  let kept := filter (fun r => SQLite3Service.entry_serial r <> serial) rows in
  (forall n, (n < 20)%nat -> codeFree nowMs kept (draw n) = false) ->
  SQLite3Service.generateEntryKey draw nowMs rows serial ttlSeconds
  = (kept, None).
Proof.
  intros kept Hbusy. unfold SQLite3Service.generateEntryKey. fold kept.
  replace (SQLite3Service.allocateCode draw nowMs kept 20 0) with (@None string);
    [done|].
  symmetry. apply allocateCode_None. intros n Hn. apply Hbusy. lia.
Qed.

(** Device [A] asks for a key; the second draw, the expired code of [B],
    is handed out for an hour, and the look-up by that code still finds
    the key of [B]. *)
Lemma generateEntryKey_hands_out_witness :
  SQLite3Service.key_expiresAt
    {| SQLite3Service.key_code := "123ABCD";
       SQLite3Service.key_expiresAt := 3605000 |}
  = 5000 + default 3600 None * 1000
  /\ exists old,
       SQLite3Service.entryKeyByCode
         (Scenario.pairingKeys
          ++ [freshEntryKey 5000 "A" None "123ABCD"]) "123ABCD" = Some old
       /\ SQLite3Service.entry_serial old = "B".
Proof.
  destruct (generateEntryKey_hands_out Scenario.drawTakenThenExpired 5000
              Scenario.pairingKeys "A" None
              (Scenario.pairingKeys ++ [freshEntryKey 5000 "A" None "123ABCD"])
              {| SQLite3Service.key_code := "123ABCD";
                 SQLite3Service.key_expiresAt := 3605000 |})
    as (_ & Hexpires & _ & _ & _ & Hold).
  - vm_compute. reflexivity.
  - split; [exact Hexpires|].
    destruct Hold as (old & Hfound & _).
    + vm_compute. constructor.
    + exists old. split; [exact Hfound|].
      vm_compute in Hfound. by injection Hfound as <-.
Defined.

(** Every draw gives the live code of [C]: device [B] gets no key and has
    lost the one it had. *)
Lemma generateEntryKey_gives_up_witness :
  SQLite3Service.generateEntryKey Scenario.drawTaken 5000
    Scenario.pairingKeys "B" None
  = (filter (fun r => SQLite3Service.entry_serial r <> "B")
       Scenario.pairingKeys, None).
Proof.
  apply (generateEntryKey_gives_up Scenario.drawTaken 5000
           Scenario.pairingKeys "B" None).
  intros n _. vm_compute. reflexivity.
Defined.

(** ** The status filter *)

Section StatusFilter.
Import StatusRoute.

Lemma pretty_N_char_digit x : isDigit (pretty_N_char x) = true.
Proof.
  unfold pretty_N_char. by repeat case_match.
Qed.

Lemma pretty_N_go_digit x s :
  (0 < x)%N \/ startsWithDigit s = true ->
  startsWithDigit (pretty_N_go x s) = true.
Proof.
  revert s. induction (N.lt_wf_0 x) as [x _ IH]; intros s Hor.
  assert (x = 0 \/ 0 < x)%N as [->|Hpos] by lia.
  - rewrite pretty_N_go_0. destruct Hor; [lia|done].
  - rewrite pretty_N_go_step by done. apply IH.
    + by apply N.div_lt.
    + right. apply pretty_N_char_digit.
Qed.

Lemma pretty_nat_digit (i : nat) : startsWithDigit (pretty i) = true.
Proof.
  unfold pretty, pretty_nat, pretty, pretty_N.
  case_decide as Hz; [done|]. apply pretty_N_go_digit. left. lia.
Qed.

Lemma allowedKey_digit k : startsWithDigit k = true -> allowedKey k = false.
Proof.
  destruct k as [|c k]; [done|]. cbn [startsWithDigit].
  destruct c as [[] [] [] [] [] [] [] []]; intros H; vm_compute in H;
    try discriminate H; reflexivity.
Qed.

(** The keys of an array and of a string are indices. *)
Lemma entries_index v k x :
  (forall m, v <> JObj m) -> (k, x) ∈ entries v -> startsWithDigit k = true.
Proof.
  intros Hv. destruct v as [| | | |s|l|m]; cbn [entries];
    try (by intros ?%elem_of_nil).
  - intros (i & c & [= -> _] & _)%elem_of_lookup_imap. apply pretty_nat_digit.
  - intros (i & y & [= -> _] & _)%elem_of_lookup_imap. apply pretty_nat_digit.
  - by destruct (Hv m).
Qed.

(** The inner loop, by look-up. *)
Lemma serialState_fold_lookup (l : list (string * value))
    (acc : gmap string value) k :
  NoDup l.*1 ->
  fold_left
    (fun (serialState : gmap string value) '(key, value) =>
       if allowedKey key then <[key := value]> serialState else serialState)
    l acc !! k
  = if allowedKey k
    then match (list_to_map l : gmap string value) !! k with
         | Some x => Some x
         | None => acc !! k
         end
    else acc !! k.
Proof.
  revert acc. induction l as [|[k0 x0] l IH]; intros acc Hnd.
  { cbn [fold_left]. rewrite list_to_map_nil, lookup_empty.
    by destruct (allowedKey k). }
  rewrite fmap_cons, NoDup_cons in Hnd. destruct Hnd as [Hk0 Hnd].
  cbn [fold_left]. rewrite (IH _ Hnd), list_to_map_cons.
  destruct (decide (k = k0)) as [->|Hne].
  - rewrite lookup_insert_eq.
    rewrite (proj1 (not_elem_of_list_to_map l k0) Hk0).
    destruct (allowedKey k0); [by rewrite lookup_insert_eq|done].
  - rewrite lookup_insert_ne by done.
    destruct (allowedKey k0); [by rewrite lookup_insert_ne|done].
Qed.

Lemma serialState_fold_none (l : list (string * value))
    (acc : gmap string value) :
  (forall k x, (k, x) ∈ l -> allowedKey k = false) ->
  fold_left
    (fun (serialState : gmap string value) '(key, value) =>
       if allowedKey key then <[key := value]> serialState else serialState)
    l acc = acc.
Proof.
  revert acc. induction l as [|[k0 x0] l IH]; intros acc Hall; [done|].
  cbn [fold_left]. rewrite (Hall k0 x0) by (by left).
  apply IH. intros k x Hin. apply (Hall k x). by right.
Qed.

(** Of an object, the filter keeps the entries with an allowed key. *)
Lemma serialStateOf_object m k :
  serialStateOf (JObj m) !! k = if allowedKey k then m !! k else None.
Proof.
  unfold serialStateOf. cbn [entries].
  rewrite serialState_fold_lookup by apply NoDup_fst_map_to_list.
  rewrite list_to_map_to_list, lookup_empty.
  destruct (allowedKey k); [|done]. by destruct (m !! k).
Qed.

(** Of anything else it keeps nothing. *)
Lemma serialStateOf_other v :
  (forall m, v <> JObj m) -> serialStateOf v = ∅.
Proof.
  intros Hv. unfold serialStateOf. apply serialState_fold_none.
  intros k x Hin. apply allowedKey_digit. by apply (entries_index v k x).
Qed.

Lemma value_object_or_not v : (exists m, v = JObj m) \/ (forall m, v <> JObj m).
Proof. destruct v; try (by right); left; by eexists. Qed.

Lemma serialStateOf_sound v k x :
  serialStateOf v !! k = Some x -> allowedKey k = true /\ member v k = x.
Proof.
  destruct (value_object_or_not v) as [[m ->]|Hv].
  - rewrite serialStateOf_object. destruct (allowedKey k); [|done].
    intros Hm. split; [done|]. cbn [member]. unfold get. by rewrite Hm.
  - by rewrite (serialStateOf_other v Hv), lookup_empty.
Qed.



(** The outer loop. *)
Lemma filterStep_shown data acc serial :
  filterStep data acc serial
  = if shown data serial
    then {| devices := devices acc ++ [serial];
            deviceState :=
              assign (deviceState acc) serial
                (serialStateOf (deviceObjects data serial)) |}
    else acc.
Proof.
  unfold filterStep, shown, deviceObjects.
  destruct (truthy (member data "deviceState")); [|done].
  by destruct (truthy (member (member data "deviceState") serial)).
Qed.

Lemma filter_fold_devices data serials acc :
  devices (fold_left (filterStep data) serials acc)
  = devices acc ++ filter (fun s => shown data s = true) serials.
Proof.
  revert acc. induction serials as [|s serials IH]; intros acc.
  { by rewrite app_nil_r. }
  cbn [fold_left]. rewrite IH, filterStep_shown, filter_cons.
  destruct (shown data s).
  - rewrite decide_True by done. cbn [devices]. by rewrite <- app_assoc.
  - by rewrite decide_False by done.
Qed.

Lemma filter_fold_lookup data serials acc s :
  deviceState acc !! "__proto__" = None ->
  deviceState (fold_left (filterStep data) serials acc) !! s
  = if bool_decide (s ∈ serials) && shown data s
       && negb (bool_decide (s = "__proto__"))
    then Some (serialStateOf (deviceObjects data s))
    else deviceState acc !! s.
Proof.
  revert acc. induction serials as [|s0 serials IH]; intros acc Hacc.
  { cbn [fold_left]. by rewrite bool_decide_eq_false_2 by apply not_elem_of_nil. }
  cbn [fold_left].
  assert (Hstep : deviceState (filterStep data acc s0) !! s
                  = if bool_decide (s = s0) && shown data s
                       && negb (bool_decide (s = "__proto__"))
                    then Some (serialStateOf (deviceObjects data s))
                    else deviceState acc !! s).
  { rewrite filterStep_shown. destruct (decide (s = s0)) as [Hs|Hs].
    - rewrite (bool_decide_eq_true_2 _ Hs). subst s0.
      destruct (shown data s); cbn [andb deviceState]; [|done].
      rewrite lookup_assign, decide_True by done.
      destruct (decide (s = "__proto__")) as [Hp|Hp].
      + rewrite (bool_decide_eq_true_2 _ Hp). subst s. by rewrite Hacc.
      + by rewrite (bool_decide_eq_false_2 _ Hp).
    - rewrite (bool_decide_eq_false_2 _ Hs). cbn [andb].
      destruct (shown data s0); cbn [deviceState]; [|done].
      rewrite lookup_assign. by rewrite decide_False by done. }
  rewrite IH.
  2:{ rewrite filterStep_shown. destruct (shown data s0); [|done].
      cbn [deviceState]. rewrite lookup_assign.
      destruct (decide ("__proto__" = s0)) as [<-|]; [|done].
      rewrite decide_True by done. by rewrite Hacc. }
  rewrite Hstep.
  assert (Hiff : bool_decide (s ∈ s0 :: serials)
                 = bool_decide (s = s0) || bool_decide (s ∈ serials)).
  { apply eq_true_iff_eq. rewrite orb_true_iff, !bool_decide_eq_true.
    apply elem_of_cons. }
  rewrite Hiff.
  destruct (bool_decide (s ∈ serials)), (bool_decide (s = s0)),
    (shown data s), (bool_decide (s = "__proto__")); done.
Qed.

(** Data that is falsy shows nothing. *)
Lemma shown_falsy data s : truthy data = false -> shown data s = false.
Proof.
  intros Hdata. unfold shown.
  replace (member data "deviceState") with JUndef; [done|].
  destruct data as [| |[]|n|str|l|m]; try done.
  cbn [truthy] in Hdata. apply negb_false_iff, bool_decide_eq_true in Hdata.
  by subst str.
Qed.

(** The whole filter, by look-up. *)
Lemma filterStateBySerials_lookup data serials s :
  deviceState (filterStateBySerials data serials) !! s
  = if bool_decide (s ∈ serials) && shown data s
       && negb (bool_decide (s = "__proto__"))
    then Some (serialStateOf (deviceObjects data s))
    else None.
Proof.
  unfold filterStateBySerials.
  destruct (truthy data) eqn:Hdata; cbn [negb].
  - destruct serials as [|s0 serials].
    + cbn. by rewrite lookup_empty.
    + cbn [length Nat.eqb]. by rewrite filter_fold_lookup.
  - cbn [emptyState deviceState]. rewrite lookup_empty.
    by rewrite (shown_falsy data s Hdata), andb_false_r.
Qed.

Lemma filterStateBySerials_devices data serials :
  devices (filterStateBySerials data serials)
  = filter (fun s => shown data s = true) serials.
Proof.
  unfold filterStateBySerials.
  destruct (truthy data) eqn:Hdata; cbn [negb].
  - destruct serials as [|s0 serials]; [done|].
    cbn [length Nat.eqb]. by rewrite filter_fold_devices.
  - cbn [emptyState devices]. symmetry.
    induction serials as [|s serials IH]; [done|].
    rewrite filter_cons, decide_False; [done|].
    by rewrite (shown_falsy data s Hdata).
Qed.



End StatusFilter.

(** X27. The status filter shows what was asked for and nothing else.
    The list [devices] names, in the order asked, the serials asked for
    whose entry in the data is truthy and has a key that starts with one
    of the five allowed prefixes. Each of them other than [__proto__] has
    an entry in [deviceState], and nothing else has one: the serial
    [__proto__] is listed without an entry. Every entry is non-empty, holds
    only keys that start with an allowed prefix, and holds under each key
    the value the data has there. Conversely every allowed key of an
    object the data has for a serial asked for, other than [__proto__], is
    in the response. *)
Theorem filterStateBySerials_shows_only_asked (data : value)
    (serials : list string) :
  let r := StatusRoute.filterStateBySerials data serials in
  StatusRoute.devices r = filter (fun s => shown data s = true) serials
  /\ (forall s, is_Some (StatusRoute.deviceState r !! s)
                <-> s ∈ StatusRoute.devices r /\ s <> "__proto__")
  /\ (forall s st, StatusRoute.deviceState r !! s = Some st ->
        s ∈ serials /\ st <> ∅
        /\ forall k x, st !! k = Some x ->
             StatusRoute.allowedKey k = true
             /\ StatusRoute.member (deviceObjects data s) k = x)
  /\ (forall s m k x,
        s ∈ serials -> s <> "__proto__" ->
        deviceObjects data s = JObj m -> m !! k = Some x ->
        StatusRoute.allowedKey k = true ->
        exists st, StatusRoute.deviceState r !! s = Some st /\ st !! k = Some x).
Proof.
  intros r. subst r. split_and!.
  - apply filterStateBySerials_devices.
  - intros s. rewrite filterStateBySerials_devices, list_elem_of_filter.
    rewrite filterStateBySerials_lookup.
    destruct (decide (s ∈ serials)) as [Hs|Hs].
    2:{ rewrite (bool_decide_eq_false_2 _ Hs). cbn [andb].
        split; [by intros [? ?]|tauto]. }
    rewrite (bool_decide_eq_true_2 _ Hs). cbn [andb].
    destruct (decide (s = "__proto__")) as [Hp|Hp].
    + rewrite (bool_decide_eq_true_2 _ Hp), andb_false_r.
      split; [by intros [? ?]|tauto].
    + rewrite (bool_decide_eq_false_2 _ Hp), andb_true_r.
      destruct (shown data s).
      * split; [done|by eexists].
      * split; [by intros [? ?]|]. by intros [[? _] _].
  - intros s st. rewrite filterStateBySerials_lookup.
    case_bool_decide as Hin; [|done]. cbn [andb].
    destruct (shown data s) eqn:Hshown; [|done]. cbn [andb].
    destruct (negb _); [|done]. intros [= <-].
    split_and!; [done| |].
    + unfold shown in Hshown. apply andb_true_iff in Hshown as [_ Hlen].
      intros Hempty. rewrite Hempty, map_to_list_empty in Hlen. done.
    + intros k x. apply serialStateOf_sound.
  - intros s m k x Hin Hp Hobj Hm Hk. rewrite filterStateBySerials_lookup.
    rewrite bool_decide_eq_true_2 by done.
    rewrite (bool_decide_eq_false_2 _ Hp). cbn [andb negb]. rewrite andb_true_r.
    assert (Hst : StatusRoute.serialStateOf (deviceObjects data s) !! k = Some x).
    { by rewrite Hobj, serialStateOf_object, Hk. }
    assert (Hshown : shown data s = true).
    { unfold shown. rewrite Hobj. cbn [StatusRoute.truthy]. rewrite andb_true_r.
      apply andb_true_iff. split.
      - unfold deviceObjects in Hobj.
        destruct (StatusRoute.member data "deviceState")
          as [| |[]|n|str|l|m']; try done.
        cbn [StatusRoute.member] in Hobj. cbn [StatusRoute.truthy].
        destruct str as [|c str]; [|by rewrite bool_decide_eq_false_2].
        destruct (bool_decide (s = "length")); cbn in Hobj; discriminate Hobj.
      - rewrite <- Hobj. apply Nat.ltb_lt.
        destruct (map_to_list (StatusRoute.serialStateOf (deviceObjects data s)))
          eqn:Hl; [|cbn; lia].
        apply map_to_list_empty_iff in Hl. by rewrite Hl, lookup_empty in Hst. }
    rewrite Hshown. by eexists.
Qed.


(** Asked for [A] and [Z], the filter answers with [A] alone, its session
    log left out. *)
Lemma filterStateBySerials_example :
  let r := StatusRoute.filterStateBySerials Scenario.statusData ["A"; "Z"] in
  StatusRoute.devices r = ["A"]
  /\ StatusRoute.deviceState r !! "A"
     = Some {[ "device.A" := JObj {[ "away" := JBool false ]} ]}
  /\ StatusRoute.deviceState r !! "B" = None.
Proof. vm_compute. done. Qed.

(** Asked for the serial [__proto__] of data that has an entry under it,
    the filter lists the serial without an entry; filtered again, the
    response lists nothing. *)
Lemma filterStateBySerials_proto_example :
  let data :=
    JObj {[ "deviceState" :=
              JObj {[ "__proto__" :=
                        JObj {[ "device.A" := JObj {[ "away" := JBool false ]} ]} ]} ]} in
  let r := StatusRoute.filterStateBySerials data ["__proto__"] in
  StatusRoute.devices r = ["__proto__"]
  /\ StatusRoute.deviceState r = ∅
  /\ StatusRoute.filterStateBySerials (StatusRoute.responseValue r) ["__proto__"]
     = StatusRoute.emptyState.
Proof. vm_compute. done. Qed.

(** ** Reading the whole store *)

Section WholeStore.
Import SQLite3Service.

(** The loop of [getAllState] over rows with distinct keys and ordinary
    serials, read by serial and object key. *)
Lemma lookup_buckets_loop (rows : list StateRow)
    (acc : gmap string (gmap string JS.value)) serial objectKey :
  NoDup (rowKey <$> rows) ->
  Forall (fun r => inherited (row_serial r) = false) rows ->
  (forall s b, acc !! s = Some b -> b !! "__proto__" = None) ->
  fold_left bucketStep rows acc !! serial ≫= (.!! objectKey)
  = if decide (objectKey = "__proto__") then None
    else match head (filter (fun r => matches serial objectKey r = true) rows) with
         | Some r => Some (bucketEntry r)
         | None => acc !! serial ≫= (.!! objectKey)
         end.
Proof.
  revert acc. induction rows as [|r rows IH]; intros acc.
  { intros _ _ Hacc. cbn [fold_left].
    destruct (decide (objectKey = "__proto__")) as [->|]; [|done].
    destruct (acc !! serial) as [b|] eqn:Hb; [|done]. cbn.
    by apply (Hacc serial). }
  rewrite fmap_cons, NoDup_cons. intros [Hr Hnd] [Hord Hrows]%Forall_cons Hacc.
  cbn [fold_left].
  set (b0 := default ∅ (acc !! row_serial r)).
  assert (Hb0 : b0 !! "__proto__" = None).
  { subst b0. destruct (acc !! row_serial r) as [b|] eqn:Hb; [|done].
    by apply (Hacc (row_serial r)). }
  assert (Hstep : bucketStep acc r
                  = <[row_serial r := assign b0 (row_object_key r) (bucketEntry r)]>
                      acc).
  { unfold bucketStep. subst b0. rewrite Hord.
    by destruct (acc !! row_serial r). }
  rewrite Hstep. clear Hstep.
  rewrite IH; [|done|done|].
  2:{ intros s b. destruct (decide (row_serial r = s)) as [<-|Hne].
      - rewrite lookup_insert_eq. intros [= <-]. rewrite lookup_assign.
        destruct (decide ("__proto__" = row_object_key r)) as [<-|]; [|done].
        rewrite decide_True by done. by rewrite Hb0.
      - rewrite lookup_insert_ne by done. apply Hacc. }
  destruct (decide (objectKey = "__proto__")) as [Hk|Hk]; [done|].
  rewrite filter_cons.
  assert (Hold : acc !! serial ≫= (.!! objectKey)
                 = if decide (row_serial r = serial) then b0 !! objectKey
                   else acc !! serial ≫= (.!! objectKey)).
  { destruct (decide (row_serial r = serial)) as [Hs|]; [|done].
    subst b0. rewrite Hs. by destruct (acc !! serial). }
  destruct (decide (matches serial objectKey r = true)) as [Hm|Hm].
  - apply matches_true in Hm. rewrite Hm in Hr.
    apply filter_matches_None in Hr. rewrite Hr. cbn [head].
    injection Hm as Hs Hkey.
    rewrite <- Hs, lookup_insert_eq. cbn. rewrite lookup_assign.
    rewrite Hkey, decide_True by done. by rewrite decide_False by done.
  - destruct (head (filter _ rows)); [done|]. rewrite Hold.
    destruct (decide (row_serial r = serial)) as [Hs|Hs].
    + rewrite <- Hs, lookup_insert_eq. cbn. rewrite lookup_assign.
      rewrite decide_False; [done|].
      intros Hkey. apply Hm, matches_true. unfold rowKey. congruence.
    + by rewrite lookup_insert_ne.
Qed.

End WholeStore.

(** X29. The readers of the store agree. With one row per key and no row
    under a serial that is an inherited property name, [getAllState]
    holds under a serial and an object key other than [__proto__] exactly
    the entry of the row stored for them, which is the entry
    [getAllStateForDevice] returns for that serial and key and the row
    whose object [getState] returns; a key nothing is stored for is absent
    from all three. Under the object key [__proto__] the first two hold
    nothing, whatever [getState] returns. *)
Theorem getAllState_lookup (db : SQLite3Service.Database)
    (serial objectKey : string) :
  oneRowPerKey db ->
  Forall (fun r => inherited (SQLite3Service.row_serial r) = false)
         (SQLite3Service.states db) ->
  let entry := SQLite3Service.getAllState db !! serial ≫= (.!! objectKey) in
  entry = (if decide (objectKey = "__proto__") then None
           else SQLite3Service.bucketEntry
                  <$> SQLite3Service.storedRow db serial objectKey)
  /\ entry = SQLite3Service.getAllStateForDevice db serial objectKey
               !! serial ≫= (.!! objectKey)
  /\ SQLite3Service.getState db serial objectKey
     = SQLite3Service.rowObject
         <$> SQLite3Service.storedRow db serial objectKey.
Proof.
  intros Hone Hord entry.
  assert (Hempty : forall s (b : gmap string value),
            (∅ : gmap string (gmap string value)) !! s = Some b ->
            b !! "__proto__" = None).
  { intros s b. by rewrite lookup_empty. }
  assert (Hentry : entry
                   = if decide (objectKey = "__proto__") then None
                     else SQLite3Service.bucketEntry
                            <$> SQLite3Service.storedRow db serial objectKey).
  { subst entry. unfold SQLite3Service.getAllState.
    rewrite lookup_buckets_loop by done.
    destruct (decide (objectKey = "__proto__")); [done|].
    unfold SQLite3Service.storedRow. by destruct (head _). }
  split_and!.
  - done.
  - rewrite Hentry. unfold SQLite3Service.getAllStateForDevice.
    rewrite lookup_buckets_loop.
    + destruct (decide (objectKey = "__proto__")); [done|].
      rewrite list_filter_filter.
      rewrite (list_filter_iff _
                 (fun r => SQLite3Service.matches serial objectKey r = true))
        by (intros r; tauto).
      unfold SQLite3Service.storedRow. by destruct (head _).
    + eapply sublist_NoDup; [exact Hone|].
      apply fmap_sublist, sublist_filter.
    + apply Forall_forall. intros r [_ Hr]%list_elem_of_filter.
      rewrite Forall_forall in Hord. by apply Hord.
    + done.
  - unfold SQLite3Service.getState, SQLite3Service.storedRow.
    by destruct (filter _ _).
Qed.

(** After the first write of [device.A], the whole store holds its entry
    under [A] and [device.A]. *)
Lemma getAllState_lookup_witness :
  SQLite3Service.getAllState Scenario.afterFirstWrite !! "A"
    ≫= (.!! "device.A")
  = SQLite3Service.bucketEntry
      <$> SQLite3Service.storedRow Scenario.afterFirstWrite "A" "device.A".
Proof.
  destruct (getAllState_lookup Scenario.afterFirstWrite "A" "device.A")
    as (H & _).
  - apply upsertState_oneRowPerKey. apply NoDup_nil_2.
  - apply Forall_cons. split; [reflexivity|apply Forall_nil_2].
  - exact H.
Defined.

(** ** Writes and the statements they queue *)

Section Connections.
Import SQLite3Service.

Lemma exec_cons s steps c : exec (s :: steps) c = exec steps (step c s).
Proof. done. Qed.

Lemma exec_app steps1 steps2 c :
  exec (steps1 ++ steps2) c = exec steps2 (exec steps1 c).
Proof. apply fold_left_app. Qed.

(** One call, then its statement. *)
Lemma step_call_run db w :
  step (step (settled db) (Call w)) (Run 0) = settled (applyWrite db w).
Proof. done. Qed.

Lemma exec_oneAtATime ws db :
  exec (oneAtATime ws) (settled db) = settled (applyWrites ws db).
Proof.
  revert db. induction ws as [|w ws IH]; intros db; [done|].
  cbn [oneAtATime flat_map app]. rewrite !exec_cons, step_call_run.
  apply IH.
Qed.

Lemma runStatement_jsonStore st db :
  jsonShaped (statementJson st) = true -> jsonStore db ->
  jsonStore (runStatement st db).
Proof.
  unfold jsonStore. intros Hst H.
  destruct st as [s k r t j n|s k r t j n]; cbn [runStatement states withStates].
  - unfold sqlUpdate. apply Forall_forall.
    intros row [r0 [<- Hr0]]%list_elem_of_In%in_map_iff.
    destruct (matches s k r0); [done|].
    rewrite Forall_forall in H. by apply H, list_elem_of_In.
  - unfold sqlInsert. apply Forall_app. split; [done|].
    by apply Forall_singleton.
Qed.

Lemma runStatement_other_tables st db :
  deviceOwners (runStatement st db) = deviceOwners db
  /\ deviceShares (runStatement st db) = deviceShares db.
Proof. by destruct st. Qed.

Lemma upsertStatement_jsonShaped now db serial objectKey revision timestamp v :
  jsonShaped
    (statementJson (upsertStatement now db serial objectKey revision timestamp v))
  = true.
Proof.
  unfold upsertStatement.
  destruct (getState db serial objectKey); apply storedJson_jsonShaped.
Qed.

(** What every step keeps. *)
Lemma connection_step_invariant c s :
  jsonStore (database c) ->
  Forall (fun st => jsonShaped (statementJson st) = true) (pending c) ->
  jsonStore (database (step c s))
  /\ Forall (fun st => jsonShaped (statementJson st) = true) (pending (step c s))
  /\ deviceOwners (database (step c s)) = deviceOwners (database c)
  /\ deviceShares (database (step c s)) = deviceShares (database c).
Proof.
  intros Hdb Hpending. destruct s as [w|n]; cbn [step].
  - cbn [database pending]. split_and!; try done.
    apply Forall_app. split; [done|]. apply Forall_singleton.
    apply upsertStatement_jsonShaped.
  - destruct (pending c !! n) as [st|] eqn:Hst; [|done].
    cbn [database pending].
    assert (Hj : jsonShaped (statementJson st) = true).
    { rewrite Forall_forall in Hpending. apply Hpending.
      by apply list_elem_of_lookup_2 in Hst. }
    destruct (runStatement_other_tables st (database c)) as [? ?].
    split_and!; try done.
    + by apply runStatement_jsonStore.
    + apply Forall_forall. intros x Hx. rewrite Forall_forall in Hpending.
      apply Hpending. by apply list_elem_of_delete_inv in Hx.
Qed.

Lemma connection_invariant steps c :
  jsonStore (database c) ->
  Forall (fun st => jsonShaped (statementJson st) = true) (pending c) ->
  jsonStore (database (exec steps c))
  /\ deviceOwners (database (exec steps c)) = deviceOwners (database c)
  /\ deviceShares (database (exec steps c)) = deviceShares (database c).
Proof.
  revert c. induction steps as [|s steps IH]; intros c Hdb Hpending; [done|].
  rewrite exec_cons.
  destruct (connection_step_invariant c s Hdb Hpending) as (H1 & H2 & H3 & H4).
  destruct (IH (step c s) H1 H2) as (? & -> & ->). done.
Qed.

(** Two calls for a key that has no row, made before either statement has
    run, queue two inserts. *)
Lemma race_two_inserts db w1 w2 :
  getState db (write_serial w1) (write_objectKey w1) = None ->
  (write_serial w2, write_objectKey w2) = (write_serial w1, write_objectKey w1) ->
  states (database (exec [Call w1; Call w2; Run 0%nat; Run 0%nat] (settled db)))
  = states db
    ++ [ {| row_serial := write_serial w1;
            row_object_key := write_objectKey w1;
            row_object_revision := write_revision w1;
            row_object_timestamp := write_timestamp w1;
            row_value := storedJson (write_value w1);
            row_updatedAt := write_now w1 |};
         {| row_serial := write_serial w1;
            row_object_key := write_objectKey w1;
            row_object_revision := write_revision w2;
            row_object_timestamp := write_timestamp w2;
            row_value := storedJson (write_value w2);
            row_updatedAt := write_now w2 |} ].
Proof.
  intros Hnone [= Hs Hk].
  unfold exec. cbn [fold_left step settled database pending app].
  unfold upsertStatement. rewrite Hs, Hk, Hnone.
  cbn [lookup list_lookup delete list_delete runStatement states withStates
       database pending].
  unfold sqlInsert. by rewrite <- app_assoc.
Qed.

End Connections.

(** X2. Whatever calls of [upsertState] are made and in whatever order
    their statements then run, the store holds JSON-shaped values only
    and the ownership and share tables are not touched. One row per key
    is kept when the writes are made one at a time, each statement run
    before the next call; two calls for a key that has no row, made
    before either statement has run, leave two rows under that key. *)
Theorem upsertState_runs_keep_store (db : SQLite3Service.Database) :
  jsonStore db ->
  (forall steps,
     let c := exec steps (settled db) in
     jsonStore (database c)
     /\ SQLite3Service.deviceOwners (database c)
        = SQLite3Service.deviceOwners db
     /\ SQLite3Service.deviceShares (database c)
        = SQLite3Service.deviceShares db)
  /\ (forall ws, oneRowPerKey db ->
        oneRowPerKey (database (exec (oneAtATime ws) (settled db))))
  /\ (forall w1 w2,
        SQLite3Service.getState db (write_serial w1) (write_objectKey w1) = None ->
        (write_serial w2, write_objectKey w2)
        = (write_serial w1, write_objectKey w1) ->
        ~ oneRowPerKey
            (database (exec [Call w1; Call w2; Run 0%nat; Run 0%nat]
                         (settled db)))).
Proof.
  intros Hjson. split_and!.
  - intros steps c. by apply (connection_invariant steps (settled db)).
  - intros ws Hone. rewrite exec_oneAtATime. cbn [database settled].
    by apply applyWrites_invariants.
  - intros w1 w2 Hnone Hkey. unfold oneRowPerKey.
    rewrite (race_two_inserts db w1 w2 Hnone Hkey).
    rewrite fmap_app, NoDup_app. intros (_ & _ & Hnd).
    cbn in Hnd. apply NoDup_cons in Hnd as [Hnd _]. apply Hnd. by left.
Qed.

(** On the empty store: values stay JSON-shaped however three writes and
    their statements interleave. *)
Lemma upsertState_runs_keep_store_witness :
  jsonStore
    (database
       (exec [ Call Scenario.partialUpdate; Call Scenario.sharedWrite;
               Run 1%nat; Call Scenario.partialUpdate; Run 0%nat; Run 0%nat ]
          (settled Scenario.emptyDb))).
Proof.
  destruct (upsertState_runs_keep_store Scenario.emptyDb) as (H & _).
  - apply Forall_nil_2.
  - apply (H [ Call Scenario.partialUpdate; Call Scenario.sharedWrite;
               Run 1%nat; Call Scenario.partialUpdate; Run 0%nat; Run 0%nat ]).
Defined.

(** X4. A write made again, with the same arguments and at the same server
    time, once the statement of the first call has run, leaves the store
    as the first call left it: for a JSON-shaped incoming value other than
    [null], over a store of JSON-shaped values, the second statement
    changes no row. *)
Theorem upsertState_redelivery (db : SQLite3Service.Database) (w : Write) :
  jsonStore db -> jsonShaped (write_value w) = true -> write_value w <> JNull ->
  exec (oneAtATime [w; w]) (settled db) = exec (oneAtATime [w]) (settled db).
Proof.
  intros Hjson Hv Hnull. rewrite !exec_oneAtATime. f_equal.
  unfold applyWrites. cbn [fold_left]. unfold applyWrite.
  by apply upsertState_again.
Qed.

Lemma upsertState_redelivery_witness :
  exec (oneAtATime [Scenario.partialUpdate; Scenario.partialUpdate])
    (settled Scenario.afterFirstWrite)
  = exec (oneAtATime [Scenario.partialUpdate])
      (settled Scenario.afterFirstWrite).
Proof.
  apply (upsertState_redelivery Scenario.afterFirstWrite Scenario.partialUpdate).
  - apply upsertState_jsonStore. apply Forall_nil_2.
  - vm_compute. reflexivity.
  - discriminate.
Defined.

(** X5. With the writes made one at a time, each statement run before the
    next call, the value stored under a key is the left fold of
    [mergeValues] over the values written to that key, whatever is written
    to other keys in between: starting from the value the key held, or
    from [undefined] when it had no row, so that the first write to a new
    key is stored as it comes. This holds as long as the value the key
    held is not [null] and every write to the key carries a JSON-shaped
    value other than [null]. A key that has no row and is not written to
    still has none. *)
Theorem applyWrites_left_fold (ws : list Write) (db : SQLite3Service.Database)
    (serial objectKey : string) :
  jsonStore db ->
  (forall current,
     SQLite3Service.getState db serial objectKey = Some current ->
     SQLite3Service.value current <> JNull) ->
  Forall (fun w => jsonShaped (write_value w) = true /\ write_value w <> JNull)
         (writesTo serial objectKey ws) ->
  SQLite3Service.value
    <$> SQLite3Service.getState
          (database (exec (oneAtATime ws) (settled db))) serial objectKey
  = match SQLite3Service.getState db serial objectKey,
          writesTo serial objectKey ws with
    | None, [] => None
    | stored, writes =>
        Some (fold_left mergeValues (write_value <$> writes)
                (from_option SQLite3Service.value JUndef stored))
    end.
Proof.
  intros Hjson Hnull Hws. rewrite exec_oneAtATime. cbn [database settled].
  destruct (SQLite3Service.getState db serial objectKey) as [current|] eqn:Hcur.
  - rewrite (applyWrites_fold ws db serial objectKey current)
      by (try done; by apply Hnull).
    cbn [from_option]. by destruct (writesTo serial objectKey ws).
  - rewrite applyWrites_fold_fresh by done.
    by destruct (writesTo serial objectKey ws).
Qed.

(** After the first write of [device.A], a write to [shared.A] and a
    partial update of [device.A]: the stored value is the merge of the
    update into the first write. *)
Lemma applyWrites_left_fold_witness :
  SQLite3Service.value
    <$> SQLite3Service.getState
          (database
             (exec (oneAtATime [Scenario.sharedWrite; Scenario.partialUpdate])
                (settled Scenario.afterFirstWrite))) "A" "device.A"
  = Some (mergeValues (JObj Scenario.fanRunning)
                      (JObj {[ "temperature" := JNum 21 ]})).
Proof.
  refine (eq_trans
            (applyWrites_left_fold
               [Scenario.sharedWrite; Scenario.partialUpdate]
               Scenario.afterFirstWrite "A" "device.A" _ _ _) _).
  - apply upsertState_jsonStore. apply Forall_nil_2.
  - intros current Hcur. vm_compute in Hcur. injection Hcur as <-.
    discriminate.
  - apply Forall_cons. split; [|apply Forall_nil_2].
    split; [vm_compute; reflexivity|discriminate].
  - vm_compute. reflexivity.
Defined.
